(** * Dart match engine: validator, statistics tracker and match manager

    A shallow embedding of the scoring core of the repository:

    - [backend/src/modules/validator.ts]   (module [Validator]),
    - [backend/src/modules/statsTracker.ts] (module [StatsTracker]),
    - [backend/src/modules/matchManager.ts] (modules [MatchManager] and
      [Persistence], over the tables of module [Database]),

    followed by the properties of each.

    Conventions.  JavaScript numbers that hold scores, counters and
    identifiers are integers ([Z]); array indices that the source only
    ever obtains from [findIndex] or from a remainder are naturals, the
    [-1] of [findIndex] being [None].  The derived averages are the
    IEEE doubles of the source ([float]), and a division is the division
    of doubles.  An absent property or [undefined] is [None].

    The methods of the manager are functions from the manager object to a
    [result]: a thrown [Error] is the [Err] branch and leaves the object
    as it was (every [throw] of the source precedes the first mutation of
    the call, see also [processThrow_returns]; the one exception, in
    [loadMatch], is told by [afterLoadMatch]).  The clock is an argument
    [now]; what the database receives is kept apart from the match in
    memory, which it influences only through the row id of the first
    save. *)

From Stdlib Require Import ZArith PrimFloat SpecFloat FloatOps.
From Stdlib Require Import Ascii String DecimalString DecimalPos DecimalZ.
From stdpp Require Import gmap strings list fin_maps.

Local Open Scope string_scope.
Local Open Scope Z_scope.

(** ** JavaScript helpers *)

Module JS.

(** [`${n}`] for an integer [n]. *)
Definition toString (n : Z) : string := NilZero.string_of_int (Z.to_int n).

(** [s.startsWith(p)] *)
Definition startsWith (s p : string) : bool := String.prefix p s.

(** [a % b] on integers: the sign follows the dividend. *)
Definition rem (a b : Z) : Z := Z.rem a b.

(** [xs.findIndex(pred)], with [None] for [-1]. *)
Fixpoint findIndex {A} (pred : A → bool) (xs : list A) : option nat :=
  match xs with
  | [] => None
  | x :: xs' => if pred x then Some 0%nat else S <$> findIndex pred xs'
  end.

(** [xs[i]] for a numeric index [i]: [undefined] out of range. *)
Definition index {A} (xs : list A) (i : Z) : option A :=
  if i <? 0 then None else xs !! Z.to_nat i.

(** [xs[i] = v] on an array whose holes are [None]: inside the array
    the slot is overwritten, beyond its end the array is extended; a
    negative [i] names a property, not an element. *)
Definition assign {A} (xs : list (option A)) (i : Z) (v : A) : list (option A) :=
  if i <? 0 then xs
  else
    let i := Z.to_nat i in
    if (i <? length xs)%nat then <[i := Some v]> xs
    else xs ++ replicate (i - length xs) None ++ [Some v].

(** [a || b] where [a] is a number or [undefined]: [0] is falsy. *)
Definition or (a : option Z) (b : Z) : Z :=
  match a with
  | Some v => if v =? 0 then b else v
  | None => b
  end.

(** [parseInt(s)] on the decimal rendering of an integer; [None] is [NaN]. *)
Definition parseInt (s : string) : option Z :=
  Z.of_int <$> NilZero.int_of_string s.

(** A whole number as the double it is held in: the nearest double,
    which is the number itself up to 2^53. *)
Definition double (n : Z) : float :=
  SF2Prim (binary_normalize prec emax n 0 false).

End JS.

(** ** validator.ts *)

Module Validator.

Record ValidatorOptions := {
  doubleIn : bool;
  doubleOut : bool;
  masterOut : bool
}.

Record ValidationResult := {
  valid : bool;
  bust : bool;
  gameShot : bool;
  reason : option string;
  newScore : option Z
}.

Definition isDouble (segment : string) : bool :=
  JS.startsWith segment "D" || String.eqb segment "DBULL".

Definition isTriple (segment : string) : bool :=
  JS.startsWith segment "T".

Definition isMaster (segment : string) : bool :=
  isDouble segment || isTriple segment.

(** [dartsThrown] is accepted and ignored, as in the source. *)
Definition validateX01Throw (currentScore : Z) (segment : string)
    (throwScore : Z) (dartsThrown : Z) (options : ValidatorOptions)
    : ValidationResult :=
  if throwScore <? 0 then
    {| valid := false; bust := false; gameShot := false;
       reason := Some "Invalid score"; newScore := None |}
  else if doubleIn options && (currentScore =? 501) && negb (isDouble segment) then
    {| valid := true; bust := false; gameShot := false;
       reason := Some "Must start with a double";
       newScore := Some currentScore |}
  else
    let newScore := currentScore - throwScore in
    if newScore <? 0 then
      {| valid := true; bust := true; gameShot := false;
         reason := Some "Bust: score below 0"; newScore := None |}
    else if (newScore =? 1) && doubleOut options then
      {| valid := true; bust := true; gameShot := false;
         reason := Some "Bust: cannot finish on 1 with double out";
         newScore := None |}
    else if newScore =? 0 then
      if doubleOut options && negb (isDouble segment) then
        {| valid := true; bust := true; gameShot := false;
           reason := Some "Bust: must finish on a double"; newScore := None |}
      else if masterOut options && negb (isMaster segment) then
        {| valid := true; bust := true; gameShot := false;
           reason := Some "Bust: must finish on a double or triple";
           newScore := None |}
      else
        {| valid := true; bust := false; gameShot := true;
           reason := Some "Game shot!"; newScore := Some 0 |}
    else
      {| valid := true; bust := false; gameShot := false;
         reason := None; newScore := Some newScore |}.

(** *** The distance of a bull shot *)

(** [Math.round(Math.sqrt(n))] for a whole number [n] small enough for
    the root to be computed without a rounding that matters (below 2^50):
    the root lies between the integer root [s] and [s + 1], and is nearer
    to [s] exactly when [n] is at most [s * s + s], the square of
    [s + 1/2] being no whole number. *)
Definition roundedRoot (n : Z) : Z :=
  let s := Z.sqrt n in
  if n - s * s <=? s then s else s + 1.

(** The coordinates are whole millimetres. *)
Definition calculateDistanceFromBull (coordinates : Z * Z) : Z * string :=
  let '(x, y) := coordinates in
  let distance := roundedRoot (x * x + y * y) in
  (distance, JS.toString distance ++ " mm").

(** *** Checkout suggestions *)

(** The [for (let i = 1; i <= 20; i++)] loops: the first [i] of the
    list for which the body returns. *)
Fixpoint firstReturn {A} (body : Z → option A) (range : list Z) : option A :=
  match range with
  | [] => None
  | i :: range' =>
      match body i with
      | Some r => Some r
      | None => firstReturn body range'
      end
  end.

Definition upTo20 : list Z := Z.of_nat <$> seq 1 20.
Definition downFrom20 : list Z := reverse upTo20.

Definition finishable (r : Z) : bool :=
  (0 <? r) && (r <=? 40) && (JS.rem r 2 =? 0).

Definition label (prefix : string) (n : Z) : string :=
  prefix ++ JS.toString n.

Definition twoDartCheckout (score : Z) : option (list string) :=
  if score =? 50 then Some ["BULL"]
  else
    let remainder := score - 50 in
    if finishable remainder then Some ["BULL"; label "D" (remainder / 2)]
    else
      match firstReturn (λ i,
              let remainingAfterTreble := score - i * 3 in
              if finishable remainingAfterTreble
              then Some [label "T" i; label "D" (remainingAfterTreble / 2)]
              else None) upTo20 with
      | Some r => Some r
      | None =>
          firstReturn (λ i,
              let remainingAfterSingle := score - i in
              if finishable remainingAfterSingle
              then Some [label "S" i; label "D" (remainingAfterSingle / 2)]
              else None) upTo20
      end.

Definition threeDartSpecial (score : Z) : option (list string) :=
  if score =? 170 then Some ["T20"; "T20"; "BULL"]
  else if score =? 167 then Some ["T20"; "T19"; "BULL"]
  else if score =? 164 then Some ["T20"; "T18"; "BULL"]
  else if score =? 161 then Some ["T20"; "T17"; "BULL"]
  else if score =? 160 then Some ["T20"; "T20"; "D20"]
  else if score =? 158 then Some ["T20"; "T20"; "D19"]
  else if score =? 157 then Some ["T20"; "T19"; "D20"]
  else if score =? 156 then Some ["T20"; "T20"; "D18"]
  else if score =? 155 then Some ["T20"; "T19"; "D19"]
  else if score =? 154 then Some ["T20"; "T18"; "D20"]
  else if score =? 153 then Some ["T20"; "T19"; "D18"]
  else if score =? 152 then Some ["T20"; "T20"; "D16"]
  else if score =? 151 then Some ["T20"; "T17"; "D20"]
  else if score =? 150 then Some ["T20"; "T18"; "D18"]
  else None.

Definition threeDartCheckout (score : Z) : option (list string) :=
  match threeDartSpecial score with
  | Some r => Some r
  | None =>
      firstReturn (λ i,
        let remainingAfterTreble := score - i * 3 in
        if (60 <? remainingAfterTreble) && (remainingAfterTreble <=? 110) then
          firstReturn (λ j,
            let finalRemaining := remainingAfterTreble - j * 3 in
            if finishable finalRemaining
            then Some [label "T" i; label "T" j; label "D" (finalRemaining / 2)]
            else None) downFrom20
        else None) downFrom20
  end.

Definition isBogey (score : Z) : bool :=
  (score =? 169) || (score =? 168) || (score =? 166) || (score =? 165)
  || (score =? 163) || (score =? 162) || (score =? 159).

(** The body of [getCheckoutSuggestion]; [self] is the function
    itself, called in the last branch on [score - 1].  The outer
    [option] belongs to the unfolding of that recursion below, the
    inner one is the [string[] | null] of the source. *)
Definition getCheckoutSuggestion_body
    (self : Z → Z → option (option (list string))) (score dartsLeft : Z)
    : option (option (list string)) :=
  if (170 <? score) || (score <=? 0) || isBogey score then Some None
  else if ((40 <? score) && (dartsLeft <? 2))
          || ((110 <? score) && (dartsLeft <? 3)) then Some None
  else if (score <=? 40) && (JS.rem score 2 =? 0) then
    Some (Some [label "D" (score / 2)])
  else
    match (if 2 <=? dartsLeft then twoDartCheckout score else None) with
    | Some r => Some (Some r)
    | None =>
        match (if 3 <=? dartsLeft then threeDartCheckout score else None) with
        | Some r => Some (Some r)
        | None =>
            if JS.rem score 2 =? 1 then
              match self (score - 1) (dartsLeft - 1) with
              | None => None
              | Some rest => Some (Some ("S1" :: default [] rest))
              end
            else Some None
        end
    end.

(** The recursion, unfolded [calls] times; [None] when a further call
    would be needed. *)
Fixpoint getCheckoutSuggestion_calls (calls : nat)
    : Z → Z → option (option (list string)) :=
  match calls with
  | O => λ _ _, None
  | S calls' => getCheckoutSuggestion_body (getCheckoutSuggestion_calls calls')
  end.

(** Two nested calls are all the source ever makes (see
    [getCheckoutSuggestion_calls_enough]). *)
Definition getCheckoutSuggestion (score dartsLeft : Z) : option (list string) :=
  default None (getCheckoutSuggestion_calls 2 score dartsLeft).

End Validator.

(** ** statsTracker.ts *)

Module StatsTracker.

Record PlayerStats := {
  dartsThrown : Z;
  pointsScored : Z;
  legsWon : Z;
  legDarts : list Z;
  busts : Z;
  checkoutAttempts : Z;
  checkoutSuccesses : Z;
  highestCheckout : Z;
  tonPlus : Z;
  tonFortyPlus : Z;
  tonEightyPlus : Z;
  averageThrow : float;
  checkoutPercentage : float;
  dartsPerLeg : float;
  bestLegDarts : Z
}.

Record MatchStats := {
  players : gmap Z PlayerStats;
  checkoutSuggestions : bool;
  startTime : Z;
  endTime : option Z;
  legsPlayed : Z;
  currentLeg : Z;
  legsToWin : Z;
  legStarters : list Z
}.

Definition initPlayerStats : PlayerStats := {|
  dartsThrown := 0; pointsScored := 0; legsWon := 0; legDarts := [];
  busts := 0; checkoutAttempts := 0; checkoutSuccesses := 0;
  highestCheckout := 0; tonPlus := 0; tonFortyPlus := 0; tonEightyPlus := 0;
  averageThrow := 0%float; checkoutPercentage := 0%float; dartsPerLeg := 0%float;
  bestLegDarts := 0
|}.

(** [now] is the value of [new Date()]. *)
Definition initMatchStats (playerIds : list Z) (legsToWin : Z) (now : Z)
    : MatchStats := {|
  players := foldl (λ acc id, <[id := initPlayerStats]> acc) ∅ playerIds;
  checkoutSuggestions := true;
  startTime := now;
  endTime := None;
  legsPlayed := 0;
  currentLeg := 1;
  legsToWin := legsToWin;
  legStarters := []
|}.

(** [a / b] on two whole numbers: the quotient of their doubles,
    rounded as a division of doubles is. *)
Definition ratio (a b : Z) : float := (JS.double a / JS.double b)%float.

Definition updatePlayerThrow (stats : PlayerStats) (throwScore : Z)
    (isBust isCheckoutAttempt isSuccessfulCheckout : bool)
    (checkoutValue : Z) : PlayerStats :=
  let dartsThrown' := dartsThrown stats + 1 in
  let pointsScored' :=
    if negb isBust then pointsScored stats + throwScore else pointsScored stats in
  let busts' := if isBust then busts stats + 1 else busts stats in
  let checkoutAttempts' :=
    if isCheckoutAttempt then checkoutAttempts stats + 1 else checkoutAttempts stats in
  let checkoutSuccesses' :=
    if isSuccessfulCheckout then checkoutSuccesses stats + 1
    else checkoutSuccesses stats in
  let highestCheckout' :=
    if isSuccessfulCheckout && (highestCheckout stats <? checkoutValue)
    then checkoutValue else highestCheckout stats in
  {| dartsThrown := dartsThrown';
     pointsScored := pointsScored';
     legsWon := legsWon stats;
     legDarts := legDarts stats;
     busts := busts';
     checkoutAttempts := checkoutAttempts';
     checkoutSuccesses := checkoutSuccesses';
     highestCheckout := highestCheckout';
     tonPlus := tonPlus stats;
     tonFortyPlus := tonFortyPlus stats;
     tonEightyPlus := tonEightyPlus stats;
     averageThrow :=
       if 0 <? dartsThrown' then (ratio pointsScored' dartsThrown' * 3)%float
       else 0%float;
     checkoutPercentage :=
       if 0 <? checkoutAttempts'
       then (ratio checkoutSuccesses' checkoutAttempts' * 100)%float else 0%float;
     dartsPerLeg := dartsPerLeg stats;
     bestLegDarts := bestLegDarts stats |}.

Definition bumpTon (stats : PlayerStats) (plus forty eighty : Z) : PlayerStats :=
  {| dartsThrown := dartsThrown stats;
     pointsScored := pointsScored stats;
     legsWon := legsWon stats;
     legDarts := legDarts stats;
     busts := busts stats;
     checkoutAttempts := checkoutAttempts stats;
     checkoutSuccesses := checkoutSuccesses stats;
     highestCheckout := highestCheckout stats;
     tonPlus := tonPlus stats + plus;
     tonFortyPlus := tonFortyPlus stats + forty;
     tonEightyPlus := tonEightyPlus stats + eighty;
     averageThrow := averageThrow stats;
     checkoutPercentage := checkoutPercentage stats;
     dartsPerLeg := dartsPerLeg stats;
     bestLegDarts := bestLegDarts stats |}.

Definition updatePlayerTurn (stats : PlayerStats) (turnScore : Z) : PlayerStats :=
  if (100 <=? turnScore) && (turnScore <? 140) then bumpTon stats 1 0 0
  else if (140 <=? turnScore) && (turnScore <? 180) then bumpTon stats 0 1 0
  else if turnScore =? 180 then bumpTon stats 0 0 1
  else bumpTon stats 0 0 0.

(** [legDarts.reduce((sum, darts) => sum + darts, 0)] *)
Definition sumDarts (legDarts : list Z) : Z := foldl Z.add 0 legDarts.

Definition updateLegWin (stats : PlayerStats) (dartsUsedInLeg : Z) : PlayerStats :=
  let legsWon' := legsWon stats + 1 in
  let legDarts' := (legDarts stats ++ [dartsUsedInLeg])%list in
  {| dartsThrown := dartsThrown stats;
     pointsScored := pointsScored stats;
     legsWon := legsWon';
     legDarts := legDarts';
     busts := busts stats;
     checkoutAttempts := checkoutAttempts stats;
     checkoutSuccesses := checkoutSuccesses stats;
     highestCheckout := highestCheckout stats;
     tonPlus := tonPlus stats;
     tonFortyPlus := tonFortyPlus stats;
     tonEightyPlus := tonEightyPlus stats;
     averageThrow := averageThrow stats;
     checkoutPercentage := checkoutPercentage stats;
     dartsPerLeg :=
       if 0 <? legsWon' then ratio (sumDarts legDarts') legsWon' else 0%float;
     bestLegDarts :=
       if (bestLegDarts stats =? 0) || (dartsUsedInLeg <? bestLegDarts stats)
       then dartsUsedInLeg else bestLegDarts stats |}.

Definition isCheckoutPosition (score : Z) : bool :=
  (score <=? 170) && negb (score =? 169) && negb (score =? 168)
  && negb (score =? 166) && negb (score =? 165) && negb (score =? 163)
  && negb (score =? 162) && negb (score =? 159).

(** In-place updates of a [MatchStats] object. *)
Definition setPlayers (ms : MatchStats) (ps : gmap Z PlayerStats) : MatchStats :=
  {| players := ps; checkoutSuggestions := checkoutSuggestions ms;
     startTime := startTime ms; endTime := endTime ms;
     legsPlayed := legsPlayed ms; currentLeg := currentLeg ms;
     legsToWin := legsToWin ms; legStarters := legStarters ms |}.

Definition setEndTime (ms : MatchStats) (t : option Z) : MatchStats :=
  {| players := players ms; checkoutSuggestions := checkoutSuggestions ms;
     startTime := startTime ms; endTime := t;
     legsPlayed := legsPlayed ms; currentLeg := currentLeg ms;
     legsToWin := legsToWin ms; legStarters := legStarters ms |}.

Definition addBust (stats : PlayerStats) : PlayerStats :=
  {| dartsThrown := dartsThrown stats;
     pointsScored := pointsScored stats;
     legsWon := legsWon stats;
     legDarts := legDarts stats;
     busts := busts stats + 1;
     checkoutAttempts := checkoutAttempts stats;
     checkoutSuccesses := checkoutSuccesses stats;
     highestCheckout := highestCheckout stats;
     tonPlus := tonPlus stats;
     tonFortyPlus := tonFortyPlus stats;
     tonEightyPlus := tonEightyPlus stats;
     averageThrow := averageThrow stats;
     checkoutPercentage := checkoutPercentage stats;
     dartsPerLeg := dartsPerLeg stats;
     bestLegDarts := bestLegDarts stats |}.

Definition nextLeg (ms : MatchStats) (leg : Z) : MatchStats :=
  {| players := players ms; checkoutSuggestions := checkoutSuggestions ms;
     startTime := startTime ms; endTime := endTime ms;
     legsPlayed := legsPlayed ms + 1; currentLeg := leg;
     legsToWin := legsToWin ms; legStarters := legStarters ms |}.

(** The object [serializeMatchStats] returns: the match statistics
    with the player map turned into a record keyed by the decimal
    player id.  Dates are kept as their millisecond values. *)
Record SerializedMatchStats := {
  s_players : option (list (string * PlayerStats));
  s_rest : MatchStats
}.

Definition serializeMatchStats (matchStats : MatchStats) : SerializedMatchStats :=
  {| s_players :=
       Some ((λ '(playerId, stats), (JS.toString playerId, stats))
               <$> map_to_list (players matchStats));
     s_rest := matchStats |}.

(** A key that [parseInt] does not read is left out. *)
Definition deserializeMatchStats (serializedStats : SerializedMatchStats)
    : MatchStats :=
  setPlayers (s_rest serializedStats)
    (foldl (λ acc '(playerId, stats),
              match JS.parseInt playerId with
              | Some id => <[id := stats]> acc
              | None => acc
              end) ∅ (default [] (s_players serializedStats))).

End StatsTracker.

(** ** matchManager.ts: the data model *)

Inductive Error :=
  | AlreadyInProgress     (* 'Match already in progress' *)
  | NoMatch               (* 'No match in progress', 'No match to ...' *)
  | InvalidTransition     (* 'Cannot ... in state: ...' *)
  | PlayerNotFound        (* 'Player with id ... not found' *)
  | NotYourTurn           (* 'Not player ...'s turn' *)
  | TurnComplete          (* 'Player has already thrown 3 darts' *)
  | ThrowNotFound         (* 'Throw with id ... not found' *)
  | MatchNotFound         (* 'Match with id ... not found' *)
  | DatabaseNotAvailable  (* 'Database not available' *)
  | TypeError.            (* a property read on [undefined] *)

Inductive result (A : Type) :=
  | Ok (a : A)
  | Err (e : Error).
Arguments Ok {A} a.
Arguments Err {A} e.

#[global] Instance result_ret : MRet result := @Ok.
#[global] Instance result_bind : MBind result := λ A B k r,
  match r with
  | Ok a => k a
  | Err e => Err e
  end.

(** [o] when defined, the error otherwise. *)
Definition orThrow {A} (o : option A) (e : Error) : result A :=
  match o with
  | Some a => Ok a
  | None => Err e
  end.

Inductive State :=
  | pending | warmup | bullshot | active | completed
  | setup | playing | finished.

#[global] Instance State_eq_dec : EqDecision State.
Proof. solve_decision. Defined.

(** The settings object of a match, [ValidatorSettingsOptions]. *)
Record ValidatorSettingsOptions := {
  options :> Validator.ValidatorOptions;
  startingScore : Z;
  checkoutSuggestions : bool
}.

(** [Partial<ValidatorSettingsOptions>], the argument of [createMatch]:
    [None] is an absent property. *)
Record PartialSettings := {
  ps_doubleIn : option bool;
  ps_doubleOut : option bool;
  ps_masterOut : option bool;
  ps_startingScore : option Z;
  ps_checkoutSuggestions : option bool
}.

(** [ThrowData] of [types/scolia], with the properties the manager
    reads and writes.  [throwIndex] is absent on the throws that
    [loadMatch] rebuilds from rows without a [throw_number]. *)
Module Throw.
Record t := {
  id : Z;
  matchId : Z;
  playerId : Z;
  round : Z;
  throwIndex : option Z;
  segment : string;
  score : Z;
  timestamp : Z;
  coordinates : option (Z * Z)
}.

Definition correct (th : t) (segment' : string) (score' : Z) : t :=
  {| id := id th; matchId := matchId th; playerId := playerId th;
     round := round th; throwIndex := throwIndex th;
     segment := segment'; score := score';
     timestamp := timestamp th; coordinates := coordinates th |}.
End Throw.

(** The six display statistics a player carries ([PlayerGameStats]). *)
Record PlayerGameStats := {
  avgScore : float;
  highScore : float;
  checkouts : float;
  gs_checkoutPercentage : float;
  highCheckout : float;
  gs_dartsPerLeg : float
}.

(** The [stats] property of a [PlayerModel]: absent, a JSON string
    (carried with what [JSON.parse] makes of it, [None] when it throws)
    or an object. *)
Inductive StatsProperty :=
  | StatsAbsent
  | StatsJson (text : string) (parsed : option PlayerGameStats)
  | StatsObject (o : PlayerGameStats).

(** [PlayerModel] of [types/models]. *)
Module PlayerModel.
Record t := {
  id : Z;
  name : string;
  nickname : option string;
  avatar : option string;
  stats : StatsProperty
}.
End PlayerModel.

Module Player.
(** [legsWon] and [stats] are absent on the players [loadMatch]
    builds, hence optional. *)
Record t := {
  id : Z;
  name : string;
  nickname : option string;
  avatar : option string;
  position : Z;
  score : Z;
  isActive : bool;
  isWinner : bool;
  history : list Throw.t;
  currentTurn : list Throw.t;
  originalScore : Z;
  dartsThrown : Z;
  legsWon : option Z;
  stats : option PlayerGameStats
}.

Definition setScore (p : t) (v : Z) : t :=
  {| id := id p; name := name p; nickname := nickname p; avatar := avatar p;
     position := position p; score := v; isActive := isActive p;
     isWinner := isWinner p; history := history p;
     currentTurn := currentTurn p; originalScore := originalScore p;
     dartsThrown := dartsThrown p; legsWon := legsWon p; stats := stats p |}.

Definition setIsActive (p : t) (v : bool) : t :=
  {| id := id p; name := name p; nickname := nickname p; avatar := avatar p;
     position := position p; score := score p; isActive := v;
     isWinner := isWinner p; history := history p;
     currentTurn := currentTurn p; originalScore := originalScore p;
     dartsThrown := dartsThrown p; legsWon := legsWon p; stats := stats p |}.

Definition setIsWinner (p : t) (v : bool) : t :=
  {| id := id p; name := name p; nickname := nickname p; avatar := avatar p;
     position := position p; score := score p; isActive := isActive p;
     isWinner := v; history := history p;
     currentTurn := currentTurn p; originalScore := originalScore p;
     dartsThrown := dartsThrown p; legsWon := legsWon p; stats := stats p |}.

Definition setHistory (p : t) (v : list Throw.t) : t :=
  {| id := id p; name := name p; nickname := nickname p; avatar := avatar p;
     position := position p; score := score p; isActive := isActive p;
     isWinner := isWinner p; history := v;
     currentTurn := currentTurn p; originalScore := originalScore p;
     dartsThrown := dartsThrown p; legsWon := legsWon p; stats := stats p |}.

Definition setCurrentTurn (p : t) (v : list Throw.t) : t :=
  {| id := id p; name := name p; nickname := nickname p; avatar := avatar p;
     position := position p; score := score p; isActive := isActive p;
     isWinner := isWinner p; history := history p;
     currentTurn := v; originalScore := originalScore p;
     dartsThrown := dartsThrown p; legsWon := legsWon p; stats := stats p |}.

Definition setOriginalScore (p : t) (v : Z) : t :=
  {| id := id p; name := name p; nickname := nickname p; avatar := avatar p;
     position := position p; score := score p; isActive := isActive p;
     isWinner := isWinner p; history := history p;
     currentTurn := currentTurn p; originalScore := v;
     dartsThrown := dartsThrown p; legsWon := legsWon p; stats := stats p |}.

Definition setDartsThrown (p : t) (v : Z) : t :=
  {| id := id p; name := name p; nickname := nickname p; avatar := avatar p;
     position := position p; score := score p; isActive := isActive p;
     isWinner := isWinner p; history := history p;
     currentTurn := currentTurn p; originalScore := originalScore p;
     dartsThrown := v; legsWon := legsWon p; stats := stats p |}.
End Player.

Module Match.
Record t := {
  id : Z;
  boardId : Z;
  mode : string;
  players : list Player.t;
  legsToWin : Z;
  currentLeg : Z;
  legStarters : list (option Z);
  activePlayerIndex : nat;
  round : Z;
  state : State;
  settings : ValidatorSettingsOptions;
  timestamp : Z;
  isAutosaved : bool;
  stats : StatsTracker.MatchStats
}.

Definition setId (m : t) (v : Z) : t :=
  {| id := v; boardId := boardId m; mode := mode m; players := players m;
     legsToWin := legsToWin m; currentLeg := currentLeg m;
     legStarters := legStarters m; activePlayerIndex := activePlayerIndex m;
     round := round m; state := state m; settings := settings m;
     timestamp := timestamp m; isAutosaved := isAutosaved m; stats := stats m |}.

Definition setPlayers (m : t) (v : list Player.t) : t :=
  {| id := id m; boardId := boardId m; mode := mode m; players := v;
     legsToWin := legsToWin m; currentLeg := currentLeg m;
     legStarters := legStarters m; activePlayerIndex := activePlayerIndex m;
     round := round m; state := state m; settings := settings m;
     timestamp := timestamp m; isAutosaved := isAutosaved m; stats := stats m |}.

Definition setCurrentLeg (m : t) (v : Z) : t :=
  {| id := id m; boardId := boardId m; mode := mode m; players := players m;
     legsToWin := legsToWin m; currentLeg := v;
     legStarters := legStarters m; activePlayerIndex := activePlayerIndex m;
     round := round m; state := state m; settings := settings m;
     timestamp := timestamp m; isAutosaved := isAutosaved m; stats := stats m |}.

Definition setLegStarters (m : t) (v : list (option Z)) : t :=
  {| id := id m; boardId := boardId m; mode := mode m; players := players m;
     legsToWin := legsToWin m; currentLeg := currentLeg m;
     legStarters := v; activePlayerIndex := activePlayerIndex m;
     round := round m; state := state m; settings := settings m;
     timestamp := timestamp m; isAutosaved := isAutosaved m; stats := stats m |}.

Definition setActivePlayerIndex (m : t) (v : nat) : t :=
  {| id := id m; boardId := boardId m; mode := mode m; players := players m;
     legsToWin := legsToWin m; currentLeg := currentLeg m;
     legStarters := legStarters m; activePlayerIndex := v;
     round := round m; state := state m; settings := settings m;
     timestamp := timestamp m; isAutosaved := isAutosaved m; stats := stats m |}.

Definition setRound (m : t) (v : Z) : t :=
  {| id := id m; boardId := boardId m; mode := mode m; players := players m;
     legsToWin := legsToWin m; currentLeg := currentLeg m;
     legStarters := legStarters m; activePlayerIndex := activePlayerIndex m;
     round := v; state := state m; settings := settings m;
     timestamp := timestamp m; isAutosaved := isAutosaved m; stats := stats m |}.

Definition setState (m : t) (v : State) : t :=
  {| id := id m; boardId := boardId m; mode := mode m; players := players m;
     legsToWin := legsToWin m; currentLeg := currentLeg m;
     legStarters := legStarters m; activePlayerIndex := activePlayerIndex m;
     round := round m; state := v; settings := settings m;
     timestamp := timestamp m; isAutosaved := isAutosaved m; stats := stats m |}.

Definition setStats (m : t) (v : StatsTracker.MatchStats) : t :=
  {| id := id m; boardId := boardId m; mode := mode m; players := players m;
     legsToWin := legsToWin m; currentLeg := currentLeg m;
     legStarters := legStarters m; activePlayerIndex := activePlayerIndex m;
     round := round m; state := state m; settings := settings m;
     timestamp := timestamp m; isAutosaved := isAutosaved m; stats := v |}.

(** [saveMatchState(isAutosave)], as far as the match object goes. *)
Definition stamp (m : t) (now : Z) (isAutosave : bool) : t :=
  {| id := id m; boardId := boardId m; mode := mode m; players := players m;
     legsToWin := legsToWin m; currentLeg := currentLeg m;
     legStarters := legStarters m; activePlayerIndex := activePlayerIndex m;
     round := round m; state := state m; settings := settings m;
     timestamp := now; isAutosaved := isAutosave; stats := stats m |}.
End Match.

Module BullResult.
Record t := {
  playerId : Z;
  segment : string;
  distance : Z;
  formattedDistance : string
}.
End BullResult.

(** ** The tables the manager writes and reads

    Only the columns that [saveMatchToDb], [saveThrowToDb] and
    [loadMatch] name are kept.  A column is optional when one of them
    reads it and none of them writes it. *)

Module Database.

(** The JSON text of [matches.settings], parsed. *)
Module SettingsJson.
Record t := {
  doubleIn : option bool;
  doubleOut : option bool;
  masterOut : option bool;
  startingScore : option Z;
  checkoutSuggestions : option bool;
  legsToWin : option Z
}.
(** ['{}'] *)
Definition empty : t :=
  {| doubleIn := None; doubleOut := None; masterOut := None;
     startingScore := None; checkoutSuggestions := None; legsToWin := None |}.
End SettingsJson.

(** The JSON text of [matches.scores], parsed. *)
Module ScoresJson.
Record player := {
  id : Z;
  score : option Z;
  isActive : option bool;
  isWinner : option bool
}.
Record t := {
  players : option (list player);
  currentLeg : option Z;
  stats : option StatsTracker.SerializedMatchStats;
  legStarters : option (list (option Z));
  round : option Z
}.
Definition empty : t :=
  {| players := None; currentLeg := None; stats := None;
     legStarters := None; round := None |}.
End ScoresJson.

Module MatchRow.
Record t := {
  id : Z;
  board_id : Z;
  mode : string;
  legs_to_win : Z;
  current_leg : Z;
  active_player_index : Z;
  state : State;
  settings : option SettingsJson.t;
  scores : option ScoresJson.t;
  timestamp : Z;
  is_autosaved : Z
}.
End MatchRow.

Module MatchPlayerRow.
Record t := {
  match_id : Z;
  player_id : Z;
  position : Z;
  original_score : Z
}.
End MatchPlayerRow.

Module PlayerRow.
Record t := {
  id : Z;
  name : string;
  nickname : option string;
  avatar : option string
}.
End PlayerRow.

Module LegStarterRow.
Record t := {
  match_id : Z;
  leg_number : Z;
  player_id : option Z
}.
End LegStarterRow.

Module ThrowRow.
Record t := {
  id : Z;
  match_id : Z;
  player_id : Z;
  leg : option Z;
  round : Z;
  throw_order : Z;
  throw_number : option Z;
  segment : string;
  score : Z;
  is_valid : Z;
  coordinates : option (Z * Z);
  timestamp : Z
}.
End ThrowRow.

Record t := {
  matches : list MatchRow.t;
  match_players : list MatchPlayerRow.t;
  players : list PlayerRow.t;
  leg_starters : list LegStarterRow.t;
  throws : list ThrowRow.t
}.

(** The row id an [INSERT] gets in a table whose rows have their [id]
    as [INTEGER PRIMARY KEY]: one more than the largest id in the table,
    and 1 in an empty table.  (With [AUTOINCREMENT] the ids of deleted
    rows count too; the manager deletes nothing.) *)
Definition lastID {A} (id : A → Z) (rows : list A) : Z :=
  match id <$> rows with
  | [] => 1
  | first :: rest => foldr Z.max first rest + 1
  end.

(** [ORDER BY]: a stable insertion sort. *)
Fixpoint insertBy {A} (le : A → A → bool) (x : A) (sorted : list A) : list A :=
  match sorted with
  | [] => [x]
  | y :: rest => if le x y then x :: sorted else y :: insertBy le x rest
  end.

Definition orderBy {A} (le : A → A → bool) (rows : list A) : list A :=
  foldr (insertBy le) [] rows.

(** [SELECT * FROM matches WHERE id = ?] *)
Definition selectMatch (db : t) (matchId : Z) : option MatchRow.t :=
  head (List.filter (λ r, MatchRow.id r =? matchId) (matches db)).

(** [SELECT mp.*, p.name, p.nickname, p.avatar FROM match_players mp
     JOIN players p ON mp.player_id = p.id WHERE mp.match_id = ?
     ORDER BY mp.position] *)
Definition selectMatchPlayers (db : t) (matchId : Z)
    : list (MatchPlayerRow.t * PlayerRow.t) :=
  orderBy (λ a b, MatchPlayerRow.position a.1 <=? MatchPlayerRow.position b.1)
    (mp ← List.filter (λ mp, MatchPlayerRow.match_id mp =? matchId) (match_players db);
     p ← List.filter (λ p, PlayerRow.id p =? MatchPlayerRow.player_id mp) (players db);
     [(mp, p)]).

(** [NULL] sorts first. *)
Definition nullsFirst (a b : option Z) : comparison :=
  match a, b with
  | None, None => Eq
  | None, Some _ => Lt
  | Some _, None => Gt
  | Some a, Some b => a ?= b
  end.

Definition throwOrder (a b : ThrowRow.t) : bool :=
  match ThrowRow.round a ?= ThrowRow.round b with
  | Lt => true
  | Gt => false
  | Eq =>
      match ThrowRow.player_id a ?= ThrowRow.player_id b with
      | Lt => true
      | Gt => false
      | Eq =>
          match nullsFirst (ThrowRow.throw_number a) (ThrowRow.throw_number b) with
          | Gt => false
          | _ => true
          end
      end
  end.

(** [SELECT * FROM throws WHERE match_id = ?
     ORDER BY round, player_id, throw_number] *)
Definition selectThrows (db : t) (matchId : Z) : list ThrowRow.t :=
  orderBy throwOrder (List.filter (λ r, ThrowRow.match_id r =? matchId) (throws db)).

End Database.

(** ** matchManager.ts: the manager *)

Module MatchManager.

(** The manager object.  The class declares [match], [db] and
    [autosaveTimer]; [initializePlayers] also reads [this.settings],
    a property that neither the class nor its constructor defines.  It
    is kept as the field [this_settings], [None] being [undefined]. *)
Record t := {
  match_ : option Match.t;
  this_settings : option ValidatorSettingsOptions;
  db : bool;
  autosaveTimer : bool
}.

Definition constructor (db : bool) : t :=
  {| match_ := None; this_settings := None; db := db; autosaveTimer := false |}.

Definition setMatch (mgr : t) (m : Match.t) : t :=
  {| match_ := Some m; this_settings := this_settings mgr;
     db := db mgr; autosaveTimer := autosaveTimer mgr |}.

Definition setAutosaveTimer (mgr : t) (running : bool) : t :=
  {| match_ := match_ mgr; this_settings := this_settings mgr;
     db := db mgr; autosaveTimer := running |}.

Record ThrowResults := {
  throwData : Throw.t;
  validationResult : Validator.ValidationResult;
  bust : bool;
  gameShot : bool;
  legWon : bool;
  matchWon : bool;
  checkoutSuggestion : option (list string)
}.

Definition createDefaultStats : PlayerGameStats :=
  {| avgScore := 0%float; highScore := 0%float; checkouts := 0%float;
     gs_checkoutPercentage := 0%float; highCheckout := 0%float;
     gs_dartsPerLeg := 0%float |}.

Definition convertStats (s : StatsProperty) : PlayerGameStats :=
  match s with
  | StatsAbsent => createDefaultStats
  | StatsJson text parsed =>
      if String.eqb text "" then createDefaultStats
      else default createDefaultStats parsed
  | StatsObject o => o
  end.

(** The body of the [map] callback of [initializePlayers]:
    [this.settings.startingScore] throws when [this.settings] is
    [undefined]. *)
Definition initializePlayer (mgr : t) (index : nat) (player : PlayerModel.t)
    : result Player.t :=
  let playerStats := convertStats (PlayerModel.stats player) in
  this_settings ← orThrow (this_settings mgr) TypeError;
  Ok {| Player.id := PlayerModel.id player;
        Player.name := PlayerModel.name player;
        Player.nickname := PlayerModel.nickname player;
        Player.avatar := PlayerModel.avatar player;
        Player.position := Z.of_nat index + 1;
        Player.score := startingScore this_settings;
        Player.isActive := Nat.eqb index 0;
        Player.isWinner := false;
        Player.history := [];
        Player.currentTurn := [];
        Player.originalScore := startingScore this_settings;
        Player.dartsThrown := 0;
        Player.legsWon := Some 0;
        Player.stats := Some playerStats |}.

Fixpoint initializePlayersFrom (mgr : t) (index : nat)
    (playerModels : list PlayerModel.t) : result (list Player.t) :=
  match playerModels with
  | [] => Ok []
  | player :: rest =>
      p ← initializePlayer mgr index player;
      ps ← initializePlayersFrom mgr (S index) rest;
      Ok (p :: ps)
  end.

Definition initializePlayers (mgr : t) (playerModels : list PlayerModel.t)
    : result (list Player.t) :=
  initializePlayersFrom mgr 0 playerModels.

(** Lines 123-128 of [createMatch]: the starting score of the mode. *)
Definition resolveStartingScore (mode : string) (settings : PartialSettings) : Z :=
  if String.eqb mode "x01" then
    let x01Value :=
      match ps_startingScore settings with
      | Some v => if v =? 0 then 501 else v
      | None => 501
      end in
    if existsb (Z.eqb x01Value) [301; 501; 701; 901] then x01Value else 501
  else 501.

(** [saveMatchState]: the match object gets a new timestamp; what the
    database receives is the business of [Persistence] below. *)
Definition saveMatchState (m : Match.t) (now : Z) : Match.t :=
  Match.stamp m now false.

(** [insertedId] is the row id the first [saveMatchToDb] returns,
    [None] when that call throws; it is consulted only when the
    manager has a database. *)
Definition createMatch (mgr : t) (boardId : Z) (players : list PlayerModel.t)
    (mode : string) (legsToWin : Z) (settings : PartialSettings)
    (now : Z) (insertedId : option Z) : result (t * Match.t) :=
  if bool_decide (is_Some (match_ mgr)) then Err AlreadyInProgress
  else
    let startingScore := resolveStartingScore mode settings in
    let validatorOptions := {|
      options := {|
        Validator.doubleIn := default false (ps_doubleIn settings);
        Validator.doubleOut := default true (ps_doubleOut settings);
        Validator.masterOut := default false (ps_masterOut settings) |};
      startingScore := startingScore;
      checkoutSuggestions := default true (ps_checkoutSuggestions settings) |} in
    setupPlayers ← initializePlayers mgr players;
    first ← orThrow (head setupPlayers) TypeError;
    let m := {|
      Match.id := 0;
      Match.boardId := boardId;
      Match.players := setupPlayers;
      Match.legsToWin := legsToWin;
      Match.currentLeg := 1;
      Match.activePlayerIndex := 0;
      Match.mode := mode;
      Match.state := pending;
      Match.settings := validatorOptions;
      Match.stats :=
        StatsTracker.initMatchStats (Player.id <$> setupPlayers) legsToWin now;
      Match.legStarters := [Some (Player.id first)];
      Match.round := 1;
      Match.timestamp := now;
      Match.isAutosaved := false |} in
    let m :=
      if db mgr then
        match insertedId with
        | Some id => Match.setId m id
        | None => m
        end
      else m in
    Ok (setAutosaveTimer (setMatch mgr m) true, m).

(** The guarded phase changes share one shape. *)
Definition transition (mgr : t) (allowed : State → bool) (target : State)
    (now : Z) : result (t * Match.t) :=
  m ← orThrow (match_ mgr) NoMatch;
  if negb (allowed (Match.state m)) then Err InvalidTransition
  else
    let m := saveMatchState (Match.setState m target) now in
    Ok (setMatch mgr m, m).

Definition startMatch (mgr : t) (now : Z) : result (t * Match.t) :=
  transition mgr (λ s, bool_decide (s = pending)) warmup now.

Definition startWarmup (mgr : t) (now : Z) : result (t * Match.t) :=
  transition mgr (λ s, bool_decide (s = pending) || bool_decide (s = warmup))
    warmup now.

Definition endWarmup (mgr : t) (now : Z) : result (t * Match.t) :=
  transition mgr (λ s, bool_decide (s = warmup)) bullshot now.

(** The shot is measured and reported; the manager keeps nothing of
    it. *)
Definition recordBullShot (mgr : t) (playerId : Z) (segment : string)
    (coordinates : Z * Z) : result BullResult.t :=
  m ← orThrow (match_ mgr) NoMatch;
  if negb (bool_decide (Match.state m = bullshot)) then Err InvalidTransition
  else
    let '(distance, formattedDistance) :=
      Validator.calculateDistanceFromBull coordinates in
    Ok {| BullResult.playerId := playerId;
          BullResult.segment := segment;
          BullResult.distance := distance;
          BullResult.formattedDistance := formattedDistance |}.

Definition hasId (playerId : Z) (p : Player.t) : bool :=
  Player.id p =? playerId.

Definition setBullWinner (mgr : t) (playerId : Z) (now : Z)
    : result (t * Match.t) :=
  m ← orThrow (match_ mgr) NoMatch;
  if negb (bool_decide (Match.state m = bullshot)) then Err InvalidTransition
  else
    playerIndex ← orThrow (JS.findIndex (hasId playerId) (Match.players m))
                    PlayerNotFound;
    let m := Match.setLegStarters m (JS.assign (Match.legStarters m) 0 playerId) in
    let m := Match.setPlayers m
               ((λ p, Player.setIsActive p (hasId playerId p)) <$> Match.players m) in
    let m := Match.setActivePlayerIndex m playerIndex in
    let m := saveMatchState (Match.setState m active) now in
    Ok (setMatch mgr m, m).

Definition getPlayerLegWins (m : Match.t) (playerId : Z) : Z :=
  match StatsTracker.players (Match.stats m) !! playerId with
  | Some playerStats => StatsTracker.legsWon playerStats
  | None => 0
  end.

(** [players[i]] mutated in place by [f]. *)
Definition updatePlayer (m : Match.t) (i : nat) (f : Player.t → Player.t)
    : Match.t :=
  Match.setPlayers m (alter f i (Match.players m)).

(** [stats.players.get(id)] replaced by [f] of it when present. *)
Definition updatePlayerStats (m : Match.t) (playerId : Z)
    (f : StatsTracker.PlayerStats → StatsTracker.PlayerStats) : Match.t :=
  match StatsTracker.players (Match.stats m) !! playerId with
  | Some playerStats =>
      Match.setStats m
        (StatsTracker.setPlayers (Match.stats m)
           (<[playerId := f playerStats]> (StatsTracker.players (Match.stats m))))
  | None => m
  end.

Definition turnScore (currentTurn : list Throw.t) : Z :=
  foldl (λ sum th, sum + Throw.score th) 0 currentTurn.

(** The end of a turn for the player who threw: the throws of the
    turn go to the history, the score reached becomes the score the
    next turn starts from. *)
Definition commitTurn (p : Player.t) : Player.t :=
  let p := Player.setHistory p (Player.history p ++ Player.currentTurn p) in
  let p := Player.setCurrentTurn p [] in
  let p := Player.setOriginalScore p (Player.score p) in
  Player.setIsActive p false.

Definition moveToNextPlayer (m : Match.t) (now : Z) : result Match.t :=
  currentPlayer ← orThrow (Match.players m !! Match.activePlayerIndex m) TypeError;
  let m := updatePlayerStats m (Player.id currentPlayer)
             (λ playerStats,
                StatsTracker.updatePlayerTurn playerStats
                  (turnScore (Player.currentTurn currentPlayer))) in
  let m := updatePlayer m (Match.activePlayerIndex m) commitTurn in
  let m := Match.setActivePlayerIndex m
             ((Match.activePlayerIndex m + 1) mod length (Match.players m))%nat in
  let m := if Nat.eqb (Match.activePlayerIndex m) 0
           then Match.setRound m (Match.round m + 1) else m in
  let m := updatePlayer m (Match.activePlayerIndex m)
             (λ p, Player.setIsActive p true) in
  Ok (saveMatchState m now).

Definition resetForLeg (startingScore : Z) (nextStarterId : Z) (p : Player.t)
    : Player.t :=
  let p := Player.setScore p startingScore in
  let p := Player.setOriginalScore p startingScore in
  let p := Player.setIsActive p (hasId nextStarterId p) in
  let p := Player.setIsWinner p false in
  let p := Player.setCurrentTurn p [] in
  Player.setDartsThrown p 0.

Definition setupNextLeg (m : Match.t) (now : Z) : result Match.t :=
  let m := Match.setCurrentLeg m (Match.currentLeg m + 1) in
  let m := Match.setStats m
             (StatsTracker.nextLeg (Match.stats m) (Match.currentLeg m)) in
  let lastStarter := mjoin (JS.index (Match.legStarters m) (Match.currentLeg m - 2)) in
  let lastStarterIndex :=
    JS.findIndex (λ p, match lastStarter with
                       | Some id => hasId id p
                       | None => false
                       end) (Match.players m) in
  let nextStarterIndex :=
    (match lastStarterIndex with
     | Some i => (i + 1) mod length (Match.players m)
     | None => 0 mod length (Match.players m)
     end)%nat in
  nextStarter ← orThrow (Match.players m !! nextStarterIndex) TypeError;
  let nextStarterId := Player.id nextStarter in
  let m := Match.setLegStarters m
             (JS.assign (Match.legStarters m) (Match.currentLeg m - 1) nextStarterId) in
  let m := Match.setPlayers m
             (resetForLeg (startingScore (Match.settings m)) nextStarterId
                <$> Match.players m) in
  let m := Match.setActivePlayerIndex m nextStarterIndex in
  let m := Match.setRound m 1 in
  Ok (saveMatchState m now).

(** [player.currentTurn.push(throwData); player.dartsThrown++] *)
Definition addThrow (throwData : Throw.t) (p : Player.t) : Player.t :=
  let p := Player.setCurrentTurn p (Player.currentTurn p ++ [throwData]) in
  Player.setDartsThrown p (Player.dartsThrown p + 1).

(** [processThrow], lines 369-406: the score, the leg and the busts.
    [player] is the thrower as found before the throw was added.  Returns
    the match with [bust], [gameShot], [legWon] and [matchWon]. *)
Definition applyValidation (m : Match.t) (playerIndex : nat) (playerId : Z)
    (player : Player.t) (validationResult : Validator.ValidationResult) (now : Z)
    : result (Match.t * bool * bool * bool * bool) :=
  if Validator.valid validationResult && negb (Validator.bust validationResult) then
    let m := updatePlayer m playerIndex (λ p,
               Player.setScore p
                 (default (Player.score p) (Validator.newScore validationResult))) in
    if Validator.gameShot validationResult then
      let m := updatePlayerStats m playerId (λ playerStats,
                 StatsTracker.updateLegWin playerStats (Player.dartsThrown player + 1)) in
      let m := updatePlayer m playerIndex (λ p, Player.setIsWinner p true) in
      let playerLegWins := getPlayerLegWins m playerId in
      if Match.legsToWin m <=? playerLegWins then
        Ok (Match.setState m completed, false, true, true, true)
      else
        m ← setupNextLeg m now;
        Ok (m, false, true, true, false)
    else Ok (m, false, false, false, false)
  else if Validator.bust validationResult then
    let m := updatePlayer m playerIndex
               (λ p, Player.setScore p (Player.originalScore p)) in
    let m := updatePlayerStats m playerId StatsTracker.addBust in
    Ok (m, true, false, false, false)
  else Ok (m, false, false, false, false).

(** [processThrow], lines 408-422: the end of the turn, or a checkout
    suggestion.  [dartsInTurn] counts the darts before this one. *)
Definition endTurnOrSuggest (m : Match.t) (playerIndex : nat) (dartsInTurn : Z)
    (legWon : bool) (now : Z) : result (Match.t * option (list string)) :=
  if (dartsInTurn =? 2) || legWon then
    if negb legWon then
      m ← moveToNextPlayer m now;
      Ok (m, None)
    else Ok (m, None)
  else
    player ← orThrow (Match.players m !! playerIndex) TypeError;
    if checkoutSuggestions (Match.settings m)
       && StatsTracker.isCheckoutPosition (Player.score player) then
      Ok (m, Validator.getCheckoutSuggestion (Player.score player)
               (3 - (dartsInTurn + 1)))
    else Ok (m, None).

(** [now] stands for both [Date.now()] (the temporary throw id) and
    [new Date()]. *)
Definition processThrow (mgr : t) (playerId : Z) (segment : string) (score : Z)
    (coordinates : option (Z * Z)) (now : Z) : result (t * ThrowResults) :=
  m ← orThrow (match_ mgr) NoMatch;
  if negb (bool_decide (Match.state m = active)) then Err InvalidTransition
  else
    playerIndex ← orThrow (JS.findIndex (hasId playerId) (Match.players m))
                    PlayerNotFound;
    if negb (Nat.eqb playerIndex (Match.activePlayerIndex m)) then Err NotYourTurn
    else
      player ← orThrow (Match.players m !! playerIndex) TypeError;
      let dartsInTurn := Z.of_nat (length (Player.currentTurn player)) in
      if 3 <=? dartsInTurn then Err TurnComplete
      else
        let validationResult :=
          Validator.validateX01Throw (Player.score player) segment score
            dartsInTurn (Match.settings m) in
        let throwData := {|
          Throw.id := now;
          Throw.matchId := Match.id m;
          Throw.playerId := playerId;
          Throw.round := Match.round m;
          Throw.throwIndex := Some (dartsInTurn + 1);
          Throw.segment := segment;
          Throw.score := score;
          Throw.timestamp := now;
          Throw.coordinates := coordinates |} in
        let m := updatePlayer m playerIndex (addThrow throwData) in
        '(m, bust, gameShot, legWon, matchWon) ←
          applyValidation m playerIndex playerId player validationResult now;
        '(m, checkoutSuggestion) ←
          endTurnOrSuggest m playerIndex dartsInTurn legWon now;
        let m := saveMatchState m now in
        Ok (setMatch mgr m,
            {| throwData := throwData;
               validationResult := validationResult;
               bust := bust;
               gameShot := gameShot;
               legWon := legWon;
               matchWon := matchWon;
               checkoutSuggestion := checkoutSuggestion |}).

(** The [for] loop of [correctThrow]: the first player whose history
    holds the throw, with both indices. *)
Fixpoint findThrow (players : list Player.t) (throwId : Z) (i : nat)
    : option (nat * nat * Throw.t) :=
  match players with
  | [] => None
  | player :: rest =>
      match JS.findIndex (λ th, Throw.id th =? throwId) (Player.history player) with
      | Some index =>
          match Player.history player !! index with
          | Some th => Some (i, index, th)
          | None => findThrow rest throwId (S i)
          end
      | None => findThrow rest throwId (S i)
      end
  end.

(** The validator does not read its fourth argument, which is [NaN]
    here when the throw has no [throwIndex]. *)
Definition correctThrow (mgr : t) (throwId : Z) (segment : string) (score : Z)
    (now : Z) : result (t * ThrowResults) :=
  m ← orThrow (match_ mgr) NoMatch;
  '(playerIndex, throwIndex, throwData) ←
    orThrow (findThrow (Match.players m) throwId 0) ThrowNotFound;
  let scoreDifference := score - Throw.score throwData in
  let throwData := Throw.correct throwData segment score in
  player ← orThrow (Match.players m !! playerIndex) TypeError;
  let m := updatePlayer m playerIndex (λ p,
             let p := Player.setHistory p (<[throwIndex := throwData]> (Player.history p)) in
             Player.setScore p (Player.score p - scoreDifference)) in
  let validationResult :=
    Validator.validateX01Throw
      (Player.score player - scoreDifference + scoreDifference) segment score
      (default 0 (Throw.throwIndex throwData) - 1) (Match.settings m) in
  let m := saveMatchState m now in
  Ok (setMatch mgr m,
      {| throwData := throwData;
         validationResult := validationResult;
         bust := false;
         gameShot := false;
         legWon := false;
         matchWon := false;
         checkoutSuggestion := None |}).

Definition manualPlayerSwitch (mgr : t) (now : Z) : result t :=
  match match_ mgr with
  | None => Ok mgr
  | Some m =>
      m ← moveToNextPlayer m now;
      Ok (setMatch mgr m)
  end.

(** [winningPlayerId] is tested for truthiness: [0] counts as absent. *)
Definition endMatch (mgr : t) (winningPlayerId : option Z) (now : Z)
    : result (t * Match.t) :=
  m ← orThrow (match_ mgr) NoMatch;
  let m :=
    match winningPlayerId with
    | Some winningPlayerId =>
        if winningPlayerId =? 0 then m
        else
          match JS.findIndex (hasId winningPlayerId) (Match.players m) with
          | Some playerIndex =>
              updatePlayer m playerIndex (λ p, Player.setIsWinner p true)
          | None => m
          end
    | None => m
    end in
  let m := Match.setState m completed in
  let m := Match.setStats m (StatsTracker.setEndTime (Match.stats m) (Some now)) in
  let mgr := setAutosaveTimer mgr false in
  let m := saveMatchState m now in
  Ok (setMatch mgr m, m).

Definition getMatch (mgr : t) : option Match.t := match_ mgr.

(** One tick of the autosave timer: [saveMatchState(true)]. *)
Definition autosave (mgr : t) (now : Z) : t :=
  match match_ mgr with
  | Some m => if autosaveTimer mgr then setMatch mgr (Match.stamp m now true) else mgr
  | None => mgr
  end.

(** *** Sequences of calls *)

Inductive Call :=
  | CreateMatch (boardId : Z) (players : list PlayerModel.t) (mode : string)
      (legsToWin : Z) (settings : PartialSettings) (insertedId : option Z)
  | StartMatch
  | StartWarmup
  | EndWarmup
  | SetBullWinner (playerId : Z)
  | ProcessThrow (playerId : Z) (segment : string) (score : Z)
      (coordinates : option (Z * Z))
  | CorrectThrow (throwId : Z) (segment : string) (score : Z)
  | ManualPlayerSwitch
  | EndMatch (winningPlayerId : option Z)
  | Autosave.

(** The manager after a call; a call that throws leaves it as it was. *)
Definition after {A} (mgr : t) (r : result (t * A)) : t :=
  match r with
  | Ok (mgr', _) => mgr'
  | Err _ => mgr
  end.

Definition call (mgr : t) (c : Call) (now : Z) : t :=
  match c with
  | CreateMatch boardId players mode legsToWin settings insertedId =>
      after mgr (createMatch mgr boardId players mode legsToWin settings now insertedId)
  | StartMatch => after mgr (startMatch mgr now)
  | StartWarmup => after mgr (startWarmup mgr now)
  | EndWarmup => after mgr (endWarmup mgr now)
  | SetBullWinner playerId => after mgr (setBullWinner mgr playerId now)
  | ProcessThrow playerId segment score coordinates =>
      after mgr (processThrow mgr playerId segment score coordinates now)
  | CorrectThrow throwId segment score =>
      after mgr (correctThrow mgr throwId segment score now)
  | ManualPlayerSwitch =>
      match manualPlayerSwitch mgr now with
      | Ok mgr' => mgr'
      | Err _ => mgr
      end
  | EndMatch winningPlayerId => after mgr (endMatch mgr winningPlayerId now)
  | Autosave => autosave mgr now
  end.

(** The managers that a sequence of calls can produce from one that
    has no match loaded.  Nothing is asked of [this_settings] at the
    start: it is [None] after [constructor], where [createMatch]
    throws, and whatever the caller has put on the object
    otherwise. *)
Inductive reachable : t → Prop :=
  | reachable_new mgr :
      match_ mgr = None → reachable mgr
  | reachable_call mgr c now :
      reachable mgr → reachable (call mgr c now).

End MatchManager.

(** ** matchManager.ts: saving and loading *)

Module Persistence.

Import Database.

(** [JSON.stringify(this.match.settings)] *)
Definition stringifySettings (settings : ValidatorSettingsOptions) : SettingsJson.t :=
  {| SettingsJson.doubleIn := Some (Validator.doubleIn settings);
     SettingsJson.doubleOut := Some (Validator.doubleOut settings);
     SettingsJson.masterOut := Some (Validator.masterOut settings);
     SettingsJson.startingScore := Some (startingScore settings);
     SettingsJson.checkoutSuggestions := Some (checkoutSuggestions settings);
     SettingsJson.legsToWin := None |}.

(** [saveMatchToDb], on a manager that has both a match and a
    database: one row in [matches], one in [match_players] per player,
    one in [leg_starters] per leg.  Returns the new match row id. *)
Definition saveMatchToDb (m : Match.t) (db : Database.t) : Database.t * Z :=
  let matchId := lastID MatchRow.id (matches db) in
  let row := {|
    MatchRow.id := matchId;
    MatchRow.board_id := Match.boardId m;
    MatchRow.mode := Match.mode m;
    MatchRow.legs_to_win := Match.legsToWin m;
    MatchRow.current_leg := Match.currentLeg m;
    MatchRow.active_player_index := Z.of_nat (Match.activePlayerIndex m);
    MatchRow.state := Match.state m;
    MatchRow.settings := Some (stringifySettings (Match.settings m));
    MatchRow.scores := None;
    MatchRow.timestamp := Match.timestamp m;
    MatchRow.is_autosaved := if Match.isAutosaved m then 1 else 0 |} in
  let playerRows :=
    (λ player, {|
       MatchPlayerRow.match_id := matchId;
       MatchPlayerRow.player_id := Player.id player;
       MatchPlayerRow.position := Player.position player;
       MatchPlayerRow.original_score := Player.originalScore player |})
    <$> Match.players m in
  let starterRows :=
    imap (λ i starter, {|
       LegStarterRow.match_id := matchId;
       LegStarterRow.leg_number := Z.of_nat i + 1;
       LegStarterRow.player_id := starter |})
      (Match.legStarters m) in
  ({| matches := matches db ++ [row];
      match_players := match_players db ++ playerRows;
      players := players db;
      leg_starters := leg_starters db ++ starterRows;
      throws := throws db |},
   matchId).

(** [saveThrowToDb]: [leg], [throwOrder] and [isValid] are not set on
    the throw that [processThrow] builds. *)
Definition saveThrowToDb (m : Match.t) (throwData : Throw.t) (db : Database.t)
    : Database.t * Z :=
  let id := lastID ThrowRow.id (throws db) in
  let row := {|
    ThrowRow.id := id;
    ThrowRow.match_id := Match.id m;
    ThrowRow.player_id := Throw.playerId throwData;
    ThrowRow.leg := None;
    ThrowRow.round := Throw.round throwData;
    ThrowRow.throw_order := 0;
    ThrowRow.throw_number := None;
    ThrowRow.segment := Throw.segment throwData;
    ThrowRow.score := Throw.score throwData;
    ThrowRow.is_valid := 0;
    ThrowRow.coordinates := Throw.coordinates throwData;
    ThrowRow.timestamp := Throw.timestamp throwData |} in
  ({| matches := matches db;
      match_players := match_players db;
      players := players db;
      leg_starters := leg_starters db;
      throws := throws db ++ [row] |},
   id).

(** [updateThrowInDb]: the rows with the id of the throw get its
    segment and score.  No throw the manager builds or loads has an
    [isValid] property, so [is_valid] is set to 0. *)
Definition updateThrowInDb (throwData : Throw.t) (db : Database.t) : Database.t :=
  {| matches := matches db;
     match_players := match_players db;
     players := players db;
     leg_starters := leg_starters db;
     throws :=
       (λ row,
          if ThrowRow.id row =? Throw.id throwData then
            {| ThrowRow.id := ThrowRow.id row;
               ThrowRow.match_id := ThrowRow.match_id row;
               ThrowRow.player_id := ThrowRow.player_id row;
               ThrowRow.leg := ThrowRow.leg row;
               ThrowRow.round := ThrowRow.round row;
               ThrowRow.throw_order := ThrowRow.throw_order row;
               ThrowRow.throw_number := ThrowRow.throw_number row;
               ThrowRow.segment := Throw.segment throwData;
               ThrowRow.score := Throw.score throwData;
               ThrowRow.is_valid := 0;
               ThrowRow.coordinates := ThrowRow.coordinates row;
               ThrowRow.timestamp := ThrowRow.timestamp row |}
          else row) <$> throws db |}.

Definition loadPlayer (settings : SettingsJson.t) (scores : ScoresJson.t)
    (mp : MatchPlayerRow.t * PlayerRow.t) : Player.t :=
  let playerScore :=
    players ← ScoresJson.players scores;
    head (List.filter (λ p, ScoresJson.id p =? MatchPlayerRow.player_id mp.1) players) in
  let score :=
    JS.or (playerScore ≫= ScoresJson.score)
      (JS.or (SettingsJson.startingScore settings) 501) in
  {| Player.id := MatchPlayerRow.player_id mp.1;
     Player.name := PlayerRow.name mp.2;
     Player.nickname := PlayerRow.nickname mp.2;
     Player.avatar := PlayerRow.avatar mp.2;
     Player.position := MatchPlayerRow.position mp.1;
     Player.score := score;
     Player.isActive := default false (playerScore ≫= ScoresJson.isActive);
     Player.isWinner := default false (playerScore ≫= ScoresJson.isWinner);
     Player.history := [];
     Player.currentTurn := [];
     Player.originalScore := score;
     Player.dartsThrown := 0;
     Player.legsWon := None;
     Player.stats := None |}.

(** The body of [throws.forEach]: the throw goes to the first player
    with its [player_id]. *)
Definition loadThrow (players : list Player.t) (row : ThrowRow.t) : list Player.t :=
  match JS.findIndex (MatchManager.hasId (ThrowRow.player_id row)) players with
  | Some i =>
      let throwData := {|
        Throw.id := ThrowRow.id row;
        Throw.matchId := ThrowRow.match_id row;
        Throw.playerId := ThrowRow.player_id row;
        Throw.round := ThrowRow.round row;
        Throw.throwIndex := ThrowRow.throw_number row;
        Throw.segment := ThrowRow.segment row;
        Throw.score := ThrowRow.score row;
        Throw.timestamp := ThrowRow.timestamp row;
        Throw.coordinates := None |} in
      alter (λ p,
               let p := Player.setHistory p (Player.history p ++ [throwData]) in
               Player.setDartsThrown p (Player.dartsThrown p + 1)) i players
  | None => players
  end.

(** The object that [loadMatch] assigns to [this.match], with the
    [-1] of an active index that [findIndex] has not found already
    replaced by 0, as the next statement of the source does. *)
Definition storedMatch (matchId : Z) (row : MatchRow.t) (settings : SettingsJson.t)
    (scores : ScoresJson.t) (players : list Player.t)
    (legStarters : list (option Z)) (activePlayerIndex : option nat) (now : Z)
    : Match.t :=
  let legsToWin := JS.or (SettingsJson.legsToWin settings) 3 in
  {| Match.id := matchId;
     Match.boardId := MatchRow.board_id row;
     Match.players := players;
     Match.legsToWin := legsToWin;
     Match.currentLeg := JS.or (ScoresJson.currentLeg scores) 1;
     Match.activePlayerIndex := default 0%nat activePlayerIndex;
     Match.mode := MatchRow.mode row;
     Match.state := MatchRow.state row;
     Match.settings := {|
       options := {|
         Validator.doubleIn := default false (SettingsJson.doubleIn settings);
         Validator.doubleOut := default true (SettingsJson.doubleOut settings);
         Validator.masterOut := default false (SettingsJson.masterOut settings) |};
       startingScore := JS.or (SettingsJson.startingScore settings) 501;
       checkoutSuggestions :=
         default true (SettingsJson.checkoutSuggestions settings) |};
     Match.stats :=
       match ScoresJson.stats scores with
       | Some serialized => StatsTracker.deserializeMatchStats serialized
       | None =>
           StatsTracker.initMatchStats (Player.id <$> players) legsToWin now
       end;
     Match.legStarters := legStarters;
     Match.round := JS.or (ScoresJson.round scores) 1;
     Match.timestamp := now;
     Match.isAutosaved := false |}.

(** [loadMatch]: what the call returns, or the error it throws.  It does
    not look at the match in memory: one in progress is replaced.  The
    reads are those of a driver whose [get] and [all] resolve to the row
    and to the rows.  The manager that a call that throws leaves behind is
    [afterLoadMatch]. *)
Definition loadMatch (mgr : MatchManager.t) (db : Database.t) (matchId : Z)
    (now : Z) : result (MatchManager.t * Match.t) :=
  if negb (MatchManager.db mgr) then Err DatabaseNotAvailable
  else
    row ← orThrow (selectMatch db matchId) MatchNotFound;
    let matchPlayers := selectMatchPlayers db matchId in
    let throws := selectThrows db matchId in
    let settings := default SettingsJson.empty (MatchRow.settings row) in
    let scores := default ScoresJson.empty (MatchRow.scores row) in
    let players := loadPlayer settings scores <$> matchPlayers in
    let players := foldl loadThrow players throws in
    legStarters ←
      match ScoresJson.legStarters scores with
      | Some legStarters => Ok legStarters
      | None =>
          first ← orThrow (head players) TypeError;
          Ok [Some (Player.id first)]
      end;
    let activePlayerIndex := JS.findIndex Player.isActive players in
    let m :=
      storedMatch matchId row settings scores players legStarters
        activePlayerIndex now in
    m ←
      match activePlayerIndex with
      | Some _ => Ok m
      | None =>
          _ ← orThrow (head players) TypeError;
          Ok (MatchManager.updatePlayer m 0 (λ p, Player.setIsActive p true))
      end;
    let mgr := MatchManager.setMatch mgr m in
    let mgr :=
      if bool_decide (Match.state m = active)
      then MatchManager.setAutosaveTimer mgr true else mgr in
    Ok (mgr, m).

(** The manager after a call of [loadMatch].  A call that throws has
    not touched the manager, with one exception: when the stored scores
    name leg starters and the match has no player rows, [this.match] is
    assigned, and its active index set to 0, before
    [this.match.players[0].isActive = true] throws; the manager is left
    with a match without players, and no timer is started. *)
Definition afterLoadMatch (mgr : MatchManager.t) (db : Database.t) (matchId : Z)
    (now : Z) : MatchManager.t :=
  match loadMatch mgr db matchId now with
  | Ok (mgr', _) => mgr'
  | Err _ =>
      if MatchManager.db mgr then
        match selectMatch db matchId with
        | Some row =>
            let settings := default SettingsJson.empty (MatchRow.settings row) in
            let scores := default ScoresJson.empty (MatchRow.scores row) in
            let players :=
              foldl loadThrow
                (loadPlayer settings scores <$> selectMatchPlayers db matchId)
                (selectThrows db matchId) in
            match ScoresJson.legStarters scores, players with
            | Some legStarters, [] =>
                MatchManager.setMatch mgr
                  (storedMatch matchId row settings scores [] legStarters None now)
            | _, _ => mgr
            end
        | None => mgr
        end
      else mgr
  end.

End Persistence.

(** * Properties of the validator *)

Module ValidatorSpec.

Import Validator.

(** The double-in rule of [validateX01Throw]: it fires before any
    score is computed. *)
Definition mustStartWithDouble (options : ValidatorOptions) (currentScore : Z)
    (segment : string) : bool :=
  doubleIn options && (currentScore =? 501) && negb (isDouble segment).

Lemma validate_zero_effect currentScore segment throwScore dartsThrown options :
  0 ≤ throwScore →
  mustStartWithDouble options currentScore segment = true →
  validateX01Throw currentScore segment throwScore dartsThrown options
  = {| valid := true; bust := false; gameShot := false;
       reason := Some "Must start with a double";
       newScore := Some currentScore |}.
Proof.
  unfold mustStartWithDouble, validateX01Throw. intros Hts ->.
  destruct (Z.ltb_spec throwScore 0); [lia | reflexivity].
Qed.

Lemma validate_below_zero currentScore segment throwScore dartsThrown options :
  0 ≤ throwScore →
  mustStartWithDouble options currentScore segment = false →
  currentScore - throwScore < 0 →
  validateX01Throw currentScore segment throwScore dartsThrown options
  = {| valid := true; bust := true; gameShot := false;
       reason := Some "Bust: score below 0"; newScore := None |}.
Proof.
  unfold mustStartWithDouble, validateX01Throw. intros Hts -> Hneg.
  destruct (Z.ltb_spec throwScore 0); [lia |].
  destruct (Z.ltb_spec (currentScore - throwScore) 0); [reflexivity | lia].
Qed.

(** What C1 says, word for word: the three outcomes under
    [doubleOut], whatever the other options are. *)
Definition double_out_as_claimed : Prop :=
  ∀ currentScore segment throwScore dartsThrown options,
    0 ≤ throwScore →
    doubleOut options = true →
    let r := validateX01Throw currentScore segment throwScore dartsThrown options in
    (currentScore - throwScore = 1 → bust r = true)
    ∧ (currentScore - throwScore = 0 → isDouble segment = false → bust r = true)
    ∧ (currentScore - throwScore = 0 → isDouble segment = true → gameShot r = true).

Definition doubleInOut : ValidatorOptions :=
  {| doubleIn := true; doubleOut := true; masterOut := false |}.

(** C1, counterexample: with [doubleIn] also set, a single that would
    take a player from 501 to exactly 1 is neither scored nor a bust. *)
Lemma double_in_shadows_double_out : ¬ double_out_as_claimed.
Proof.
  intros claim.
  destruct (claim 501 "S20" 500 0 doubleInOut) as [Hone _]; [lia | reflexivity |].
  specialize (Hone eq_refl). discriminate Hone.
Qed.

(** C1, amended: for a throw with a non-negative score validated under
    [doubleOut] to which the double-in rule does not apply (doubleIn
    unset, or the current score is not 501, or the segment is a double),
    reaching exactly 1 is a bust whatever the segment, reaching 0 on a
    non-double is a bust, and reaching 0 on a double - ['DBULL'], the
    bullseye, is one - is a game shot. *)
Theorem double_out_finish currentScore segment throwScore dartsThrown options :
  0 ≤ throwScore →
  doubleOut options = true →
  mustStartWithDouble options currentScore segment = false →
  let r := validateX01Throw currentScore segment throwScore dartsThrown options in
  (currentScore - throwScore = 1 → bust r = true ∧ gameShot r = false)
  ∧ (currentScore - throwScore = 0 → isDouble segment = false →
     bust r = true ∧ gameShot r = false)
  ∧ (currentScore - throwScore = 0 → isDouble segment = true →
     bust r = false ∧ gameShot r = true ∧ newScore r = Some 0)
  ∧ isDouble "DBULL" = true.
Proof.
  intros Hscore Hout Hrule. cbv zeta. unfold validateX01Throw.
  unfold mustStartWithDouble in Hrule. rewrite Hrule, Hout.
  destruct (Z.ltb_spec throwScore 0) as [Hneg | _]; [lia |].
  split; [| split; [| split; [| reflexivity]]].
  - intros ->. split; reflexivity.
  - intros -> Hsingle. cbn. rewrite Hsingle. split; reflexivity.
  - intros -> Hdouble. cbn. unfold isMaster. rewrite Hdouble. cbn.
    rewrite andb_false_r. repeat split.
Qed.

Lemma double_out_finish_witness :
  let r := validateX01Throw 40 "D20" 40 1 doubleInOut in
  (40 - 40 = 1 → bust r = true ∧ gameShot r = false)
  ∧ (40 - 40 = 0 → isDouble "D20" = false → bust r = true ∧ gameShot r = false)
  ∧ (40 - 40 = 0 → isDouble "D20" = true →
     bust r = false ∧ gameShot r = true ∧ newScore r = Some 0)
  ∧ isDouble "DBULL" = true.
Proof.
  apply (double_out_finish 40 "D20" 40 1 doubleInOut); [lia | reflexivity | reflexivity].
Defined.

(** C7: the double-in rule compares the score with the constant 501,
    not with the starting score of the match.  At 501 a single is
    without effect; at 301, 701 and 901 the same single is scored. *)
Theorem double_in_only_at_501 :
  validateX01Throw 501 "S20" 20 0 doubleInOut
  = {| valid := true; bust := false; gameShot := false;
       reason := Some "Must start with a double"; newScore := Some 501 |}
  ∧ Forall (λ start,
      validateX01Throw start "S20" 20 0 doubleInOut
      = {| valid := true; bust := false; gameShot := false;
           reason := None; newScore := Some (start - 20) |})
      [301; 701; 901].
Proof.
  split; [reflexivity |]. repeat constructor.
Qed.

End ValidatorSpec.

(** * Properties of the checkout suggestions *)

Module CheckoutSpec.

Import Validator.

(** The points a suggested label stands for: [S], [D], [T] and a
    number, or the bullseye. *)
Definition segmentPoints (label : string) : option Z :=
  if String.eqb label "BULL" then Some 50
  else
    match label with
    | String ring number =>
        n ← JS.parseInt number;
        if Ascii.eqb ring "S"%char then Some n
        else if Ascii.eqb ring "D"%char then Some (2 * n)
        else if Ascii.eqb ring "T"%char then Some (3 * n)
        else None
    | EmptyString => None
    end.

Definition pathPoints (path : list string) : option Z :=
  foldr (λ label total, n ← segmentPoints label; t ← total; Some (n + t))
    (Some 0) path.

Definition endsOnDouble (path : list string) : bool :=
  match last path with
  | Some label => JS.startsWith label "D" || String.eqb label "BULL"
  | None => false
  end.

(** A finishing path for [score] with [dartsLeft] darts in hand. *)
Definition isFinish (score dartsLeft : Z) (path : list string) : bool :=
  bool_decide (pathPoints path = Some score)
  && (Z.of_nat (length path) <=? dartsLeft)
  && endsOnDouble path.

Lemma suggestion_guard self score dartsLeft :
  (170 <? score) || (score <=? 0) || isBogey score = true →
  getCheckoutSuggestion_body self score dartsLeft = Some None.
Proof. intros H. unfold getCheckoutSuggestion_body. rewrite H. reflexivity. Qed.

Lemma suggestion_above_170 score dartsLeft :
  170 < score → getCheckoutSuggestion score dartsLeft = None.
Proof.
  intros H. unfold getCheckoutSuggestion. simpl.
  rewrite suggestion_guard; [reflexivity |].
  destruct (Z.ltb_spec 170 score); [reflexivity | lia].
Qed.

Lemma suggestion_not_positive score dartsLeft :
  score ≤ 0 → getCheckoutSuggestion score dartsLeft = None.
Proof.
  intros H. unfold getCheckoutSuggestion. simpl.
  rewrite suggestion_guard; [reflexivity |].
  destruct (Z.leb_spec score 0); [| lia].
  rewrite orb_true_r. reflexivity.
Qed.

Lemma rem_pred_of_odd score : JS.rem score 2 = 1 → JS.rem (score - 1) 2 = 0.
Proof.
  unfold JS.rem. intros Hodd.
  pose proof (Z.quot_rem' score 2) as Hq. rewrite Hodd in Hq.
  replace (score - 1) with (score ÷ 2 * 2) by lia.
  apply Z.rem_mul. lia.
Qed.

(** On an even score the body returns without calling itself. *)
Lemma body_even self score dartsLeft :
  JS.rem score 2 = 0 →
  ∃ r, ∀ self', getCheckoutSuggestion_body self' score dartsLeft = Some r
       ∧ getCheckoutSuggestion_body self score dartsLeft = Some r.
Proof.
  intros Heven. unfold getCheckoutSuggestion_body. rewrite Heven.
  change (0 =? 1) with false. cbv iota.
  repeat (case_match; try (eexists; intros; split; reflexivity)).
Qed.

(** The recursion never goes deeper than two calls: a third one is
    never made, so more calls in hand change nothing and the result
    is always there. *)
Lemma getCheckoutSuggestion_calls_enough score dartsLeft calls :
  getCheckoutSuggestion_calls (S (S calls)) score dartsLeft
  = Some (getCheckoutSuggestion score dartsLeft).
Proof.
  unfold getCheckoutSuggestion.
  change (getCheckoutSuggestion_calls 2)
    with (getCheckoutSuggestion_body (getCheckoutSuggestion_calls 1)).
  change (getCheckoutSuggestion_calls (S (S calls)))
    with (getCheckoutSuggestion_body (getCheckoutSuggestion_calls (S calls))).
  unfold getCheckoutSuggestion_body.
  destruct (JS.rem score 2 =? 1) eqn:Hodd.
  - apply Z.eqb_eq, rem_pred_of_odd in Hodd.
    change (getCheckoutSuggestion_calls 1)
      with (getCheckoutSuggestion_body (getCheckoutSuggestion_calls 0)).
    change (getCheckoutSuggestion_calls (S calls))
      with (getCheckoutSuggestion_body (getCheckoutSuggestion_calls calls)).
    destruct (body_even (getCheckoutSuggestion_calls 0) _ (dartsLeft - 1) Hodd)
      as [rest Hrest].
    rewrite (proj1 (Hrest (getCheckoutSuggestion_calls calls))), (proj2 (Hrest (λ _ _, None))).
    repeat (case_match; try reflexivity).
  - repeat (case_match; try reflexivity).
Qed.

(** C8: what [getCheckoutSuggestion] returns.  The bogey scores give
    [null] whatever the darts left, 170 with three darts and 40 with one
    give the two finishes named; but the last branch of the function
    returns paths that finish nothing: a lone single for 1, two darts
    for 3 with one dart in hand, and one point of 99. *)
Theorem checkout_suggestions :
  (∀ dartsLeft,
     Forall (λ bogey, getCheckoutSuggestion bogey dartsLeft = None)
       [169; 168; 166; 165; 163; 162; 159])
  ∧ getCheckoutSuggestion 170 3 = Some ["T20"; "T20"; "BULL"]
  ∧ isFinish 170 3 ["T20"; "T20"; "BULL"] = true
  ∧ getCheckoutSuggestion 40 1 = Some ["D20"]
  ∧ isFinish 40 1 ["D20"] = true
  ∧ getCheckoutSuggestion 1 1 = Some ["S1"]
  ∧ endsOnDouble ["S1"] = false
  ∧ getCheckoutSuggestion 3 1 = Some ["S1"; "D1"]
  ∧ isFinish 3 1 ["S1"; "D1"] = false
  ∧ getCheckoutSuggestion 99 2 = Some ["S1"]
  ∧ pathPoints ["S1"] = Some 1.
Proof.
  split; [intros dartsLeft; repeat constructor |].
  repeat split; vm_compute; reflexivity.
Qed.

End CheckoutSpec.

(** * Properties of the match manager *)

Module MatchManagerSpec.

Import MatchManager.


Definition ids (m : Match.t) : list Z := Player.id <$> Match.players m.

(** ** Data used in the examples *)

Definition standard : ValidatorSettingsOptions :=
  {| options := {| Validator.doubleIn := false;
                   Validator.doubleOut := true;
                   Validator.masterOut := false |};
     startingScore := 501;
     checkoutSuggestions := true |}.

Definition unset : PartialSettings :=
  {| ps_doubleIn := None; ps_doubleOut := None; ps_masterOut := None;
     ps_startingScore := None; ps_checkoutSuggestions := None |}.

Definition contestant (id : Z) (name : string) : PlayerModel.t :=
  {| PlayerModel.id := id; PlayerModel.name := name;
     PlayerModel.nickname := None; PlayerModel.avatar := None;
     PlayerModel.stats := StatsAbsent |}.

Definition anna : PlayerModel.t := contestant 1 "Anna".
Definition bert : PlayerModel.t := contestant 2 "Bert".

(** A manager on which [this.settings] has been given a value. *)
Definition equipped : MatchManager.t :=
  {| match_ := None; this_settings := Some standard;
     db := false; autosaveTimer := false |}.

(** The manager after a list of calls, the clock standing at [now]. *)
Definition calls (mgr : MatchManager.t) (cs : list Call) (now : Z) : MatchManager.t :=
  foldl (λ mgr c, call mgr c now) mgr cs.

Lemma reachable_calls mgr cs now : reachable mgr → reachable (calls mgr cs now).
Proof.
  revert mgr. induction cs as [| c cs IH]; intros mgr Hmgr; [exact Hmgr |].
  apply IH. apply reachable_call. exact Hmgr.
Defined.

(** ** [createMatch] *)

Lemma initializePlayersFrom_spec mgr index playerModels players :
  initializePlayersFrom mgr index playerModels = Ok players →
  Player.id <$> players = PlayerModel.id <$> playerModels
  ∧ (∀ j p, players !! j = Some p →
       Player.isActive p = Nat.eqb (index + j) 0
       ∧ Player.score p = Player.originalScore p
       ∧ Player.position p = Z.of_nat (index + j) + 1
       ∧ ∃ s, this_settings mgr = Some s ∧ Player.score p = startingScore s).
Proof.
  revert index players.
  induction playerModels as [| model rest IH]; intros index players Hinit.
  - injection Hinit as <-. split; [reflexivity |]. intros j p Hj. discriminate Hj.
  - cbn [initializePlayersFrom] in Hinit. unfold initializePlayer in Hinit.
    destruct (this_settings mgr) as [s |] eqn:Hs; [| discriminate Hinit].
    cbn in Hinit.
    destruct (initializePlayersFrom mgr (S index) rest) as [ps | e] eqn:Hrest;
      [| discriminate Hinit].
    cbn in Hinit. injection Hinit as <-.
    destruct (IH _ _ Hrest) as [Hids Hps]. split.
    + cbn. f_equal. exact Hids.
    + intros [| j] p Hj.
      * injection Hj as <-. cbn. rewrite Nat.add_0_r. repeat split. eauto.
      * cbn in Hj. replace (index + S j)%nat with (S index + j)%nat by lia.
        apply Hps. exact Hj.
Qed.


Lemma initializePlayersFrom_undefined mgr index playerModels :
  this_settings mgr = None →
  playerModels ≠ [] →
  initializePlayersFrom mgr index playerModels = Err TypeError.
Proof.
  intros Hs Hne. destruct playerModels as [| model rest]; [contradiction |].
  cbn [initializePlayersFrom]. unfold initializePlayer. rewrite Hs. reflexivity.
Qed.

(** On a manager as its constructor leaves it, [createMatch] throws
    for every list of players: [this.settings] is [undefined] when
    [initializePlayers] reads it, and an empty list has no first
    player. *)
Lemma createMatch_after_constructor hasDb boardId players mode legsToWin
    settings now insertedId :
  createMatch (constructor hasDb) boardId players mode legsToWin settings
    now insertedId = Err TypeError.
Proof.
  unfold createMatch, initializePlayers. cbn.
  destruct players as [| model rest]; [reflexivity |].
  rewrite initializePlayersFrom_undefined; [reflexivity | reflexivity | discriminate].
Qed.

Lemma resolveStartingScore_supported mode settings :
  resolveStartingScore mode settings ∈ [301; 501; 701; 901].
Proof.
  unfold resolveStartingScore.
  destruct (String.eqb mode "x01"); [| set_solver].
  set (x01Value := match ps_startingScore settings with
                   | Some v => if v =? 0 then 501 else v
                   | None => 501
                   end).
  destruct (existsb (Z.eqb x01Value) [301; 501; 701; 901]) eqn:Hin; [| set_solver].
  cbn in Hin. repeat (apply orb_prop in Hin as [Hin | Hin]);
    try discriminate Hin; apply Z.eqb_eq in Hin as ->; set_solver.
Qed.



(** What a match returned by [createMatch] looks like. *)
Lemma createMatch_returned mgr boardId players mode legsToWin settings
    now insertedId mgr' m :
  createMatch mgr boardId players mode legsToWin settings now insertedId
  = Ok (mgr', m) →
  match_ mgr = None
  ∧ match_ mgr' = Some m
  ∧ Match.state m = pending
  ∧ Match.currentLeg m = 1
  ∧ Match.round m = 1
  ∧ Match.activePlayerIndex m = 0%nat
  ∧ startingScore (Match.settings m) = resolveStartingScore mode settings
  ∧ resolveStartingScore mode settings ∈ [301; 501; 701; 901]
  ∧ ids m = PlayerModel.id <$> players
  ∧ Forall (λ p, Player.score p = Player.originalScore p) (Match.players m)
  ∧ ∃ first rest,
      Match.players m = first :: rest
      ∧ Player.isActive first = true
      ∧ Forall (λ p, Player.isActive p = false) rest.
Proof.
  intros Hcreate. unfold createMatch in Hcreate.
  destruct (bool_decide (is_Some (match_ mgr))) eqn:Hloaded; [discriminate Hcreate |].
  apply bool_decide_eq_false in Hloaded.
  assert (Hnone : match_ mgr = None).
  { destruct (match_ mgr); [exfalso; apply Hloaded; eauto | reflexivity]. }
  unfold initializePlayers in Hcreate.
  destruct (initializePlayersFrom mgr 0 players) as [setupPlayers | e] eqn:Hinit;
    [| discriminate Hcreate].
  cbn in Hcreate.
  destruct setupPlayers as [| first rest]; [discriminate Hcreate |].
  cbn in Hcreate.
  destruct (initializePlayersFrom_spec _ _ _ _ Hinit) as [Hids Hplayers].
  assert (Hm : Match.players m = first :: rest
               ∧ match_ mgr' = Some m ∧ Match.state m = pending
               ∧ Match.currentLeg m = 1 ∧ Match.round m = 1
               ∧ Match.activePlayerIndex m = 0%nat
               ∧ startingScore (Match.settings m) = resolveStartingScore mode settings).
  { destruct (db mgr); [destruct insertedId |];
      injection Hcreate as <- <-; repeat split. }
  destruct Hm as (Hps & Hloaded' & Hstate & Hleg & Hround & Hactive & Hstart).
  repeat (split; [assumption |]).
  split; [apply resolveStartingScore_supported |].
  split; [unfold ids; rewrite Hps; exact Hids |].
  split.
  - rewrite Hps. apply Forall_lookup_2. intros j p Hj.
    apply (Hplayers j p Hj).
  - exists first, rest. split; [exact Hps |]. split.
    + apply (Hplayers 0%nat first eq_refl).
    + apply Forall_lookup_2. intros j p Hj.
      apply (Hplayers (S j) p Hj).
Qed.



(** ** In-place updates of a match *)

Lemma findIndex_Some {A} (pred : A → bool) (xs : list A) i :
  JS.findIndex pred xs = Some i →
  ∃ x, xs !! i = Some x ∧ pred x = true.
Proof.
  revert i. induction xs as [| y xs IH]; intros i Hfind; [discriminate Hfind |].
  cbn in Hfind. destruct (pred y) eqn:Hy.
  - injection Hfind as <-. eauto.
  - destruct (JS.findIndex pred xs) as [k |]; [| discriminate Hfind].
    injection Hfind as <-. apply (IH k eq_refl).
Qed.

Lemma findIndex_first {A} (pred : A → bool) (xs : list A) i j y :
  JS.findIndex pred xs = Some i →
  xs !! j = Some y → pred y = true → (i ≤ j)%nat.
Proof.
  revert i j. induction xs as [| x xs IH]; intros i j Hfind Hj Hy; [discriminate Hfind |].
  cbn in Hfind. destruct (pred x) eqn:Hx.
  - injection Hfind as <-. lia.
  - destruct (JS.findIndex pred xs) as [k |]; [| discriminate Hfind].
    injection Hfind as <-. destruct j as [| j].
    + injection Hj as ->. congruence.
    + specialize (IH k j eq_refl Hj Hy). lia.
Qed.

Lemma fmap_alter_same {A B} (g : A → B) (f : A → A) i (l : list A) :
  (∀ x, g (f x) = g x) → g <$> alter f i l = g <$> l.
Proof.
  intros Hgf. revert i. induction l as [| x l IH]; intros [| i]; cbn;
    [reflexivity | reflexivity | f_equal; apply Hgf | f_equal; apply IH].
Qed.

Lemma players_updatePlayerStats m playerId f :
  Match.players (updatePlayerStats m playerId f) = Match.players m.
Proof. unfold updatePlayerStats. case_match; reflexivity. Qed.

Lemma activePlayerIndex_updatePlayerStats m playerId f :
  Match.activePlayerIndex (updatePlayerStats m playerId f) = Match.activePlayerIndex m.
Proof. unfold updatePlayerStats. case_match; reflexivity. Qed.

Lemma round_updatePlayerStats m playerId f :
  Match.round (updatePlayerStats m playerId f) = Match.round m.
Proof. unfold updatePlayerStats. case_match; reflexivity. Qed.

Lemma settings_updatePlayerStats m playerId f :
  Match.settings (updatePlayerStats m playerId f) = Match.settings m.
Proof. unfold updatePlayerStats. case_match; reflexivity. Qed.

Lemma state_updatePlayerStats m playerId f :
  Match.state (updatePlayerStats m playerId f) = Match.state m.
Proof. unfold updatePlayerStats. case_match; reflexivity. Qed.

Lemma currentLeg_updatePlayerStats m playerId f :
  Match.currentLeg (updatePlayerStats m playerId f) = Match.currentLeg m.
Proof. unfold updatePlayerStats. case_match; reflexivity. Qed.

Lemma legsToWin_updatePlayerStats m playerId f :
  Match.legsToWin (updatePlayerStats m playerId f) = Match.legsToWin m.
Proof. unfold updatePlayerStats. case_match; reflexivity. Qed.

Lemma legStarters_updatePlayerStats m playerId f :
  Match.legStarters (updatePlayerStats m playerId f) = Match.legStarters m.
Proof. unfold updatePlayerStats. case_match; reflexivity. Qed.

(** The statistics of [playerId] after [updatePlayerStats]. *)
Lemma stats_updatePlayerStats m playerId f other :
  StatsTracker.players (Match.stats (updatePlayerStats m playerId f)) !! other
  = if decide (playerId = other)
    then f <$> StatsTracker.players (Match.stats m) !! other
    else StatsTracker.players (Match.stats m) !! other.
Proof.
  unfold updatePlayerStats.
  destruct (StatsTracker.players (Match.stats m) !! playerId) as [st |] eqn:Hst.
  - cbn. rewrite lookup_insert. case_decide as Heq; [| reflexivity].
    subst other. rewrite Hst. reflexivity.
  - case_decide as Heq; [| reflexivity]. subst other. rewrite Hst. reflexivity.
Qed.

Create Rewrite HintDb match_fields.
#[local] Hint Rewrite players_updatePlayerStats activePlayerIndex_updatePlayerStats
  round_updatePlayerStats settings_updatePlayerStats state_updatePlayerStats
  currentLeg_updatePlayerStats legsToWin_updatePlayerStats
  legStarters_updatePlayerStats : match_fields.

(** ** [moveToNextPlayer] *)

Definition nextIndex (m : Match.t) : nat :=
  ((Match.activePlayerIndex m + 1) mod length (Match.players m))%nat.

Lemma moveToNextPlayer_Ok m now p :
  Match.players m !! Match.activePlayerIndex m = Some p →
  ∃ m',
    moveToNextPlayer m now = Ok m'
    ∧ Match.players m'
      = alter (λ q, Player.setIsActive q true) (nextIndex m)
          (alter commitTurn (Match.activePlayerIndex m) (Match.players m))
    ∧ Match.activePlayerIndex m' = nextIndex m
    ∧ Match.stats m'
      = Match.stats (updatePlayerStats m (Player.id p) (λ playerStats,
          StatsTracker.updatePlayerTurn playerStats (turnScore (Player.currentTurn p))))
    ∧ Match.state m' = Match.state m
    ∧ Match.currentLeg m' = Match.currentLeg m
    ∧ Match.legsToWin m' = Match.legsToWin m.
Proof.
  intros Hp. unfold moveToNextPlayer. rewrite Hp. cbn [orThrow mbind result_bind].
  eexists. split; [reflexivity |].
  unfold nextIndex.
  repeat split; cbn; autorewrite with match_fields; cbn;
    rewrite ?length_alter; autorewrite with match_fields;
    try (case_match; cbn; autorewrite with match_fields; reflexivity).
Qed.

Lemma moveToNextPlayer_Err m now :
  Match.players m !! Match.activePlayerIndex m = None →
  moveToNextPlayer m now = Err TypeError.
Proof. intros Hp. unfold moveToNextPlayer. rewrite Hp. reflexivity. Qed.

(** ** [processThrow]: a throw below zero *)

(** The conditions under which [processThrow] goes on to validate the
    throw: a match in state [active], the thrower found and at the
    active index, fewer than three darts in the turn. *)
Record accepted (mgr : MatchManager.t) (m : Match.t) (playerId : Z)
    (player : Player.t) : Prop := {
  accepted_match : match_ mgr = Some m;
  accepted_state : Match.state m = active;
  accepted_turn :
    JS.findIndex (hasId playerId) (Match.players m) = Some (Match.activePlayerIndex m);
  accepted_player : Match.players m !! Match.activePlayerIndex m = Some player;
  accepted_darts : (length (Player.currentTurn player) < 3)%nat
}.

(** The throw record and the verdict of the validator for a throw of
    the player at the active index. *)
Definition throwOf (m : Match.t) (playerId : Z) (player : Player.t)
    (segment : string) (score : Z) (coordinates : option (Z * Z)) (now : Z)
    : Throw.t :=
  {| Throw.id := now;
     Throw.matchId := Match.id m;
     Throw.playerId := playerId;
     Throw.round := Match.round m;
     Throw.throwIndex := Some (Z.of_nat (length (Player.currentTurn player)) + 1);
     Throw.segment := segment;
     Throw.score := score;
     Throw.timestamp := now;
     Throw.coordinates := coordinates |}.

Definition verdict (m : Match.t) (player : Player.t) (segment : string) (score : Z)
    : Validator.ValidationResult :=
  Validator.validateX01Throw (Player.score player) segment score
    (Z.of_nat (length (Player.currentTurn player))) (Match.settings m).

(** Past its guards, [processThrow] is its two blocks and a save. *)
Lemma processThrow_accepted mgr m playerId player segment score coordinates now :
  accepted mgr m playerId player →
  processThrow mgr playerId segment score coordinates now
  = ('(m1, bust, gameShot, legWon, matchWon) ←
       applyValidation
         (updatePlayer m (Match.activePlayerIndex m)
            (addThrow (throwOf m playerId player segment score coordinates now)))
         (Match.activePlayerIndex m) playerId player
         (verdict m player segment score) now;
     '(m2, checkoutSuggestion) ←
       endTurnOrSuggest m1 (Match.activePlayerIndex m)
         (Z.of_nat (length (Player.currentTurn player))) legWon now;
     Ok (setMatch mgr (saveMatchState m2 now),
         {| throwData := throwOf m playerId player segment score coordinates now;
            validationResult := verdict m player segment score;
            bust := bust;
            gameShot := gameShot;
            legWon := legWon;
            matchWon := matchWon;
            checkoutSuggestion := checkoutSuggestion |})).
Proof.
  intros [Hm Hstate Hturn Hplayer Hdarts].
  unfold processThrow. rewrite Hm. cbn [orThrow mbind result_bind].
  rewrite Hstate, Hturn, bool_decide_eq_true_2 by reflexivity.
  cbn [orThrow mbind result_bind negb].
  rewrite Nat.eqb_refl, Hplayer. cbn [orThrow mbind result_bind negb].
  destruct (Z.leb_spec 3 (Z.of_nat (length (Player.currentTurn player)))); [lia |].
  reflexivity.
Qed.

(** [accepted] for a manager given by a list of calls: each field by
    evaluation. *)
Ltac accept_by_evaluation :=
  constructor;
  [ vm_compute; reflexivity
  | vm_compute; reflexivity
  | vm_compute; reflexivity
  | vm_compute; reflexivity
  | cbn; lia ].

(** What C2 says, word for word. *)
Definition bust_below_zero_as_claimed : Prop :=
  ∀ mgr m playerId player segment score coordinates now,
    accepted mgr m playerId player →
    Player.score player - score < 0 →
    ∃ mgr' r m' player',
      processThrow mgr playerId segment score coordinates now = Ok (mgr', r)
      ∧ bust r = true
      ∧ match_ mgr' = Some m'
      ∧ Match.players m' !! Match.activePlayerIndex m = Some player'
      ∧ Player.score player' = Player.originalScore player.

(** Anna, on 24 after two turns of 180 and the darts T20 and T19, with
    Bert on 498; legs are played first to three. *)
Definition beforeCheckout : MatchManager.t :=
  calls equipped
    [CreateMatch 1 [anna; bert] "x01" 3 unset None;
     StartWarmup; EndWarmup; SetBullWinner 1;
     ProcessThrow 1 "T20" 60 None; ProcessThrow 1 "T20" 60 None;
     ProcessThrow 1 "T20" 60 None;
     ProcessThrow 2 "S1" 1 None; ProcessThrow 2 "S1" 1 None;
     ProcessThrow 2 "S1" 1 None;
     ProcessThrow 1 "T20" 60 None; ProcessThrow 1 "T20" 60 None;
     ProcessThrow 1 "T20" 60 None;
     ProcessThrow 2 "S1" 1 None; ProcessThrow 2 "S1" 1 None;
     ProcessThrow 2 "S1" 1 None;
     ProcessThrow 1 "T20" 60 None; ProcessThrow 1 "T19" 57 None] 0.

Definition doubleInStart : PartialSettings :=
  {| ps_doubleIn := Some true; ps_doubleOut := None; ps_masterOut := None;
     ps_startingScore := None; ps_checkoutSuggestions := None |}.

(** A double-in match between Anna and Bert, Anna to throw first. *)
Definition doubleInGame : MatchManager.t :=
  calls equipped
    [CreateMatch 1 [anna; bert] "x01" 3 doubleInStart None;
     StartWarmup; EndWarmup; SetBullWinner 1] 0.

(** C2, counterexample: in a double-in match a single worth more than
    the 501 still standing is accepted without effect; it is not a bust. *)
Lemma unopened_leg_throw_is_no_bust : ¬ bust_below_zero_as_claimed.
Proof.
  intros claim.
  assert (∃ m player, accepted doubleInGame m 1 player ∧ Player.score player = 501)
    as (m & player & Haccepted & Hscore).
  { eexists _, _. split; [accept_by_evaluation | reflexivity]. }
  destruct (claim _ _ _ _ "S20" 502 None 0 Haccepted ltac:(lia))
    as (mgr' & r & _ & _ & Hcall & Hbust & _).
  vm_compute in Hcall. injection Hcall as _ <-. discriminate Hbust.
Qed.

(** C2, amended: when the active player, in state [active] and with
    fewer than three darts thrown in the turn, throws a non-negative
    score that takes their score below zero, and the double-in rule does
    not apply to the throw, the result is a bust and the player's score
    right after the call is the [originalScore] they had before it, the
    score at the start of the turn. *)
Theorem bust_below_zero mgr m playerId player segment score coordinates now :
  accepted mgr m playerId player →
  0 ≤ score →
  ValidatorSpec.mustStartWithDouble (Match.settings m) (Player.score player) segment
  = false →
  Player.score player - score < 0 →
  ∃ mgr' r m' player',
    processThrow mgr playerId segment score coordinates now = Ok (mgr', r)
    ∧ bust r = true
    ∧ match_ mgr' = Some m'
    ∧ Match.players m' !! Match.activePlayerIndex m = Some player'
    ∧ Player.score player' = Player.originalScore player.
Proof.
  intros Haccepted Hscore Hrule Hbelow.
  rewrite (processThrow_accepted _ _ _ _ _ _ _ _ Haccepted).
  destruct Haccepted as [Hm Hstate Hturn Hplayer Hdarts].
  unfold verdict.
  rewrite (ValidatorSpec.validate_below_zero _ _ _ _ _ Hscore Hrule Hbelow).
  unfold applyValidation, endTurnOrSuggest.
  cbn [Validator.valid Validator.bust Validator.gameShot andb negb
       mbind result_bind orb].
  set (throwData := throwOf _ _ _ _ _ _ _) in *.
  set (busted := updatePlayerStats _ playerId StatsTracker.addBust).
  assert (∃ p, Match.players busted !! Match.activePlayerIndex m = Some p
                         ∧ Player.score p = Player.originalScore player)
    as (p & Hp & Hpscore).
  { unfold busted. rewrite players_updatePlayerStats. cbn.
    rewrite !list_lookup_alter_eq, Hplayer. cbn. eauto. }
  assert (Hidx : Match.activePlayerIndex busted = Match.activePlayerIndex m).
  { unfold busted. rewrite activePlayerIndex_updatePlayerStats. reflexivity. }
  rewrite orb_false_r.
  destruct (Z.of_nat (length (Player.currentTurn player)) =? 2).
  - rewrite <- Hidx in Hp.
    destruct (moveToNextPlayer_Ok busted now p Hp)
      as (moved & -> & Hplayers & _).
    cbn [mbind result_bind]. rewrite <- Hidx.
    destruct (decide (nextIndex busted = Match.activePlayerIndex busted)) as [Heq | Hne];
      (eexists _, _, _, _; split; [reflexivity |]; split; [reflexivity |];
       split; [reflexivity |]; cbn; rewrite Hplayers).
    + rewrite Heq, !list_lookup_alter_eq, Hp. cbn. split; [reflexivity |]. exact Hpscore.
    + rewrite list_lookup_alter_ne, list_lookup_alter_eq, Hp by exact Hne.
      cbn. split; [reflexivity |]. exact Hpscore.
  - rewrite Hp. cbn [orThrow mbind result_bind].
    destruct (checkoutSuggestions (Match.settings busted)
              && StatsTracker.isCheckoutPosition (Player.score p));
      cbn [mbind result_bind];
      (eexists _, _, _, _; split; [reflexivity |]; split; [reflexivity |];
       split; [reflexivity |]; cbn; split; [exact Hp | exact Hpscore]).
Qed.

Lemma bust_below_zero_witness :
  ∃ mgr' r m' player',
    processThrow beforeCheckout 1 "T20" 60 None 0 = Ok (mgr', r)
    ∧ bust r = true
    ∧ match_ mgr' = Some m'
    ∧ Match.players m' !! 0%nat = Some player'
    ∧ Player.score player' = 141.
Proof.
  assert (∃ m player, accepted beforeCheckout m 1 player
                      ∧ Match.activePlayerIndex m = 0%nat
                      ∧ Player.score player = 24
                      ∧ Player.originalScore player = 141
                      ∧ Validator.doubleIn (Match.settings m) = false)
    as (m & player & Haccepted & Hindex & Hscore & Horiginal & Hsettings).
  { eexists _, _. split; [accept_by_evaluation | repeat split]. }
  destruct (bust_below_zero beforeCheckout m 1 player "T20" 60 None 0 Haccepted)
    as (mgr' & r & m' & player' & Hcall & Hbust & Hm' & Hplayer' & Hback).
  - lia.
  - unfold ValidatorSpec.mustStartWithDouble. rewrite Hsettings. reflexivity.
  - rewrite Hscore. lia.
  - rewrite Hindex in Hplayer'. rewrite Horiginal in Hback.
    exists mgr', r, m', player'. repeat (split; [assumption |]). exact Hback.
Defined.

(** ** [processThrow]: the end of a turn *)

Lemma setupNextLeg_Ok m now m' :
  setupNextLeg m now = Ok m' →
  ∃ next starter,
    Match.players m !! next = Some starter
    ∧ Match.players m'
      = resetForLeg (startingScore (Match.settings m)) (Player.id starter)
          <$> Match.players m
    ∧ Match.activePlayerIndex m' = next
    ∧ StatsTracker.players (Match.stats m') = StatsTracker.players (Match.stats m)
    ∧ Match.state m' = Match.state m
    ∧ Match.currentLeg m' = Match.currentLeg m + 1
    ∧ Match.legsToWin m' = Match.legsToWin m.
Proof.
  unfold setupNextLeg. cbn.
  set (next := match JS.findIndex _ (Match.players m) with
               | Some i => _
               | None => _
               end).
  destruct (Match.players m !! next) as [starter |] eqn:Hstarter; [| discriminate].
  cbn. intros [= <-]. exists next, starter. repeat split. exact Hstarter.
Qed.

Definition tons (st : StatsTracker.PlayerStats) : Z * Z * Z :=
  (StatsTracker.tonPlus st, StatsTracker.tonFortyPlus st, StatsTracker.tonEightyPlus st).

(** What the first block of [processThrow] does to the thrower and to
    the statistics: without a leg won, the turn in progress and the
    history are as they were and at most a bust is counted; with a leg won,
    the history and the ton counters are as they were. *)
Lemma applyValidation_thrower m idx playerId player v now m1 b g l w p :
  applyValidation m idx playerId player v now = Ok (m1, b, g, l, w) →
  Match.players m !! idx = Some p →
  ∃ p1,
    Match.players m1 !! idx = Some p1
    ∧ Player.history p1 = Player.history p
    ∧ (l = false →
         Player.id p1 = Player.id p
         ∧ Player.currentTurn p1 = Player.currentTurn p
         ∧ Match.activePlayerIndex m1 = Match.activePlayerIndex m
         ∧ b = Validator.bust v
         ∧ ∀ k, StatsTracker.players (Match.stats m1) !! k
                = if decide (playerId = k)
                  then (λ st, if b then StatsTracker.addBust st else st)
                         <$> StatsTracker.players (Match.stats m) !! k
                  else StatsTracker.players (Match.stats m) !! k)
    ∧ (l = true →
         ∀ k st, StatsTracker.players (Match.stats m) !! k = Some st →
                 ∃ st', StatsTracker.players (Match.stats m1) !! k = Some st'
                        ∧ tons st' = tons st).
Proof.
  intros Happly Hp. unfold applyValidation in Happly.
  destruct (Validator.valid v && negb (Validator.bust v)) eqn:Hvalid.
  - apply andb_prop in Hvalid as [_ Hnobust]. apply negb_true_iff in Hnobust.
    destruct (Validator.gameShot v).
    + set (won := updatePlayer (updatePlayerStats _ _ _) _ _) in Happly.
      assert (Hwon : ∀ k st, StatsTracker.players (Match.stats m) !! k = Some st →
                ∃ st', StatsTracker.players (Match.stats won) !! k = Some st'
                       ∧ tons st' = tons st).
      { intros k st Hk. unfold won. cbn -[updatePlayerStats].
        rewrite stats_updatePlayerStats. cbn. rewrite Hk.
        case_decide; cbn; eauto. }
      assert (Hpwon : ∃ q, Match.players won !! idx = Some q
                           ∧ Player.history q = Player.history p).
      { unfold won. cbn -[updatePlayerStats].
        rewrite players_updatePlayerStats. cbn.
        rewrite !list_lookup_alter_eq, Hp. cbn. eauto. }
      destruct Hpwon as (q & Hq & Hhistory).
      destruct (Match.legsToWin won <=? getPlayerLegWins won playerId).
      * injection Happly as <- <- <- <- <-. exists q.
        split; [exact Hq |]. split; [exact Hhistory |].
        split; [discriminate |]. intros _. exact Hwon.
      * destruct (setupNextLeg won now) as [next |] eqn:Hnext; [| discriminate Happly].
        cbn in Happly. injection Happly as <- <- <- <- <-.
        apply setupNextLeg_Ok in Hnext
          as (i & starter & _ & Hplayers & _ & Hstats & _).
        eexists. rewrite Hplayers, list_lookup_fmap, Hq. cbn.
        split; [reflexivity |]. split; [exact Hhistory |].
        split; [discriminate |]. intros _. rewrite Hstats. exact Hwon.
    + injection Happly as <- <- <- <- <-. eexists. cbn.
      rewrite list_lookup_alter_eq, Hp. cbn.
      split; [reflexivity |]. split; [reflexivity |].
      split; [| discriminate]. intros _. repeat split; [congruence |].
      intros k. case_decide; [| reflexivity].
      destruct (StatsTracker.players (Match.stats m) !! k); reflexivity.
  - destruct (Validator.bust v) eqn:Hbust.
    + injection Happly as <- <- <- <- <-. eexists.
      rewrite players_updatePlayerStats, activePlayerIndex_updatePlayerStats. cbn.
      rewrite list_lookup_alter_eq, Hp. cbn.
      split; [reflexivity |]. split; [reflexivity |].
      split; [| discriminate]. intros _. repeat split.
      intros k. rewrite stats_updatePlayerStats. reflexivity.
    + injection Happly as <- <- <- <- <-. exists p.
      split; [exact Hp |]. split; [reflexivity |].
      split; [| discriminate]. intros _. repeat split.
      intros k. case_decide; [| reflexivity].
      destruct (StatsTracker.players (Match.stats m) !! k); reflexivity.
Qed.

Lemma turnScore_app turn th :
  turnScore (turn ++ [th])%list = turnScore turn + Throw.score th.
Proof. unfold turnScore. rewrite foldl_app. reflexivity. Qed.

Lemma accepted_id mgr m playerId player :
  accepted mgr m playerId player → Player.id player = playerId.
Proof.
  intros [_ _ Hturn Hplayer _].
  apply findIndex_Some in Hturn as (q & Hq & Hid).
  rewrite Hplayer in Hq. injection Hq as <-.
  apply Z.eqb_eq. exact Hid.
Qed.

(** What C5 says, word for word: on the third dart, and on a dart that
    wins the leg, the turn goes to the history and its total to the ton
    counters. *)
Definition turn_end_as_claimed : Prop :=
  ∀ mgr m playerId player segment score coordinates now mgr' r,
    accepted mgr m playerId player →
    processThrow mgr playerId segment score coordinates now = Ok (mgr', r) →
    length (Player.currentTurn player) = 2%nat ∨ legWon r = true →
    ∃ m' player',
      match_ mgr' = Some m'
      ∧ Match.players m' !! Match.activePlayerIndex m = Some player'
      ∧ Player.history player'
        = (Player.history player ++ Player.currentTurn player ++ [throwData r])%list
      ∧ ∀ st, StatsTracker.players (Match.stats m) !! playerId = Some st →
          ∃ st', StatsTracker.players (Match.stats m') !! playerId = Some st'
                 ∧ tons st'
                   = tons (StatsTracker.updatePlayerTurn st
                             (turnScore (Player.currentTurn player ++ [throwData r])%list)).

(** The code does not do it: Anna takes out 141 with D12, her third
    dart.  The leg is hers, but the three darts of the turn are not in her
    history, which still holds six throws. *)
Lemma winning_turn_is_not_committed : ¬ turn_end_as_claimed.
Proof.
  intros claim.
  assert (∃ m player mgr' r,
            accepted beforeCheckout m 1 player
            ∧ processThrow beforeCheckout 1 "D12" 24 None 0 = Ok (mgr', r)
            ∧ legWon r = true
            ∧ length (Player.history player) = 6%nat
            ∧ ∀ m' player',
                match_ mgr' = Some m' →
                Match.players m' !! Match.activePlayerIndex m = Some player' →
                length (Player.history player') = 6%nat)
    as (m & player & mgr' & r & Haccepted & Hcall & Hwon & Hbefore & Hafter).
  { eexists _, _, _, _. split; [accept_by_evaluation |].
    split; [vm_compute; reflexivity |].
    split; [reflexivity |]. split; [reflexivity |].
    intros m' player' Hm' Hplayer'.
    vm_compute in Hm'. injection Hm' as <-.
    vm_compute in Hplayer'. injection Hplayer' as <-. reflexivity. }
  destruct (claim _ _ _ _ _ _ _ _ _ _ Haccepted Hcall (or_intror Hwon))
    as (m' & player' & Hm' & Hplayer' & Hhistory & _).
  apply (f_equal length) in Hhistory.
  rewrite (Hafter _ _ Hm' Hplayer'), !length_app, Hbefore in Hhistory.
  cbn in Hhistory. lia.
Qed.

(** C5: the turn that wins a leg is dropped.  Anna is on 141 with T20
    and T19 in her turn, and her D12 wins the leg.  After the call her
    history holds the six throws of her first two turns and no more, her
    turn in progress is empty, and her ton counters are what they were:
    the turn of 141 is in none of them, where [updatePlayerTurn] has the
    140+ counter for it.  [processThrow] ends a turn through
    [moveToNextPlayer] only [if (!legWon)], and [setupNextLeg] clears
    [currentTurn] without a look at it. *)
Theorem winning_turn_is_dropped :
  ∃ m player st mgr' r m' player' st',
    accepted beforeCheckout m 1 player
    ∧ (λ th, (Throw.segment th, Throw.score th)) <$> Player.currentTurn player
      = [("T20", 60); ("T19", 57)]
    ∧ length (Player.history player) = 6%nat
    ∧ StatsTracker.players (Match.stats m) !! 1 = Some st
    ∧ processThrow beforeCheckout 1 "D12" 24 None 0 = Ok (mgr', r)
    ∧ legWon r = true
    ∧ matchWon r = false
    ∧ match_ mgr' = Some m'
    ∧ Match.currentLeg m' = 2
    ∧ Match.players m' !! Match.activePlayerIndex m = Some player'
    ∧ Player.id player' = 1
    ∧ Player.history player' = Player.history player
    ∧ Player.currentTurn player' = []
    ∧ StatsTracker.players (Match.stats m') !! 1 = Some st'
    ∧ tons st' = tons st
    ∧ tons st = (0, 0, 2)
    ∧ tons (StatsTracker.updatePlayerTurn st 141) = (0, 1, 2).
Proof.
  eexists _, _, _, _, _, _, _, _.
  split; [accept_by_evaluation |].
  split; [reflexivity |]. split; [reflexivity |].
  split; [vm_compute; reflexivity |].
  split; [vm_compute; reflexivity |].
  split; [reflexivity |]. split; [reflexivity |].
  split; [reflexivity |]. split; [reflexivity |].
  split; [vm_compute; reflexivity |].
  split; [reflexivity |]. split; [reflexivity |]. split; [reflexivity |].
  split; [vm_compute; reflexivity |].
  repeat split.
Qed.

(** X28: The end of a turn.  When an accepted throw is the third dart of
    the turn and does not win the leg, the throws of the turn, this one
    last, are moved from [currentTurn] to the end of the player's history
    and the total of their scores is passed to the turn classification of
    the player's statistics (after the bust count, if the dart was a
    bust).  With a dart that wins the leg, first, second or third, the
    history and the ton counters are after the call what they were before
    it. *)
Theorem turn_end mgr m playerId player segment score coordinates now mgr' r :
  accepted mgr m playerId player →
  processThrow mgr playerId segment score coordinates now = Ok (mgr', r) →
  ∃ m' player',
    match_ mgr' = Some m'
    ∧ Match.players m' !! Match.activePlayerIndex m = Some player'
    ∧ (legWon r = false → length (Player.currentTurn player) = 2%nat →
         Player.history player'
         = (Player.history player ++ Player.currentTurn player ++ [throwData r])%list
         ∧ Player.currentTurn player' = []
         ∧ ∀ st, StatsTracker.players (Match.stats m) !! playerId = Some st →
             StatsTracker.players (Match.stats m') !! playerId
             = Some (StatsTracker.updatePlayerTurn
                       (if bust r then StatsTracker.addBust st else st)
                       (turnScore (Player.currentTurn player) + score)))
    ∧ (legWon r = true →
         Player.history player' = Player.history player
         ∧ ∀ st, StatsTracker.players (Match.stats m) !! playerId = Some st →
             ∃ st', StatsTracker.players (Match.stats m') !! playerId = Some st'
                    ∧ tons st' = tons st).
Proof.
  intros Haccepted Hcall.
  pose proof (accepted_id _ _ _ _ Haccepted) as Hid.
  rewrite (processThrow_accepted _ _ _ _ _ _ _ _ Haccepted) in Hcall.
  destruct Haccepted as [Hm Hstate Hturn Hplayer Hdarts].
  set (td := throwOf m playerId player segment score coordinates now) in *.
  set (idx := Match.activePlayerIndex m) in *.
  destruct (applyValidation _ idx playerId player _ now)
    as [[[[[m1 b] g] l] w] |] eqn:Hfirst; [| discriminate Hcall].
  cbn [mbind result_bind] in Hcall.
  destruct (endTurnOrSuggest m1 idx _ l now) as [[m2 c] |] eqn:Hsecond;
    [| discriminate Hcall].
  cbn [mbind result_bind] in Hcall. injection Hcall as <- <-.
  eapply applyValidation_thrower in Hfirst as (p1 & Hp1 & Hhistory & Hnoleg & Hleg);
    [| cbn; rewrite list_lookup_alter_eq, Hplayer; reflexivity].
  cbn [Player.history addThrow Player.setDartsThrown Player.setCurrentTurn] in Hhistory.
  unfold endTurnOrSuggest in Hsecond.
  destruct l.
  - (* the leg is won: no turn is committed *)
    rewrite orb_true_r in Hsecond. cbn in Hsecond. injection Hsecond as <- <-.
    exists (saveMatchState m1 now), p1. split; [reflexivity |].
    split; [exact Hp1 |]. split; [discriminate |]. intros _.
    split; [exact Hhistory |]. intros st Hst. apply (Hleg eq_refl). exact Hst.
  - destruct (Hnoleg eq_refl) as (Hid1 & Hturn1 & Hidx1 & Hbust & Hstats).
    cbn [Player.id Player.currentTurn addThrow Player.setDartsThrown
         Player.setCurrentTurn] in Hid1, Hturn1.
    cbn [Match.activePlayerIndex Match.stats updatePlayer Match.setPlayers]
      in Hidx1, Hstats.
    rewrite orb_false_r in Hsecond.
    destruct (Z.eqb_spec (Z.of_nat (length (Player.currentTurn player))) 2)
      as [Hthird | Hearly].
    + (* third dart: the turn is committed *)
      cbn [negb] in Hsecond. fold idx in Hidx1. rewrite <- Hidx1 in Hp1.
      destruct (moveToNextPlayer_Ok m1 now p1 Hp1)
        as (moved & Hmoved & Hplayers & _ & Hmovedstats & _).
      rewrite Hmoved in Hsecond. cbn in Hsecond. injection Hsecond as <- <-.
      assert (Hcommitted : ∃ q, Match.players moved !! idx = Some q
                ∧ Player.history q = (Player.history p1 ++ Player.currentTurn p1)%list
                ∧ Player.currentTurn q = []) .
      { rewrite Hplayers, <- Hidx1.
        destruct (decide (nextIndex m1 = Match.activePlayerIndex m1)) as [-> | Hne].
        - rewrite !list_lookup_alter_eq, Hp1. cbn. eauto.
        - rewrite list_lookup_alter_ne, list_lookup_alter_eq, Hp1 by exact Hne.
          cbn. eauto. }
      destruct Hcommitted as (q & Hq & Hqhistory & Hqturn).
      exists (saveMatchState moved now), q. split; [reflexivity |].
      split; [exact Hq |]. split; [| discriminate]. intros _ _.
      split; [rewrite Hqhistory, Hhistory, Hturn1; reflexivity |].
      split; [exact Hqturn |].
      intros st Hst. cbn [saveMatchState Match.stamp Match.stats].
      rewrite Hmovedstats, stats_updatePlayerStats, Hid1, Hid.
      rewrite decide_True by reflexivity.
      rewrite Hstats, decide_True, Hst by reflexivity. cbn.
      rewrite Hturn1, turnScore_app. reflexivity.
    + (* an earlier dart: the turn goes on *)
      rewrite Hp1 in Hsecond. cbn [orThrow mbind result_bind] in Hsecond.
      exists (saveMatchState m1 now), p1.
      destruct (checkoutSuggestions (Match.settings m1)
                && StatsTracker.isCheckoutPosition (Player.score p1));
        injection Hsecond as <- <-;
        (split; [reflexivity |]; split; [exact Hp1 |];
         split; [| discriminate]; intros _ Htwo; lia).
Qed.

Lemma turn_end_witness :
  ∃ mgr' r m' player',
    processThrow beforeCheckout 1 "S1" 1 None 0 = Ok (mgr', r)
    ∧ match_ mgr' = Some m'
    ∧ Match.players m' !! 0%nat = Some player'
    ∧ length (Player.history player') = 9%nat
    ∧ Player.currentTurn player' = [].
Proof.
  assert (∃ m player mgr' r,
            accepted beforeCheckout m 1 player
            ∧ processThrow beforeCheckout 1 "S1" 1 None 0 = Ok (mgr', r)
            ∧ Match.activePlayerIndex m = 0%nat
            ∧ legWon r = false
            ∧ length (Player.currentTurn player) = 2%nat
            ∧ length (Player.history player) = 6%nat)
    as (m & player & mgr' & r & Haccepted & Hcall & Hindex & Hnoleg & Hthird & Hsix).
  { eexists _, _, _, _. split; [accept_by_evaluation |].
    split; [vm_compute; reflexivity |]. repeat split. }
  destruct (turn_end beforeCheckout m 1 player "S1" 1 None 0 mgr' r Haccepted Hcall)
    as (m' & player' & Hm' & Hplayer' & Hcommit & _).
  destruct (Hcommit Hnoleg Hthird) as (Hhistory & Hturn & _).
  rewrite Hindex in Hplayer'. exists mgr', r, m', player'.
  split; [exact Hcall |]. split; [exact Hm' |]. split; [exact Hplayer' |].
  split; [| exact Hturn].
  rewrite Hhistory, !length_app, Hsix, Hthird. reflexivity.
Defined.

(** An accepted throw always returns a result: none of the property
    reads inside [processThrow] can fail on a player that was found. *)
Lemma setupNextLeg_returns m now :
  Match.players m ≠ [] → ∃ m', setupNextLeg m now = Ok m'.
Proof.
  intros Hplayers. unfold setupNextLeg. cbn.
  set (next := match JS.findIndex _ (Match.players m) with
               | Some i => _
               | None => _
               end).
  assert (Hnext : (next < length (Match.players m))%nat).
  { unfold next. destruct (Match.players m); [contradiction |].
    case_match; apply Nat.mod_upper_bound; cbn; lia. }
  apply lookup_lt_is_Some_2 in Hnext as [starter Hstarter].
  rewrite Hstarter. cbn. eauto.
Qed.

Lemma processThrow_returns mgr m playerId player segment score coordinates now :
  accepted mgr m playerId player →
  ∃ mgr' r, processThrow mgr playerId segment score coordinates now = Ok (mgr', r).
Proof.
  intros Haccepted.
  rewrite (processThrow_accepted _ _ _ _ _ _ _ _ Haccepted).
  destruct Haccepted as [Hm Hstate Hturn Hplayer Hdarts].
  set (m0 := updatePlayer m _ _).
  assert (Hp0 : ∃ p0, Match.players m0 !! Match.activePlayerIndex m = Some p0).
  { unfold m0. cbn. rewrite list_lookup_alter_eq, Hplayer. cbn. eauto. }
  destruct Hp0 as [p0 Hp0].
  assert (Hfirst : ∃ out, applyValidation m0 (Match.activePlayerIndex m) playerId
                            player (verdict m player segment score) now = Ok out).
  { unfold applyValidation. repeat case_match; eauto.
    match goal with
    | |- context [setupNextLeg ?won now] =>
        assert (Hwon : Match.players won ≠ []);
        [| destruct (setupNextLeg_returns won now Hwon) as [next Hnext];
           rewrite Hnext; eexists; reflexivity]
    end.
    cbn. rewrite players_updatePlayerStats. cbn. intros Hnil.
    apply (f_equal length) in Hnil. rewrite !length_alter in Hnil.
    apply lookup_lt_Some in Hplayer. cbn in Hnil. lia. }
  destruct Hfirst as [[[[[m1 b] g] l] w] Hfirst]. rewrite Hfirst.
  cbn [mbind result_bind].
  eapply applyValidation_thrower in Hfirst as (p1 & Hp1 & _ & Hnoleg & _);
    [| exact Hp0].
  assert (Hsecond : ∃ out, endTurnOrSuggest m1 (Match.activePlayerIndex m)
                             (Z.of_nat (length (Player.currentTurn player))) l now
                           = Ok out).
  { unfold endTurnOrSuggest. destruct l.
    - rewrite orb_true_r. eexists. reflexivity.
    - destruct (Hnoleg eq_refl) as (_ & _ & Hidx & _).
      change (Match.activePlayerIndex m0) with (Match.activePlayerIndex m) in Hidx.
      rewrite orb_false_r. cbn [negb].
      destruct (Z.of_nat (length (Player.currentTurn player)) =? 2).
      + rewrite <- Hidx in Hp1.
        destruct (moveToNextPlayer_Ok m1 now p1 Hp1) as (moved & Hmoved & _).
        rewrite Hmoved. eexists. reflexivity.
      + rewrite Hp1. cbn [orThrow mbind result_bind].
        destruct (checkoutSuggestions (Match.settings m1) && _);
          eexists; reflexivity. }
  destruct Hsecond as [[m2 c] Hsecond]. rewrite Hsecond.
  eexists _, _. reflexivity.
Qed.

(** ** The active flag *)

Definition flags (m : Match.t) : list bool := Player.isActive <$> Match.players m.

(** The number of players whose [isActive] is set. *)
Definition activeCount (m : Match.t) : nat :=
  length (List.filter (λ b : bool, b) (flags m)).

(** The flag is set at index [i] and nowhere else. *)
Definition activeAt (flags : list bool) (i : nat) : Prop :=
  (i < length flags)%nat
  ∧ ∀ j b, flags !! j = Some b → b = bool_decide (j = i).

Definition activeOk (m : Match.t) : Prop :=
  activeAt (flags m) (Match.activePlayerIndex m).

Lemma none_active_count (bs : list bool) :
  (∀ j b, bs !! j = Some b → b = false) →
  length (List.filter (λ b : bool, b) bs) = 0%nat.
Proof.
  induction bs as [| b bs IH]; intros Hall; [reflexivity |].
  cbn. rewrite (Hall 0%nat b eq_refl). apply IH.
  intros j c Hj. apply (Hall (S j) c Hj).
Qed.

Lemma activeAt_count (bs : list bool) i :
  activeAt bs i → length (List.filter (λ b : bool, b) bs) = 1%nat.
Proof.
  revert i. induction bs as [| b bs IH]; intros i [Hlt Hall]; [cbn in Hlt; lia |].
  pose proof (Hall 0%nat b eq_refl) as Hb.
  destruct i as [| i].
  - rewrite bool_decide_eq_true_2 in Hb by reflexivity. subst b.
    cbn. f_equal. apply none_active_count.
    intros j c Hj. rewrite (Hall (S j) c Hj).
    apply bool_decide_eq_false_2. discriminate.
  - rewrite bool_decide_eq_false_2 in Hb by discriminate. subst b.
    cbn. apply (IH i). split; [cbn in Hlt; lia |].
    intros j c Hj. rewrite (Hall (S j) c Hj).
    apply bool_decide_ext. lia.
Qed.

Lemma activeOk_count m : activeOk m → activeCount m = 1%nat.
Proof. apply activeAt_count. Qed.

Lemma activeOk_player m :
  activeOk m →
  ∃ p, Match.players m !! Match.activePlayerIndex m = Some p
       ∧ Player.isActive p = true.
Proof.
  intros [Hlt Hall]. unfold flags in Hlt. rewrite length_fmap in Hlt.
  apply lookup_lt_is_Some_2 in Hlt as [p Hp]. exists p. split; [exact Hp |].
  rewrite (Hall (Match.activePlayerIndex m) (Player.isActive p)).
  - apply bool_decide_eq_true_2. reflexivity.
  - unfold flags. rewrite list_lookup_fmap, Hp. reflexivity.
Qed.

(** Marking the players that carry the id of the one at [i]: with ids
    all different, that marks [i] alone. *)
Lemma mark_by_id (ps : list Player.t) (f : Player.t → Player.t) i q :
  NoDup (Player.id <$> ps) →
  ps !! i = Some q →
  (∀ p, Player.isActive (f p) = hasId (Player.id q) p) →
  activeAt (Player.isActive <$> (f <$> ps)) i.
Proof.
  intros Hnodup Hq Hf. split.
  - rewrite !length_fmap. apply lookup_lt_Some in Hq. exact Hq.
  - intros j b Hj. rewrite !list_lookup_fmap in Hj.
    destruct (ps !! j) as [p |] eqn:Hp; [| discriminate Hj].
    cbn in Hj. injection Hj as <-. rewrite Hf. unfold hasId.
    destruct (decide (j = i)) as [-> | Hne].
    + rewrite Hq in Hp. injection Hp as <-.
      rewrite Z.eqb_refl, bool_decide_eq_true_2; reflexivity.
    + rewrite bool_decide_eq_false_2 by exact Hne.
      apply Z.eqb_neq. intros Heq. apply Hne.
      apply (NoDup_lookup _ j i (Player.id p) Hnodup);
        rewrite list_lookup_fmap; [rewrite Hp | rewrite Hq]; cbn; congruence.
Qed.

(** What a step of the manager keeps: the ids of the players, in
    order, and the place of the active flag when the ids are all
    different. *)
Definition keeps (m m' : Match.t) : Prop :=
  ids m' = ids m ∧ (NoDup (ids m) → activeOk m → activeOk m').

Lemma keeps_refl m : keeps m m.
Proof. split; [reflexivity | auto]. Qed.

Lemma keeps_trans m1 m2 m3 : keeps m1 m2 → keeps m2 m3 → keeps m1 m3.
Proof.
  intros [Hids12 H12] [Hids23 H23]. split; [congruence |].
  intros Hnodup Hok. apply H23; [rewrite Hids12; exact Hnodup | auto].
Qed.

(** A step that leaves the players' ids and flags and the active index
    alone. *)
Lemma keeps_same m m' :
  Player.id <$> Match.players m' = Player.id <$> Match.players m →
  flags m' = flags m →
  Match.activePlayerIndex m' = Match.activePlayerIndex m →
  keeps m m'.
Proof.
  intros Hids Hflags Hidx. split; [exact Hids |].
  intros _ Hok. unfold activeOk. rewrite Hflags, Hidx. exact Hok.
Qed.

Lemma keeps_updatePlayer m i f :
  (∀ p, Player.id (f p) = Player.id p) →
  (∀ p, Player.isActive (f p) = Player.isActive p) →
  keeps m (updatePlayer m i f).
Proof.
  intros Hid Hactive. apply keeps_same; [| | reflexivity].
  - cbn. apply fmap_alter_same. exact Hid.
  - unfold flags. cbn. apply fmap_alter_same. exact Hactive.
Qed.

Lemma keeps_updatePlayerStats m playerId f : keeps m (updatePlayerStats m playerId f).
Proof.
  apply keeps_same; unfold flags; autorewrite with match_fields; reflexivity.
Qed.

Lemma keeps_moveToNextPlayer m now m' : moveToNextPlayer m now = Ok m' → keeps m m'.
Proof.
  intros Hmove.
  destruct (Match.players m !! Match.activePlayerIndex m) as [p |] eqn:Hp;
    [| rewrite moveToNextPlayer_Err in Hmove by exact Hp; discriminate Hmove].
  destruct (moveToNextPlayer_Ok m now p Hp) as (moved & Hmoved & Hplayers & Hidx & _).
  rewrite Hmoved in Hmove. injection Hmove as <-.
  assert (Hnext : (nextIndex m < length (Match.players m))%nat).
  { unfold nextIndex. apply Nat.mod_upper_bound.
    apply lookup_lt_Some in Hp. lia. }
  split.
  - unfold ids. rewrite Hplayers.
    rewrite !fmap_alter_same; [reflexivity | reflexivity | reflexivity].
  - intros _ [_ Hall]. unfold activeOk, flags. rewrite Hplayers, Hidx. split.
    + rewrite length_fmap, !length_alter. exact Hnext.
    + intros j b Hj. rewrite list_lookup_fmap in Hj.
      destruct (decide (nextIndex m = j)) as [<- | Hne].
      * rewrite list_lookup_alter_eq in Hj.
        destruct (alter commitTurn _ _ !! _); [| discriminate Hj].
        cbn in Hj. injection Hj as <-.
        rewrite bool_decide_eq_true_2; reflexivity.
      * rewrite list_lookup_alter_ne in Hj by exact Hne.
        rewrite bool_decide_eq_false_2 by congruence.
        destruct (decide (Match.activePlayerIndex m = j)) as [<- | Hne'].
        -- rewrite list_lookup_alter_eq, Hp in Hj. cbn in Hj. congruence.
        -- rewrite list_lookup_alter_ne in Hj by exact Hne'.
           rewrite (Hall j b); [apply bool_decide_eq_false_2; congruence |].
           unfold flags. rewrite list_lookup_fmap. exact Hj.
Qed.

Lemma keeps_setupNextLeg m now m' : setupNextLeg m now = Ok m' → keeps m m'.
Proof.
  intros Hsetup.
  apply setupNextLeg_Ok in Hsetup as (next & starter & Hstarter & Hplayers & Hidx & _).
  split.
  - unfold ids. rewrite Hplayers, <- list_fmap_compose. reflexivity.
  - intros Hnodup _. unfold activeOk, flags. rewrite Hplayers, Hidx.
    apply (mark_by_id _ _ _ starter Hnodup Hstarter). reflexivity.
Qed.

Lemma keeps_saveMatchState m now : keeps m (saveMatchState m now).
Proof. apply keeps_same; reflexivity. Qed.

Lemma keeps_setState m s : keeps m (Match.setState m s).
Proof. apply keeps_same; reflexivity. Qed.

Lemma keeps_setStats m stats : keeps m (Match.setStats m stats).
Proof. apply keeps_same; reflexivity. Qed.

(** Peels the outermost update off the match on the right. *)
Ltac keeps_step :=
  lazymatch goal with
  | |- keeps ?m ?m => apply keeps_refl
  | |- keeps _ (updatePlayer _ _ _) =>
      eapply keeps_trans; [| apply keeps_updatePlayer; reflexivity]
  | |- keeps _ (updatePlayerStats _ _ _) =>
      eapply keeps_trans; [| apply keeps_updatePlayerStats]
  | |- keeps _ (saveMatchState _ _) =>
      eapply keeps_trans; [| apply keeps_saveMatchState]
  | |- keeps _ (Match.setState _ _) =>
      eapply keeps_trans; [| apply keeps_setState]
  | |- keeps _ (Match.setStats _ _) =>
      eapply keeps_trans; [| apply keeps_setStats]
  | H : setupNextLeg ?m _ = Ok ?m' |- keeps _ ?m' =>
      eapply keeps_trans; [| eapply keeps_setupNextLeg; exact H]
  | H : moveToNextPlayer ?m _ = Ok ?m' |- keeps _ ?m' =>
      eapply keeps_trans; [| eapply keeps_moveToNextPlayer; exact H]
  end.

Lemma keeps_applyValidation m idx playerId player v now m1 b g l w :
  applyValidation m idx playerId player v now = Ok (m1, b, g, l, w) → keeps m m1.
Proof.
  unfold applyValidation. intros Happly.
  destruct (Validator.valid v && negb (Validator.bust v)).
  - destruct (Validator.gameShot v).
    + destruct (Match.legsToWin _ <=? getPlayerLegWins _ playerId).
      * injection Happly as <- <- <- <- <-. repeat keeps_step.
      * destruct (setupNextLeg _ now) as [next |] eqn:Hnext; [| discriminate Happly].
        cbn in Happly. injection Happly as <- <- <- <- <-. repeat keeps_step.
    + injection Happly as <- <- <- <- <-. repeat keeps_step.
  - destruct (Validator.bust v); injection Happly as <- <- <- <- <-;
      repeat keeps_step.
Qed.

Lemma keeps_endTurnOrSuggest m idx dartsInTurn legWon now m' c :
  endTurnOrSuggest m idx dartsInTurn legWon now = Ok (m', c) → keeps m m'.
Proof.
  unfold endTurnOrSuggest. intros Hend.
  destruct ((dartsInTurn =? 2) || legWon).
  - destruct (negb legWon).
    + destruct (moveToNextPlayer m now) as [moved |] eqn:Hmoved; [| discriminate Hend].
      cbn in Hend. injection Hend as <- <-. repeat keeps_step.
    + injection Hend as <- <-. apply keeps_refl.
  - destruct (Match.players m !! idx); [| discriminate Hend].
    cbn in Hend.
    destruct (checkoutSuggestions (Match.settings m) && _);
      injection Hend as <- <-; apply keeps_refl.
Qed.

(** A call that succeeds with a match already loaded keeps the ids and
    the active flag. *)
Lemma keeps_processThrow mgr m playerId segment score coordinates now mgr' r :
  match_ mgr = Some m →
  processThrow mgr playerId segment score coordinates now = Ok (mgr', r) →
  ∃ m', match_ mgr' = Some m' ∧ keeps m m'.
Proof.
  intros Hm Hcall. unfold processThrow in Hcall. rewrite Hm in Hcall.
  cbn [orThrow mbind result_bind] in Hcall.
  destruct (negb (bool_decide (Match.state m = active))); [discriminate Hcall |].
  destruct (JS.findIndex (hasId playerId) (Match.players m)) as [idx |];
    [| discriminate Hcall].
  cbn [orThrow mbind result_bind] in Hcall.
  destruct (negb (idx =? Match.activePlayerIndex m)%nat); [discriminate Hcall |].
  destruct (Match.players m !! idx) as [player |]; [| discriminate Hcall].
  cbn [orThrow mbind result_bind] in Hcall.
  destruct (3 <=? Z.of_nat (length (Player.currentTurn player))); [discriminate Hcall |].
  destruct (applyValidation _ idx playerId player _ now)
    as [[[[[m1 b] g] l] w] |] eqn:Hfirst; [| discriminate Hcall].
  cbn [mbind result_bind] in Hcall.
  destruct (endTurnOrSuggest m1 idx _ l now) as [[m2 c] |] eqn:Hsecond;
    [| discriminate Hcall].
  cbn [mbind result_bind] in Hcall. injection Hcall as <- <-.
  eexists. split; [reflexivity |]. keeps_step.
  eapply keeps_trans; [| eapply keeps_endTurnOrSuggest; exact Hsecond].
  eapply keeps_trans; [| eapply keeps_applyValidation; exact Hfirst].
  repeat keeps_step.
Qed.

Lemma keeps_transition mgr m allowed target now mgr' out :
  match_ mgr = Some m →
  transition mgr allowed target now = Ok (mgr', out) →
  ∃ m', match_ mgr' = Some m' ∧ keeps m m'.
Proof.
  intros Hm Hcall. unfold transition in Hcall. rewrite Hm in Hcall.
  cbn [orThrow mbind result_bind] in Hcall.
  destruct (negb (allowed (Match.state m))); [discriminate Hcall |].
  injection Hcall as <- <-. eexists. split; [reflexivity |].
  repeat keeps_step.
Qed.

Lemma keeps_setBullWinner mgr m playerId now mgr' out :
  match_ mgr = Some m →
  setBullWinner mgr playerId now = Ok (mgr', out) →
  ∃ m', match_ mgr' = Some m' ∧ keeps m m'.
Proof.
  intros Hm Hcall. unfold setBullWinner in Hcall. rewrite Hm in Hcall.
  cbn [orThrow mbind result_bind] in Hcall.
  destruct (negb (bool_decide (Match.state m = bullshot))); [discriminate Hcall |].
  destruct (JS.findIndex (hasId playerId) (Match.players m)) as [idx |] eqn:Hidx;
    [| discriminate Hcall].
  cbn [orThrow mbind result_bind] in Hcall. injection Hcall as <- <-.
  eexists. split; [reflexivity |].
  apply findIndex_Some in Hidx as (q & Hq & Hid). apply Z.eqb_eq in Hid.
  split.
  - unfold ids. cbn. rewrite <- list_fmap_compose. reflexivity.
  - intros Hnodup _. unfold activeOk, flags. cbn.
    apply (mark_by_id _ _ _ q Hnodup Hq). intros p. cbn. rewrite Hid. reflexivity.
Qed.

Lemma keeps_correctThrow mgr m throwId segment score now mgr' r :
  match_ mgr = Some m →
  correctThrow mgr throwId segment score now = Ok (mgr', r) →
  ∃ m', match_ mgr' = Some m' ∧ keeps m m'.
Proof.
  intros Hm Hcall. unfold correctThrow in Hcall. rewrite Hm in Hcall.
  cbn [orThrow mbind result_bind] in Hcall.
  destruct (findThrow (Match.players m) throwId 0) as [[[i k] th] |];
    [| discriminate Hcall].
  cbn [orThrow mbind result_bind] in Hcall.
  destruct (Match.players m !! i); [| discriminate Hcall].
  cbn [orThrow mbind result_bind] in Hcall. injection Hcall as <- <-.
  eexists. split; [reflexivity |]. repeat keeps_step.
Qed.

Lemma keeps_manualPlayerSwitch mgr m now mgr' :
  match_ mgr = Some m →
  manualPlayerSwitch mgr now = Ok mgr' →
  ∃ m', match_ mgr' = Some m' ∧ keeps m m'.
Proof.
  intros Hm Hcall. unfold manualPlayerSwitch in Hcall. rewrite Hm in Hcall.
  destruct (moveToNextPlayer m now) as [moved |] eqn:Hmoved; [| discriminate Hcall].
  cbn in Hcall. injection Hcall as <-. eexists. split; [reflexivity |].
  eapply keeps_moveToNextPlayer. exact Hmoved.
Qed.

Lemma keeps_endMatch mgr m winningPlayerId now mgr' out :
  match_ mgr = Some m →
  endMatch mgr winningPlayerId now = Ok (mgr', out) →
  ∃ m', match_ mgr' = Some m' ∧ keeps m m'.
Proof.
  intros Hm Hcall. unfold endMatch in Hcall. rewrite Hm in Hcall.
  cbn [orThrow mbind result_bind] in Hcall. injection Hcall as <- <-.
  eexists. split; [reflexivity |]. do 3 keeps_step.
  repeat case_match; repeat keeps_step.
Qed.

Lemma createMatch_active mgr boardId players mode legsToWin settings now
    insertedId mgr' m :
  createMatch mgr boardId players mode legsToWin settings now insertedId
  = Ok (mgr', m) →
  match_ mgr' = Some m ∧ activeOk m.
Proof.
  intros Hcreate.
  destruct (createMatch_returned _ _ _ _ _ _ _ _ _ _ Hcreate)
    as (_ & Hloaded & _ & _ & _ & Hidx & _ & _ & _ & _ & first & rest & Hps & Hfirst & Hrest).
  split; [exact Hloaded |].
  unfold activeOk, flags. rewrite Hidx, Hps. split; [cbn; lia |].
  intros j b Hj. rewrite list_lookup_fmap in Hj. destruct j as [| j].
  - cbn in Hj. injection Hj as <-. exact Hfirst.
  - change ((first :: rest) !! S j) with (rest !! j) in Hj.
    destruct (rest !! j) as [p |] eqn:Hp; [| discriminate Hj].
    cbn in Hj. injection Hj as <-.
    rewrite (proj1 (Forall_lookup _ _) Hrest j p Hp). reflexivity.
Qed.

(** Every call either works on the match that is loaded, keeping ids
    and active flag, or loads a new match with its first player active. *)
Lemma call_keeps mgr c now m' :
  match_ (call mgr c now) = Some m' →
  (∃ m, match_ mgr = Some m ∧ keeps m m') ∨ activeOk m'.
Proof.
  intros Hafter.
  assert (Hidle : match_ mgr = Some m' → (∃ m, match_ mgr = Some m ∧ keeps m m') ∨ activeOk m').
  { intros Hm. left. exists m'. split; [exact Hm | apply keeps_refl]. }
  destruct (match_ mgr) as [m |] eqn:Hm.
  - (* a match is loaded *)
    assert (Hkept : (∃ m'', match_ (call mgr c now) = Some m'' ∧ keeps m m'')).
    { destruct c; cbn [call after].
      - unfold createMatch. rewrite Hm.
        rewrite bool_decide_eq_true_2 by eauto. cbn.
        exists m. split; [exact Hm | apply keeps_refl].
      - unfold startMatch.
        destruct (transition mgr _ warmup now) as [[mgr' out] |] eqn:Hcall.
        + eapply keeps_transition; eassumption.
        + exists m. split; [exact Hm | apply keeps_refl].
      - unfold startWarmup.
        destruct (transition mgr _ warmup now) as [[mgr' out] |] eqn:Hcall.
        + eapply keeps_transition; eassumption.
        + exists m. split; [exact Hm | apply keeps_refl].
      - unfold endWarmup.
        destruct (transition mgr _ bullshot now) as [[mgr' out] |] eqn:Hcall.
        + eapply keeps_transition; eassumption.
        + exists m. split; [exact Hm | apply keeps_refl].
      - destruct (setBullWinner mgr playerId now) as [[mgr' out] |] eqn:Hcall.
        + eapply keeps_setBullWinner; eassumption.
        + exists m. split; [exact Hm | apply keeps_refl].
      - destruct (processThrow mgr playerId segment score coordinates now)
          as [[mgr' out] |] eqn:Hcall.
        + eapply keeps_processThrow; eassumption.
        + exists m. split; [exact Hm | apply keeps_refl].
      - destruct (correctThrow mgr throwId segment score now)
          as [[mgr' out] |] eqn:Hcall.
        + eapply keeps_correctThrow; eassumption.
        + exists m. split; [exact Hm | apply keeps_refl].
      - destruct (manualPlayerSwitch mgr now) as [mgr' |] eqn:Hcall.
        + eapply keeps_manualPlayerSwitch; eassumption.
        + exists m. split; [exact Hm | apply keeps_refl].
      - destruct (endMatch mgr winningPlayerId now) as [[mgr' out] |] eqn:Hcall.
        + eapply keeps_endMatch; eassumption.
        + exists m. split; [exact Hm | apply keeps_refl].
      - unfold autosave. rewrite Hm. destruct (autosaveTimer mgr).
        + eexists. split; [reflexivity | apply keeps_same; reflexivity].
        + exists m. split; [exact Hm | apply keeps_refl]. }
    destruct Hkept as (m'' & Hm'' & Hkeeps). left. exists m.
    split; [reflexivity |]. congruence.
  - (* no match is loaded: only [createMatch] can load one *)
    right. destruct c; cbn [call after] in Hafter;
      try (unfold startMatch, startWarmup, endWarmup, transition, setBullWinner,
             processThrow, correctThrow, manualPlayerSwitch, endMatch, autosave
             in Hafter;
           rewrite Hm in Hafter; cbn in Hafter; congruence).
    destruct (createMatch mgr boardId players mode legsToWin settings now insertedId)
      as [[mgr' out] |] eqn:Hcall; cbn in Hafter; [| congruence].
    apply createMatch_active in Hcall as [Hloaded Hok].
    rewrite Hloaded in Hafter. injection Hafter as <-. exact Hok.
Qed.

Lemma reachable_active mgr :
  reachable mgr → ∀ m, match_ mgr = Some m → NoDup (ids m) → activeOk m.
Proof.
  induction 1 as [mgr Hnone | mgr c now Hreach IH]; intros m' Hm' Hnodup.
  - congruence.
  - destruct (call_keeps _ _ _ _ Hm') as [(m & Hm & Hids & Hkeeps) | Hok];
      [| exact Hok].
    rewrite Hids in Hnodup. apply Hkeeps; [exact Hnodup |].
    apply IH; assumption.
Qed.

(** What C3 says, word for word. *)
Definition active_flag_as_claimed : Prop :=
  ∀ mgr m,
    reachable mgr → match_ mgr = Some m →
    (Match.state m = active → activeCount m = 1%nat)
    ∧ (Match.state m ≠ active → activeCount m = 0%nat).

(** C3, counterexample: the match that [createMatch] returns is in
    state [pending] and its first player is active. *)
Lemma pending_match_has_active_player : ¬ active_flag_as_claimed.
Proof.
  intros claim.
  assert (∃ m, match_ (call equipped
                         (CreateMatch 1 [anna; bert] "x01" 3 unset None) 0) = Some m
               ∧ Match.state m = pending ∧ activeCount m = 1%nat)
    as (m & Hm & Hstate & Hcount).
  { eexists. split; [vm_compute; reflexivity |]. split; reflexivity. }
  destruct (claim _ m (reachable_call _ _ _ (reachable_new equipped eq_refl)) Hm)
    as [_ Hidle].
  rewrite Hidle in Hcount; [discriminate Hcount |].
  rewrite Hstate. discriminate.
Qed.

(** C3, amended: in every match state reachable through the calls of
    the manager in which the players' ids are all different, exactly one
    player has [isActive] set, the one at [activePlayerIndex] - in state
    [active] and in every other state alike. *)
Theorem one_active_player mgr m :
  reachable mgr →
  match_ mgr = Some m →
  NoDup (ids m) →
  activeCount m = 1%nat
  ∧ ∃ p, Match.players m !! Match.activePlayerIndex m = Some p
         ∧ Player.isActive p = true.
Proof.
  intros Hreach Hm Hnodup.
  pose proof (reachable_active mgr Hreach m Hm Hnodup) as Hok.
  split; [apply activeOk_count | apply activeOk_player]; exact Hok.
Qed.

Lemma one_active_player_witness :
  ∃ m, match_ beforeCheckout = Some m
       ∧ Match.state m = active
       ∧ activeCount m = 1%nat.
Proof.
  assert (∃ m, match_ beforeCheckout = Some m
               ∧ Match.state m = active ∧ ids m = [1; 2])
    as (m & Hm & Hstate & Hids).
  { eexists. split; [vm_compute; reflexivity |]. split; reflexivity. }
  exists m. split; [exact Hm |]. split; [exact Hstate |].
  apply (one_active_player beforeCheckout m).
  - apply reachable_calls, reachable_new. reflexivity.
  - exact Hm.
  - rewrite Hids. apply (bool_decide_unpack _). vm_compute. exact I.
Defined.

(** ** The statistics of a throw *)

(** Anna and Bert at 501 each, Anna to throw. *)
Definition standardGame : MatchManager.t :=
  calls equipped
    [CreateMatch 1 [anna; bert] "x01" 3 unset None;
     StartWarmup; EndWarmup; SetBullWinner 1] 0.

(** The statistics of player [playerId] in the match a manager holds. *)
Definition statsOf (mgr : MatchManager.t) (playerId : Z)
    : option StatsTracker.PlayerStats :=
  m ← match_ mgr; StatsTracker.players (Match.stats m) !! playerId.

(** C4: [processThrow] never calls [updatePlayerThrow].  Anna's T20 at
    501 is accepted and scored, yet her Statistics record is the empty one
    it was; the accumulator would have counted one dart, 60 points and an
    average of 180.  After her 141 checkout, nine darts into the leg, the
    record still shows no dart, no point and no checkout. *)
Theorem throw_leaves_statistics_untouched :
  (∃ mgr' r,
     processThrow standardGame 1 "T20" 60 None 0 = Ok (mgr', r)
     ∧ Validator.valid (validationResult r) = true
     ∧ bust r = false
     ∧ statsOf standardGame 1 = Some StatsTracker.initPlayerStats
     ∧ statsOf mgr' 1 = Some StatsTracker.initPlayerStats)
  ∧ (let counted :=
       StatsTracker.updatePlayerThrow StatsTracker.initPlayerStats 60
         false false false 0 in
     StatsTracker.dartsThrown counted = 1
     ∧ StatsTracker.pointsScored counted = 60
     ∧ StatsTracker.averageThrow counted = 180%float)
  ∧ (∃ mgr' r st,
       processThrow beforeCheckout 1 "D12" 24 None 0 = Ok (mgr', r)
       ∧ gameShot r = true
       ∧ statsOf mgr' 1 = Some st
       ∧ StatsTracker.dartsThrown st = 0
       ∧ StatsTracker.pointsScored st = 0
       ∧ StatsTracker.checkoutAttempts st = 0
       ∧ StatsTracker.checkoutSuccesses st = 0
       ∧ StatsTracker.averageThrow st = 0%float
       ∧ StatsTracker.legDarts st = [9]).
Proof.
  split; [| split].
  - eexists _, _. split; [vm_compute; reflexivity |]. repeat split.
  - repeat split.
  - eexists _, _, _. split; [vm_compute; reflexivity |].
    split; [reflexivity |]. split; [vm_compute; reflexivity |]. repeat split.
Qed.

(** ** What the calls do to the Statistics records *)

(** A view [π] of a Statistics record that neither a bust count nor a
    turn classification changes, and the map of the views of all records
    of a match. *)
Section StatsView.

Context {X : Type} (π : StatsTracker.PlayerStats → X).
Hypothesis π_addBust : ∀ st, π (StatsTracker.addBust st) = π st.
Hypothesis π_updatePlayerTurn :
  ∀ st total, π (StatsTracker.updatePlayerTurn st total) = π st.

Definition view (m : Match.t) : gmap Z X :=
  π <$> StatsTracker.players (Match.stats m).

Lemma view_updatePlayerStats m playerId f :
  view (updatePlayerStats m playerId f)
  = match StatsTracker.players (Match.stats m) !! playerId with
    | Some st => <[playerId := π (f st)]> (view m)
    | None => view m
    end.
Proof.
  unfold view, updatePlayerStats.
  destruct (StatsTracker.players (Match.stats m) !! playerId); [| reflexivity].
  cbn. apply fmap_insert.
Qed.

Lemma view_updatePlayerStats_same m playerId f :
  (∀ st, π (f st) = π st) → view (updatePlayerStats m playerId f) = view m.
Proof.
  intros Hf. rewrite view_updatePlayerStats.
  destruct (StatsTracker.players (Match.stats m) !! playerId) as [st |] eqn:Hst;
    [| reflexivity].
  rewrite Hf. apply insert_id. unfold view. rewrite lookup_fmap, Hst. reflexivity.
Qed.

(** The parts of a match that the leg count depends on. *)
Definition steady (m m' : Match.t) : Prop :=
  view m' = view m
  ∧ Match.currentLeg m' = Match.currentLeg m
  ∧ Match.state m' = Match.state m.

Lemma steady_refl m : steady m m.
Proof. repeat split. Qed.

Lemma steady_trans m1 m2 m3 : steady m1 m2 → steady m2 m3 → steady m1 m3.
Proof. intros (? & ? & ?) (? & ? & ?). repeat split; congruence. Qed.

Lemma steady_moveToNextPlayer m now m' : moveToNextPlayer m now = Ok m' → steady m m'.
Proof.
  intros Hmove.
  destruct (Match.players m !! Match.activePlayerIndex m) as [p |] eqn:Hp;
    [| rewrite moveToNextPlayer_Err in Hmove by exact Hp; discriminate Hmove].
  destruct (moveToNextPlayer_Ok m now p Hp)
    as (moved & Hmoved & _ & _ & Hstats & Hstate & Hleg & _).
  rewrite Hmoved in Hmove. injection Hmove as <-.
  split; [| split; assumption].
  unfold view at 1. rewrite Hstats. apply view_updatePlayerStats_same.
  intros st. apply π_updatePlayerTurn.
Qed.

Lemma steady_endTurnOrSuggest m idx dartsInTurn legWon now m' c :
  endTurnOrSuggest m idx dartsInTurn legWon now = Ok (m', c) → steady m m'.
Proof.
  unfold endTurnOrSuggest. intros Hend.
  destruct ((dartsInTurn =? 2) || legWon).
  - destruct (negb legWon).
    + destruct (moveToNextPlayer m now) as [moved |] eqn:Hmoved; [| discriminate Hend].
      cbn in Hend. injection Hend as <- <-. apply (steady_moveToNextPlayer _ _ _ Hmoved).
    + injection Hend as <- <-. apply steady_refl.
  - destruct (Match.players m !! idx); [| discriminate Hend].
    cbn in Hend.
    destruct (checkoutSuggestions (Match.settings m) && _);
      injection Hend as <- <-; apply steady_refl.
Qed.

(** The first block of [processThrow]: without a game shot the views
    stay; with one, the thrower's record is replaced by its
    [updateLegWin], and either the match is completed or a leg is added. *)
Lemma view_applyValidation m idx playerId player v now m1 b g l w :
  applyValidation m idx playerId player v now = Ok (m1, b, g, l, w) →
  l = g
  ∧ (g = false → steady m m1)
  ∧ (g = true →
       view m1
       = match StatsTracker.players (Match.stats m) !! playerId with
         | Some st =>
             <[playerId := π (StatsTracker.updateLegWin st (Player.dartsThrown player + 1))]>
               (view m)
         | None => view m
         end
       ∧ (Match.state m1 = completed
          ∨ Match.state m1 = Match.state m
            ∧ Match.currentLeg m1 = Match.currentLeg m + 1)).
Proof.
  unfold applyValidation. intros Happly.
  destruct (Validator.valid v && negb (Validator.bust v)).
  - destruct (Validator.gameShot v).
    + set (won := updatePlayer (updatePlayerStats _ _ _) _ _) in Happly.
      assert (Hwon : view won
                     = match StatsTracker.players (Match.stats m) !! playerId with
                       | Some st =>
                           <[playerId := π (StatsTracker.updateLegWin st
                                               (Player.dartsThrown player + 1))]>
                             (view m)
                       | None => view m
                       end).
      { unfold won. apply (view_updatePlayerStats (updatePlayer m idx _)). }
      assert (Hsame : Match.state won = Match.state m
                      ∧ Match.currentLeg won = Match.currentLeg m).
      { unfold won. cbn -[updatePlayerStats].
        autorewrite with match_fields. split; reflexivity. }
      destruct Hsame as [Hwonstate Hwonleg].
      destruct (Match.legsToWin won <=? getPlayerLegWins won playerId).
      * injection Happly as <- <- <- <- <-. split; [reflexivity |].
        split; [discriminate |]. intros _. split; [exact Hwon |]. left. reflexivity.
      * destruct (setupNextLeg won now) as [next |] eqn:Hnext; [| discriminate Happly].
        cbn in Happly. injection Happly as <- <- <- <- <-.
        apply setupNextLeg_Ok in Hnext
          as (i & starter & _ & _ & _ & Hstats & Hstate & Hleg & _).
        split; [reflexivity |]. split; [discriminate |]. intros _. split.
        -- unfold view at 1. rewrite Hstats. exact Hwon.
        -- right. split; congruence.
    + injection Happly as <- <- <- <- <-. split; [reflexivity |].
      split; [| discriminate]. intros _. repeat split.
  - destruct (Validator.bust v); injection Happly as <- <- <- <- <-;
      (split; [reflexivity |]; split; [| discriminate]; intros _).
    + split; [| split; autorewrite with match_fields; reflexivity].
      apply (view_updatePlayerStats_same (updatePlayer m idx _)). exact π_addBust.
    + apply steady_refl.
Qed.

(** [processThrow] as a whole. *)
Lemma view_processThrow mgr m playerId segment score coordinates now mgr' r :
  match_ mgr = Some m →
  processThrow mgr playerId segment score coordinates now = Ok (mgr', r) →
  ∃ m' player,
    match_ mgr' = Some m'
    ∧ Match.state m = active
    ∧ player ∈ Match.players m
    ∧ Player.id player = playerId
    ∧ (gameShot r = false → steady m m')
    ∧ (gameShot r = true →
         view m'
         = match StatsTracker.players (Match.stats m) !! playerId with
           | Some st =>
               <[playerId := π (StatsTracker.updateLegWin st (Player.dartsThrown player + 1))]>
                 (view m)
           | None => view m
           end
         ∧ (Match.state m' = completed
            ∨ Match.state m' = Match.state m
              ∧ Match.currentLeg m' = Match.currentLeg m + 1)).
Proof.
  intros Hm Hcall. unfold processThrow in Hcall. rewrite Hm in Hcall.
  cbn [orThrow mbind result_bind] in Hcall.
  destruct (decide (Match.state m = active)) as [Hactive | Hidle];
    [rewrite bool_decide_eq_true_2 in Hcall by exact Hactive
    | rewrite bool_decide_eq_false_2 in Hcall by exact Hidle; discriminate Hcall].
  destruct (JS.findIndex (hasId playerId) (Match.players m)) as [idx |] eqn:Hidx;
    [| discriminate Hcall].
  cbn [orThrow mbind result_bind negb] in Hcall.
  destruct (negb (idx =? Match.activePlayerIndex m)%nat); [discriminate Hcall |].
  apply findIndex_Some in Hidx as (player & Hplayer & Hid). apply Z.eqb_eq in Hid.
  rewrite Hplayer in Hcall. cbn [orThrow mbind result_bind] in Hcall.
  destruct (3 <=? Z.of_nat (length (Player.currentTurn player))); [discriminate Hcall |].
  destruct (applyValidation _ idx playerId player _ now)
    as [[[[[m1 b] g] l] w] |] eqn:Hfirst; [| discriminate Hcall].
  cbn [mbind result_bind] in Hcall.
  destruct (endTurnOrSuggest m1 idx _ l now) as [[m2 c] |] eqn:Hsecond;
    [| discriminate Hcall].
  cbn [mbind result_bind] in Hcall. injection Hcall as <- <-.
  apply view_applyValidation in Hfirst as (-> & Hplain & Hshot).
  apply steady_endTurnOrSuggest in Hsecond as (Hview & Hleg & Hstate).
  exists (saveMatchState m2 now), player. split; [reflexivity |].
  split; [exact Hactive |].
  split; [apply list_elem_of_lookup; eauto |]. split; [exact Hid |].
  unfold steady, view in Hplain, Hshot |- *.
  cbn [gameShot updatePlayer saveMatchState Match.stamp Match.setPlayers
       Match.stats Match.state Match.currentLeg] in Hplain, Hshot |- *.
  unfold view in Hview. split.
  - intros Hg. destruct (Hplain Hg) as (Hview1 & Hleg1 & Hstate1).
    repeat split; congruence.
  - intros Hg. destruct (Hshot Hg) as (Hview1 & Hend).
    split; [congruence |]. rewrite Hleg, Hstate. exact Hend.
Qed.

End StatsView.

(** ** The per-throw counters *)

(** The fields of a Statistics record that [updatePlayerThrow]
    maintains. *)
Definition perThrow (st : StatsTracker.PlayerStats)
    : Z * Z * Z * Z * Z * float * float :=
  (StatsTracker.dartsThrown st, StatsTracker.pointsScored st,
   StatsTracker.checkoutAttempts st, StatsTracker.checkoutSuccesses st,
   StatsTracker.highestCheckout st, StatsTracker.averageThrow st,
   StatsTracker.checkoutPercentage st).

Lemma perThrow_updatePlayerTurn st total :
  perThrow (StatsTracker.updatePlayerTurn st total) = perThrow st.
Proof. unfold StatsTracker.updatePlayerTurn. repeat case_match; reflexivity. Qed.

(** No accepted throw, whatever its outcome, changes these fields in
    any record: [processThrow] does not call [updatePlayerThrow]. *)
Lemma processThrow_leaves_perThrow mgr m playerId segment score coordinates now
    mgr' r :
  match_ mgr = Some m →
  processThrow mgr playerId segment score coordinates now = Ok (mgr', r) →
  ∃ m', match_ mgr' = Some m' ∧ view perThrow m' = view perThrow m.
Proof.
  intros Hm Hcall.
  destruct (view_processThrow perThrow (λ st, eq_refl) perThrow_updatePlayerTurn
              _ _ _ _ _ _ _ _ _ Hm Hcall)
    as (m' & player & Hm' & _ & _ & _ & Hplain & Hshot).
  exists m'. split; [exact Hm' |].
  destruct (gameShot r); [| apply (Hplain eq_refl)].
  destruct (Hshot eq_refl) as [-> _].
  destruct (StatsTracker.players (Match.stats m) !! playerId) as [st |] eqn:Hst;
    [| reflexivity].
  apply insert_id. unfold view. rewrite lookup_fmap, Hst. reflexivity.
Qed.

(** ** Legs won *)

(** The legs a player has won are counted in their Statistics record;
    [getPlayerLegWins] reads them there. *)
Definition legsMap (m : Match.t) : gmap Z Z := view StatsTracker.legsWon m.

Definition sumZ (M : gmap Z Z) : Z := map_fold (λ _ v total, v + total) 0 M.

(** The sum of [legsWon] across all players of the match. *)
Definition legsWonTotal (m : Match.t) : Z := sumZ (legsMap m).

Lemma getPlayerLegWins_legsMap m playerId :
  getPlayerLegWins m playerId = default 0 (legsMap m !! playerId).
Proof.
  unfold getPlayerLegWins, legsMap, view. rewrite lookup_fmap.
  destruct (StatsTracker.players (Match.stats m) !! playerId); reflexivity.
Qed.

Lemma sumZ_insert_fresh (M : gmap Z Z) k v :
  M !! k = None → sumZ (<[k := v]> M) = v + sumZ M.
Proof.
  intros Hfresh. unfold sumZ.
  rewrite map_fold_insert_L; [reflexivity | intros; lia | exact Hfresh].
Qed.

Lemma sumZ_insert (M : gmap Z Z) k v w :
  M !! k = Some v → sumZ (<[k := w]> M) = sumZ M - v + w.
Proof.
  intros Hk.
  rewrite <- (insert_delete_eq M k w), sumZ_insert_fresh by apply lookup_delete_eq.
  rewrite <- (insert_delete_id M k v Hk) at 2.
  rewrite sumZ_insert_fresh by apply lookup_delete_eq. lia.
Qed.

Lemma sumZ_zero (M : gmap Z Z) :
  (∀ k v, M !! k = Some v → v = 0) → sumZ M = 0.
Proof.
  induction M as [| k v M Hfresh IH] using map_ind; intros Hzero; [reflexivity |].
  rewrite sumZ_insert_fresh by exact Hfresh.
  rewrite (Hzero k v) by apply lookup_insert_eq.
  rewrite IH; [reflexivity |]. intros j w Hj. apply (Hzero j w).
  rewrite lookup_insert_ne; [exact Hj |]. intros ->. congruence.
Qed.

Lemma initMatchStats_lookup playerIds legsToWin now k :
  StatsTracker.players (StatsTracker.initMatchStats playerIds legsToWin now) !! k
  = if decide (k ∈ playerIds) then Some StatsTracker.initPlayerStats else None.
Proof.
  cbn.
  assert (Hgen : ∀ acc : gmap Z StatsTracker.PlayerStats,
            foldl (λ acc id, <[id := StatsTracker.initPlayerStats]> acc) acc playerIds !! k
            = if decide (k ∈ playerIds) then Some StatsTracker.initPlayerStats
              else acc !! k).
  { induction playerIds as [| id rest IH]; intros acc.
    - cbn. rewrite decide_False by apply not_elem_of_nil. reflexivity.
    - cbn. rewrite IH. destruct (decide (k ∈ rest)) as [Hin | Hout].
      + rewrite decide_True by (apply elem_of_cons; auto). reflexivity.
      + destruct (decide (k = id)) as [-> | Hne].
        * rewrite decide_True by (apply elem_of_cons; auto).
          apply lookup_insert_eq.
        * rewrite decide_False by (rewrite elem_of_cons; tauto).
          apply lookup_insert_ne. congruence. }
  rewrite Hgen. case_decide; [reflexivity | apply lookup_empty].
Qed.

Lemma createMatch_stats mgr boardId players mode legsToWin settings
    now insertedId mgr' m :
  createMatch mgr boardId players mode legsToWin settings now insertedId
  = Ok (mgr', m) →
  Match.stats m = StatsTracker.initMatchStats (ids m) legsToWin now.
Proof.
  intros Hcreate. unfold createMatch in Hcreate.
  destruct (bool_decide (is_Some (match_ mgr))); [discriminate Hcreate |].
  destruct (initializePlayers mgr players) as [setupPlayers |]; [| discriminate Hcreate].
  cbn in Hcreate.
  destruct (head setupPlayers); [| discriminate Hcreate].
  cbn in Hcreate.
  destruct (db mgr); [destruct insertedId |]; injection Hcreate as <- <-; reflexivity.
Qed.

(** What holds of the leg counts in every reachable match: each player
    has a Statistics record, and while the match is not completed the legs
    won add up to the legs played. *)
Definition legInv (m : Match.t) : Prop :=
  (∀ k, k ∈ ids m → is_Some (legsMap m !! k))
  ∧ (Match.state m ≠ completed → legsWonTotal m = Match.currentLeg m - 1).

(** A step that changes no leg count and revives no completed match. *)
Definition quiet (m m' : Match.t) : Prop :=
  ids m' = ids m
  ∧ legsMap m' = legsMap m
  ∧ Match.currentLeg m' = Match.currentLeg m
  ∧ (Match.state m' ≠ completed → Match.state m ≠ completed).

Lemma legInv_quiet m m' : quiet m m' → legInv m → legInv m'.
Proof.
  intros (Hids & Hmap & Hleg & Hstate) [Hdom Hsum]. split.
  - intros k Hk. rewrite Hmap. apply Hdom. rewrite <- Hids. exact Hk.
  - intros Hopen. unfold legsWonTotal. rewrite Hmap, Hleg. apply Hsum, Hstate, Hopen.
Qed.

Lemma legsWon_addBust st :
  StatsTracker.legsWon (StatsTracker.addBust st) = StatsTracker.legsWon st.
Proof. reflexivity. Qed.

Lemma legsWon_updatePlayerTurn st total :
  StatsTracker.legsWon (StatsTracker.updatePlayerTurn st total)
  = StatsTracker.legsWon st.
Proof. unfold StatsTracker.updatePlayerTurn. repeat case_match; reflexivity. Qed.

Lemma legInv_createMatch mgr boardId players mode legsToWin settings
    now insertedId mgr' m :
  createMatch mgr boardId players mode legsToWin settings now insertedId
  = Ok (mgr', m) →
  legInv m.
Proof.
  intros Hcreate.
  pose proof (createMatch_stats _ _ _ _ _ _ _ _ _ _ Hcreate) as Hstats.
  destruct (createMatch_returned _ _ _ _ _ _ _ _ _ _ Hcreate)
    as (_ & _ & _ & Hleg & _).
  assert (Hlookup : ∀ k, legsMap m !! k = if decide (k ∈ ids m) then Some 0 else None).
  { intros k. unfold legsMap, view. rewrite lookup_fmap, Hstats, initMatchStats_lookup.
    case_decide; reflexivity. }
  split.
  - intros k Hk. rewrite Hlookup, decide_True by exact Hk. eauto.
  - intros _. rewrite Hleg. unfold legsWonTotal. apply sumZ_zero.
    intros k v Hk. rewrite Hlookup in Hk. case_decide; congruence.
Qed.

Lemma legInv_processThrow mgr m playerId segment score coordinates now mgr' r :
  match_ mgr = Some m →
  legInv m →
  processThrow mgr playerId segment score coordinates now = Ok (mgr', r) →
  ∃ m',
    match_ mgr' = Some m'
    ∧ legInv m'
    ∧ (gameShot r = true →
         legsMap m' = <[playerId := getPlayerLegWins m playerId + 1]> (legsMap m)).
Proof.
  intros Hm [Hdom Hsum] Hcall.
  destruct (keeps_processThrow _ _ _ _ _ _ _ _ _ Hm Hcall) as (m' & Hm' & Hids & _).
  destruct (view_processThrow StatsTracker.legsWon legsWon_addBust
              legsWon_updatePlayerTurn _ _ _ _ _ _ _ _ _ Hm Hcall)
    as (m'' & player & Hm'' & Hactive & Hin & Hid & Hplain & Hshot).
  rewrite Hm' in Hm''. injection Hm'' as <-.
  exists m'. split; [exact Hm' |].
  assert (Hrecord : is_Some (legsMap m !! playerId)).
  { apply Hdom. unfold ids. rewrite <- Hid. apply list_elem_of_fmap_2. exact Hin. }
  destruct Hrecord as [won Hwon].
  assert (Hshot' : gameShot r = true →
            legsMap m' = <[playerId := won + 1]> (legsMap m)
            ∧ (Match.state m' = completed
               ∨ Match.state m' = Match.state m
                 ∧ Match.currentLeg m' = Match.currentLeg m + 1)).
  { intros Hg. destruct (Hshot Hg) as [Hview Hend]. split; [| exact Hend].
    unfold legsMap. rewrite Hview. unfold legsMap, view in Hwon.
    rewrite lookup_fmap in Hwon.
    destruct (StatsTracker.players (Match.stats m) !! playerId) as [st |];
      [| discriminate Hwon].
    cbn in Hwon. injection Hwon as <-. reflexivity. }
  split; [| intros Hg; rewrite getPlayerLegWins_legsMap, Hwon; apply (Hshot' Hg)].
  destruct (gameShot r) eqn:Hg.
  - destruct (Hshot' eq_refl) as [Hmap Hend]. split.
    + intros k Hk. rewrite Hmap, lookup_insert. case_decide; [eauto |].
      apply Hdom. rewrite <- Hids. exact Hk.
    + intros Hopen. destruct Hend as [Hdone | [Hstate Hleg]]; [contradiction |].
      unfold legsWonTotal. rewrite Hmap, (sumZ_insert _ _ _ _ Hwon), Hleg.
      unfold legsWonTotal in Hsum. rewrite Hsum by congruence. lia.
  - destruct (Hplain eq_refl) as (Hview & Hleg & Hstate).
    apply (legInv_quiet m); [| split; assumption].
    repeat split; [exact Hids | exact Hview | exact Hleg | congruence].
Qed.

Lemma quiet_refl m : quiet m m.
Proof. repeat split. auto. Qed.

Lemma quiet_transition mgr m allowed target now mgr' out :
  allowed completed = false →
  match_ mgr = Some m →
  transition mgr allowed target now = Ok (mgr', out) →
  ∃ m', match_ mgr' = Some m' ∧ quiet m m'.
Proof.
  intros Hclosed Hm Hcall. unfold transition in Hcall. rewrite Hm in Hcall.
  cbn [orThrow mbind result_bind] in Hcall.
  destruct (allowed (Match.state m)) eqn:Hallowed; [| discriminate Hcall].
  injection Hcall as <- <-. eexists. split; [reflexivity |].
  repeat split. intros _ Hdone. congruence.
Qed.

Lemma quiet_setBullWinner mgr m playerId now mgr' out :
  match_ mgr = Some m →
  setBullWinner mgr playerId now = Ok (mgr', out) →
  ∃ m', match_ mgr' = Some m' ∧ quiet m m'.
Proof.
  intros Hm Hcall.
  destruct (keeps_setBullWinner _ _ _ _ _ _ Hm Hcall) as (m' & Hm' & Hids & _).
  exists m'. split; [exact Hm' |].
  unfold setBullWinner in Hcall. rewrite Hm in Hcall.
  cbn [orThrow mbind result_bind] in Hcall.
  destruct (decide (Match.state m = bullshot)) as [Hbull | Hother];
    [rewrite bool_decide_eq_true_2 in Hcall by exact Hbull
    | rewrite bool_decide_eq_false_2 in Hcall by exact Hother; discriminate Hcall].
  destruct (JS.findIndex (hasId playerId) (Match.players m)); [| discriminate Hcall].
  cbn [orThrow mbind result_bind negb] in Hcall. injection Hcall as <- <-.
  cbn in Hm'. injection Hm' as <-.
  split; [exact Hids |]. repeat split. intros _. rewrite Hbull. discriminate.
Qed.

Lemma quiet_correctThrow mgr m throwId segment score now mgr' r :
  match_ mgr = Some m →
  correctThrow mgr throwId segment score now = Ok (mgr', r) →
  ∃ m', match_ mgr' = Some m' ∧ quiet m m'.
Proof.
  intros Hm Hcall.
  destruct (keeps_correctThrow _ _ _ _ _ _ _ _ Hm Hcall) as (m' & Hm' & Hids & _).
  exists m'. split; [exact Hm' |].
  unfold correctThrow in Hcall. rewrite Hm in Hcall.
  cbn [orThrow mbind result_bind] in Hcall.
  destruct (findThrow (Match.players m) throwId 0) as [[[i k] th] |];
    [| discriminate Hcall].
  cbn [orThrow mbind result_bind] in Hcall.
  destruct (Match.players m !! i); [| discriminate Hcall].
  cbn [orThrow mbind result_bind] in Hcall. injection Hcall as <- <-.
  cbn in Hm'. injection Hm' as <-.
  split; [exact Hids |]. repeat split. auto.
Qed.

Lemma quiet_manualPlayerSwitch mgr m now mgr' :
  match_ mgr = Some m →
  manualPlayerSwitch mgr now = Ok mgr' →
  ∃ m', match_ mgr' = Some m' ∧ quiet m m'.
Proof.
  intros Hm Hcall.
  destruct (keeps_manualPlayerSwitch _ _ _ _ Hm Hcall) as (m' & Hm' & Hids & _).
  exists m'. split; [exact Hm' |].
  unfold manualPlayerSwitch in Hcall. rewrite Hm in Hcall.
  destruct (moveToNextPlayer m now) as [moved |] eqn:Hmoved; [| discriminate Hcall].
  cbn in Hcall. injection Hcall as <-. cbn in Hm'. injection Hm' as <-.
  destruct (steady_moveToNextPlayer StatsTracker.legsWon legsWon_updatePlayerTurn
              _ _ _ Hmoved) as (Hview & Hleg & Hstate).
  split; [exact Hids |]. split; [exact Hview |]. split; [exact Hleg |]. congruence.
Qed.

Lemma quiet_endMatch mgr m winningPlayerId now mgr' out :
  match_ mgr = Some m →
  endMatch mgr winningPlayerId now = Ok (mgr', out) →
  ∃ m', match_ mgr' = Some m' ∧ quiet m m'.
Proof.
  intros Hm Hcall.
  destruct (keeps_endMatch _ _ _ _ _ _ Hm Hcall) as (m' & Hm' & Hids & _).
  exists m'. split; [exact Hm' |].
  unfold endMatch in Hcall. rewrite Hm in Hcall.
  cbn [orThrow mbind result_bind] in Hcall. injection Hcall as <- <-.
  cbn in Hm'. injection Hm' as <-.
  split; [exact Hids |].
  split; [| split; [| intros Hopen; exfalso; apply Hopen; reflexivity]];
    repeat case_match; reflexivity.
Qed.

(** Every call keeps the leg counts in order. *)
Lemma call_legInv mgr c now :
  (∀ m, match_ mgr = Some m → legInv m) →
  ∀ m', match_ (call mgr c now) = Some m' → legInv m'.
Proof.
  intros Hinv m' Hafter.
  destruct (match_ mgr) as [m |] eqn:Hm.
  - (* a match is loaded *)
    specialize (Hinv m eq_refl).
    assert (Hkept : ∃ m'', match_ (call mgr c now) = Some m'' ∧ legInv m'').
    { assert (Hidle : ∃ m'', match_ mgr = Some m'' ∧ legInv m'') by eauto.
      assert (Hquiet : ∀ mgr', (∃ m', match_ mgr' = Some m' ∧ quiet m m') →
                ∃ m'', match_ mgr' = Some m'' ∧ legInv m'').
      { intros mgr' (m1 & Hm1 & Hq). exists m1. split; [exact Hm1 |].
        apply (legInv_quiet m); assumption. }
      destruct c; cbn [call after].
      - unfold createMatch. rewrite Hm.
        rewrite bool_decide_eq_true_2 by eauto. exact Hidle.
      - unfold startMatch.
        destruct (transition mgr _ warmup now) as [[mgr' out] |] eqn:Hcall;
          [| exact Hidle].
        apply Hquiet. eapply quiet_transition; [| exact Hm | exact Hcall]. reflexivity.
      - unfold startWarmup.
        destruct (transition mgr _ warmup now) as [[mgr' out] |] eqn:Hcall;
          [| exact Hidle].
        apply Hquiet. eapply quiet_transition; [| exact Hm | exact Hcall]. reflexivity.
      - unfold endWarmup.
        destruct (transition mgr _ bullshot now) as [[mgr' out] |] eqn:Hcall;
          [| exact Hidle].
        apply Hquiet. eapply quiet_transition; [| exact Hm | exact Hcall]. reflexivity.
      - destruct (setBullWinner mgr playerId now) as [[mgr' out] |] eqn:Hcall;
          [| exact Hidle].
        apply Hquiet. eapply quiet_setBullWinner; eassumption.
      - destruct (processThrow mgr playerId segment score coordinates now)
          as [[mgr' out] |] eqn:Hcall; [| exact Hidle].
        destruct (legInv_processThrow _ _ _ _ _ _ _ _ _ Hm Hinv Hcall)
          as (m1 & Hm1 & Hinv1 & _).
        eauto.
      - destruct (correctThrow mgr throwId segment score now)
          as [[mgr' out] |] eqn:Hcall; [| exact Hidle].
        apply Hquiet. eapply quiet_correctThrow; eassumption.
      - destruct (manualPlayerSwitch mgr now) as [mgr' |] eqn:Hcall; [| exact Hidle].
        apply Hquiet. eapply quiet_manualPlayerSwitch; eassumption.
      - destruct (endMatch mgr winningPlayerId now) as [[mgr' out] |] eqn:Hcall;
          [| exact Hidle].
        apply Hquiet. eapply quiet_endMatch; eassumption.
      - unfold autosave. rewrite Hm. destruct (autosaveTimer mgr); [| exact Hidle].
        apply Hquiet. eexists. split; [reflexivity |]. repeat split. auto. }
    destruct Hkept as (m'' & Hm'' & Hinv''). congruence.
  - (* no match is loaded: only [createMatch] can load one *)
    destruct c; cbn [call after] in Hafter;
      try (unfold startMatch, startWarmup, endWarmup, transition, setBullWinner,
             processThrow, correctThrow, manualPlayerSwitch, endMatch, autosave
             in Hafter;
           rewrite Hm in Hafter; cbn in Hafter; congruence).
    destruct (createMatch mgr boardId players mode legsToWin settings now insertedId)
      as [[mgr' out] |] eqn:Hcall; cbn in Hafter; [| congruence].
    pose proof (legInv_createMatch _ _ _ _ _ _ _ _ _ _ Hcall) as Hcreated.
    apply createMatch_returned in Hcall as (_ & Hloaded & _).
    rewrite Hloaded in Hafter. injection Hafter as <-. exact Hcreated.
Qed.

Lemma reachable_legInv mgr :
  reachable mgr → ∀ m, match_ mgr = Some m → legInv m.
Proof.
  induction 1 as [mgr Hnone | mgr c now Hreach IH]; intros m Hm.
  - congruence.
  - apply (call_legInv mgr c now IH m Hm).
Qed.

(** X29: The legs won that the engine counts are those of the
    statistics records, one record for each player id, which
    [getPlayerLegWins] reads.  In every match reachable through the calls
    of the manager that is not completed their sum is [currentLeg - 1]; and
    a game shot adds exactly one to the record of the thrower and leaves
    the record of every other id as it was. *)
Theorem legs_won mgr m :
  reachable mgr →
  match_ mgr = Some m →
  (Match.state m ≠ completed → legsWonTotal m = Match.currentLeg m - 1)
  ∧ ∀ playerId segment score coordinates now mgr' r m',
      processThrow mgr playerId segment score coordinates now = Ok (mgr', r) →
      gameShot r = true →
      match_ mgr' = Some m' →
      getPlayerLegWins m' playerId = getPlayerLegWins m playerId + 1
      ∧ ∀ other, other ≠ playerId →
          getPlayerLegWins m' other = getPlayerLegWins m other.
Proof.
  intros Hreach Hm.
  pose proof (reachable_legInv mgr Hreach m Hm) as Hinv.
  split; [apply Hinv |].
  intros playerId segment score coordinates now mgr' r m' Hcall Hshot Hm'.
  destruct (legInv_processThrow _ _ _ _ _ _ _ _ _ Hm Hinv Hcall)
    as (m'' & Hm'' & _ & Hmap).
  rewrite Hm' in Hm''. injection Hm'' as <-.
  rewrite !getPlayerLegWins_legsMap, (Hmap Hshot), lookup_insert_eq.
  split; [rewrite getPlayerLegWins_legsMap; reflexivity |].
  intros other Hother.
  rewrite !getPlayerLegWins_legsMap, (Hmap Hshot), lookup_insert_ne by congruence.
  reflexivity.
Qed.

Lemma legs_won_witness :
  ∃ m mgr' r m',
    match_ beforeCheckout = Some m
    ∧ processThrow beforeCheckout 1 "D12" 24 None 0 = Ok (mgr', r)
    ∧ match_ mgr' = Some m'
    ∧ legsWonTotal m = Match.currentLeg m - 1
    ∧ Match.currentLeg m = 1
    ∧ getPlayerLegWins m' 1 = getPlayerLegWins m 1 + 1
    ∧ getPlayerLegWins m' 2 = getPlayerLegWins m 2.
Proof.
  assert (∃ m mgr' r m',
            match_ beforeCheckout = Some m
            ∧ processThrow beforeCheckout 1 "D12" 24 None 0 = Ok (mgr', r)
            ∧ match_ mgr' = Some m'
            ∧ Match.state m = active
            ∧ Match.currentLeg m = 1
            ∧ gameShot r = true)
    as (m & mgr' & r & m' & Hm & Hcall & Hm' & Hstate & Hleg & Hshot).
  { eexists _, _, _, _. split; [vm_compute; reflexivity |].
    split; [vm_compute; reflexivity |]. repeat split. }
  destruct (legs_won beforeCheckout m) as [Hsum Hwin].
  - apply reachable_calls, reachable_new. reflexivity.
  - exact Hm.
  - exists m, mgr', r, m'.
    destruct (Hwin 1 "D12" 24 None 0 mgr' r m' Hcall Hshot Hm') as [Hthrower Hothers].
    repeat (split; [assumption |]).
    split; [apply Hsum; rewrite Hstate; discriminate |].
    split; [exact Hleg |]. split; [exact Hthrower |].
    apply Hothers. discriminate.
Defined.

(** C6: the [legsWon] of the players is not kept.  [initializePlayers]
    sets it to 0 and nothing assigns it after that: when Anna has won the
    first leg the match is in its second leg, still active, and the
    [legsWon] of both players is 0, so that the sum across the players is
    0 where [currentLeg - 1] is 1.  The leg is counted in Anna's
    statistics record only, which is what [getPlayerLegWins] reads. *)
Theorem player_legsWon_is_not_written :
  ∃ mgr' r m',
    processThrow beforeCheckout 1 "D12" 24 None 0 = Ok (mgr', r)
    ∧ gameShot r = true
    ∧ legWon r = true
    ∧ match_ mgr' = Some m'
    ∧ Match.state m' = active
    ∧ Match.currentLeg m' = 2
    ∧ Player.legsWon <$> Match.players m' = [Some 0; Some 0]
    ∧ getPlayerLegWins m' 1 = 1
    ∧ getPlayerLegWins m' 2 = 0.
Proof.
  eexists _, _, _. split; [vm_compute; reflexivity |]. repeat split.
Qed.

End MatchManagerSpec.


(** * Saving and loading *)

Module PersistenceSpec.

Import MatchManager MatchManagerSpec Persistence.

(** A database that knows Anna and Bert and nothing else. *)
Definition registered : Database.t :=
  {| Database.matches := [];
     Database.match_players := [];
     Database.players :=
       [ {| Database.PlayerRow.id := 1; Database.PlayerRow.name := "Anna";
            Database.PlayerRow.nickname := None; Database.PlayerRow.avatar := None |};
         {| Database.PlayerRow.id := 2; Database.PlayerRow.name := "Bert";
            Database.PlayerRow.nickname := None; Database.PlayerRow.avatar := None |} ];
     Database.leg_starters := [];
     Database.throws := [] |}.

(** A manager with a database, after Bert, who won the bull, has thrown
    a T20; the match was given the row id 1 when it was created. *)
Definition bertHasThrown : MatchManager.t :=
  calls {| match_ := None; this_settings := Some standard;
           db := true; autosaveTimer := false |}
    [CreateMatch 1 [anna; bert] "x01" 5 unset (Some 1);
     StartWarmup; EndWarmup; SetBullWinner 2;
     ProcessThrow 2 "T20" 60 None] 0.

(** What the claim lists of a match: legs to win, and per player the
    score, the position, the active flag and the throws on record, with
    the leg starters. *)
Definition snapshot (m : Match.t)
    : Z * list (Z * Z * bool * list (string * Z)) * list (option Z) :=
  (Match.legsToWin m,
   (λ p, (Player.score p, Player.position p, Player.isActive p,
          (λ th, (Throw.segment th, Throw.score th))
            <$> (Player.history p ++ Player.currentTurn p)%list))
     <$> Match.players m,
   Match.legStarters m).

(** C10: what [saveMatchToDb] writes is not enough for [loadMatch].
    Saved with its throw on record and loaded again, the match is back at
    501 for Bert, first to three legs instead of five, with Anna active and
    named as starter of the leg. *)
Theorem saved_match_does_not_load_back :
  ∃ m thrown db id mgr' m',
    match_ bertHasThrown = Some m
    ∧ Player.currentTurn <$> Match.players m = [[]; [thrown]]
    ∧ saveMatchToDb m (saveThrowToDb m thrown registered).1 = (db, id)
    ∧ id = Match.id m
    ∧ loadMatch (constructor true) db id 0 = Ok (mgr', m')
    ∧ snapshot m
      = (5, [(501, 1, false, []); (441, 2, true, [("T20", 60)])], [Some 2])
    ∧ snapshot m'
      = (3, [(501, 1, true, []); (501, 2, false, [("T20", 60)])], [Some 1]).
Proof.
  eexists _, _, _, _, _, _. split; [vm_compute; reflexivity |].
  split; [reflexivity |]. split; [vm_compute; reflexivity |].
  split; [reflexivity |]. split; [vm_compute; reflexivity |].
  split; reflexivity.
Qed.

End PersistenceSpec.

(** * Further properties of the validator *)

Module ValidatorFacts.

Import Validator ValidatorSpec.

(** X1: The verdict of [validateX01Throw] is well formed on every input: it
    is invalid exactly for a negative throw score; a bust is never a game
    shot and carries no new score; a game shot carries the new score 0; and
    a valid verdict that is no bust carries a new score between 0 and the
    current score, so that the [newScore!] of [processThrow] is always
    there and a score never goes up or below zero. *)
Theorem verdict_well_formed currentScore segment throwScore dartsThrown options :
  let r := validateX01Throw currentScore segment throwScore dartsThrown options in
  (valid r = false ↔ throwScore < 0)
  ∧ (valid r = false → bust r = false ∧ gameShot r = false ∧ newScore r = None)
  ∧ (bust r = true → gameShot r = false ∧ newScore r = None)
  ∧ (gameShot r = true → newScore r = Some 0 ∧ currentScore = throwScore)
  ∧ (valid r = true → bust r = false →
       ∃ n, newScore r = Some n ∧ 0 ≤ n ≤ currentScore).
Proof.
  unfold validateX01Throw.
  destruct (Z.ltb_spec throwScore 0) as [Hneg | Hpos].
  { cbn. repeat split; intros; try discriminate; try lia; auto. }
  destruct (doubleIn options && (currentScore =? 501) && negb (isDouble segment))
    eqn:Hin.
  { apply andb_prop in Hin as [Hin _]. apply andb_prop in Hin as [_ Hstart].
    apply Z.eqb_eq in Hstart. cbn.
    repeat split; intros; try discriminate; try lia.
    exists currentScore. split; [reflexivity | lia]. }
  cbv zeta.
  destruct (Z.ltb_spec (currentScore - throwScore) 0) as [Hbelow | Hroom].
  { cbn. repeat split; intros; try discriminate; try lia. }
  destruct ((currentScore - throwScore =? 1) && doubleOut options).
  { cbn. repeat split; intros; try discriminate; try lia. }
  destruct (Z.eqb_spec (currentScore - throwScore) 0) as [Hzero | Hleft].
  - destruct (doubleOut options && negb (isDouble segment));
      [| destruct (masterOut options && negb (isMaster segment))];
      cbn; repeat split; intros; try discriminate; try lia.
    exists 0. split; [reflexivity | lia].
  - cbn. repeat split; intros; try discriminate; try lia.
    exists (currentScore - throwScore). split; [reflexivity | lia].
Qed.

(** X2: The out rules.  For a throw to which the double-in rule does not
    apply: a dart that leaves exactly 1 is a bust under [doubleOut] and is
    scored otherwise, also under [masterOut]; a dart that reaches exactly 0
    wins the leg if it is a double under [doubleOut], else if it is a
    double or a treble under [masterOut], else always, and is a bust when
    it does not win.  [doubleOut] goes before [masterOut]. *)
Theorem out_rules currentScore segment throwScore dartsThrown options :
  0 ≤ throwScore →
  mustStartWithDouble options currentScore segment = false →
  let r := validateX01Throw currentScore segment throwScore dartsThrown options in
  (currentScore - throwScore = 1 →
     bust r = doubleOut options
     ∧ gameShot r = false
     ∧ (doubleOut options = false → newScore r = Some 1))
  ∧ (currentScore - throwScore = 0 →
       gameShot r
       = (if doubleOut options then isDouble segment
          else if masterOut options then isMaster segment
          else true)
       ∧ bust r = negb (gameShot r)).
Proof.
  unfold mustStartWithDouble, validateX01Throw. intros Hts ->.
  destruct (Z.ltb_spec throwScore 0); [lia |]. cbv zeta.
  split; intros Hleft; rewrite Hleft; cbn.
  - destruct (doubleOut options); cbn; repeat split; auto; discriminate.
  - unfold isMaster.
    destruct (doubleOut options), (masterOut options), (isDouble segment),
      (isTriple segment); cbn; split; reflexivity.
Qed.

Lemma out_rules_witness :
  gameShot (validateX01Throw 60 "T20" 60 2
              {| doubleIn := false; doubleOut := false; masterOut := true |})
  = true.
Proof.
  pose proof (out_rules 60 "T20" 60 2
                {| doubleIn := false; doubleOut := false; masterOut := true |}
                ltac:(lia) eq_refl) as [_ Hzero].
  destruct (Hzero eq_refl) as [Hshot _]. exact Hshot.
Defined.

End ValidatorFacts.

(** * Further properties of the checkout suggestions *)

Module CheckoutFacts.

Import Validator ValidatorSpec CheckoutSpec.

(** The scores 1 to 170. *)
Definition scores : list Z := Z.of_nat <$> seq 1 170.

(** The inputs on which the last branch of [getCheckoutSuggestion]
    gives a path that finishes nothing. *)
Definition misled (score dartsLeft : Z) : bool :=
  (JS.rem score 2 =? 1)
  && ((score =? 1)
      || ((dartsLeft =? 1) && (score <=? 39))
      || ((dartsLeft =? 2) && (99 <=? score) && (score <=? 109))).

(** The checks that are run on each score from 1 to 170. *)
Definition soundAt (dartsLeft score : Z) : bool :=
  match getCheckoutSuggestion score dartsLeft with
  | Some path => Bool.eqb (isFinish score dartsLeft path) (negb (misled score dartsLeft))
  | None => true
  end.

Definition headAt (dartsLeft score : Z) : bool :=
  match getCheckoutSuggestion score dartsLeft with
  | Some path =>
      if misled score dartsLeft
      then match path with
           | label :: _ => String.eqb label "S1"
           | [] => false
           end
      else true
  | None => true
  end.

Definition agreesAt (score : Z) : bool :=
  Bool.eqb (bool_decide (is_Some (getCheckoutSuggestion score 3)))
    (StatsTracker.isCheckoutPosition score).

(** The darts of a suggested path thrown one after the other and put
    to the validator, each with the points its label stands for: the
    verdict on the last dart, [None] when an earlier dart ends the turn or
    a label has no points. *)
Fixpoint replay (options : ValidatorOptions) (score : Z) (path : list string)
    : option ValidationResult :=
  match path with
  | [] => None
  | label :: rest =>
      points ← segmentPoints label;
      let r := validateX01Throw score label points 0 options in
      match rest with
      | [] => Some r
      | _ :: _ =>
          if valid r && negb (bust r) && negb (gameShot r)
          then left ← newScore r; replay options left rest
          else None
      end
  end.

Definition endsOnBull (path : list string) : bool :=
  match last path with
  | Some label => String.eqb label "BULL"
  | None => false
  end.

Definition replayAt (options : ValidatorOptions) (score : Z) : bool :=
  match getCheckoutSuggestion score 3 with
  | Some path =>
      match replay options score path with
      | Some r =>
          Bool.eqb (gameShot r) (negb (endsOnBull path))
          && Bool.eqb (bust r) (endsOnBull path)
      | None => false
      end
  | None => true
  end.

Lemma scores_spec score : 1 ≤ score ≤ 170 → score ∈ scores.
Proof.
  intros Hscore. unfold scores. apply list_elem_of_fmap.
  exists (Z.to_nat score). split; [lia |].
  apply elem_of_seq. lia.
Qed.

(** A property of the scores 1 to 170 that is checked by running the
    function on each of them holds for all of them. *)
Lemma by_evaluation (check : Z → bool) score :
  forallb check scores = true → 1 ≤ score ≤ 170 → check score = true.
Proof.
  intros Hall Hscore. rewrite forallb_forall in Hall.
  apply Hall, list_elem_of_In, scores_spec, Hscore.
Qed.

(** Outside 1 to 170 there is no suggestion, whatever the darts. *)
Lemma suggestion_out_of_range score dartsLeft :
  ¬ 1 ≤ score ≤ 170 → getCheckoutSuggestion score dartsLeft = None.
Proof.
  intros Hout. destruct (Z.le_gt_cases score 0).
  - apply suggestion_not_positive. assumption.
  - apply suggestion_above_170. lia.
Qed.

Lemma suggestion_is_finish_at score dartsLeft path :
  1 ≤ dartsLeft ≤ 3 →
  getCheckoutSuggestion score dartsLeft = Some path →
  isFinish score dartsLeft path = negb (misled score dartsLeft).
Proof.
  intros Hdarts Hpath.
  assert (Hscore : 1 ≤ score ≤ 170).
  { destruct (decide (1 ≤ score ≤ 170)) as [Hin | Hout]; [exact Hin |].
    rewrite suggestion_out_of_range in Hpath by exact Hout. discriminate Hpath. }
  assert (Hsound : soundAt dartsLeft score = true).
  { assert (Hcases : dartsLeft = 1 ∨ dartsLeft = 2 ∨ dartsLeft = 3) by lia.
    destruct Hcases as [-> | [-> | ->]];
      (apply by_evaluation; [vm_compute; reflexivity | exact Hscore]). }
  unfold soundAt in Hsound. rewrite Hpath in Hsound.
  apply Bool.eqb_prop. exact Hsound.
Qed.

(** X3: With one, two or three darts in hand, a path that
    [getCheckoutSuggestion] returns is a finish (it adds up to the score,
    is no longer than the darts in hand and ends on a double or the bull)
    except on these inputs, where it is none: the score 1, an odd score
    up to 39 with one dart, an odd score from 99 to 109 with two darts.
    There the path begins with the S1 that the last branch of the function
    puts in front. *)
Theorem suggestion_is_finish score dartsLeft path :
  1 ≤ dartsLeft ≤ 3 →
  getCheckoutSuggestion score dartsLeft = Some path →
  isFinish score dartsLeft path = negb (misled score dartsLeft)
  ∧ (misled score dartsLeft = true → hd_error path = Some "S1").
Proof.
  intros Hdarts Hpath.
  split; [apply suggestion_is_finish_at; assumption |].
  intros Hmisled.
  assert (Hscore : 1 ≤ score ≤ 170).
  { destruct (decide (1 ≤ score ≤ 170)) as [Hin | Hout]; [exact Hin |].
    rewrite suggestion_out_of_range in Hpath by exact Hout. discriminate Hpath. }
  assert (Hhead : headAt dartsLeft score = true).
  { assert (Hcases : dartsLeft = 1 ∨ dartsLeft = 2 ∨ dartsLeft = 3) by lia.
    destruct Hcases as [-> | [-> | ->]];
      (apply by_evaluation; [vm_compute; reflexivity | exact Hscore]). }
  unfold headAt in Hhead. rewrite Hpath, Hmisled in Hhead.
  destruct path as [| label path]; [discriminate Hhead |].
  cbn in Hhead |- *. apply String.eqb_eq in Hhead. congruence.
Qed.

Lemma suggestion_is_finish_witness :
  isFinish 121 3 ["T20"; "T19"; "D2"] = negb (misled 121 3)
  ∧ (misled 121 3 = true → hd_error ["T20"; "T19"; "D2"] = Some "S1").
Proof.
  apply (suggestion_is_finish 121 3 ["T20"; "T19"; "D2"]);
    [lia | vm_compute; reflexivity].
Defined.

(** X4: [isCheckoutPosition] of the statistics tracker and
    [getCheckoutSuggestion] of the validator agree on the positive
    scores: with three darts in hand a path is suggested exactly for the
    scores that are a checkout position.  Every score of 0 or less is a
    checkout position too, and gets no suggestion. *)
Theorem checkout_position_agrees score :
  (is_Some (getCheckoutSuggestion score 3)
   ↔ StatsTracker.isCheckoutPosition score = true ∧ 0 < score)
  ∧ (score ≤ 0 → StatsTracker.isCheckoutPosition score = true).
Proof.
  split.
  - destruct (decide (1 ≤ score ≤ 170)) as [Hin | Hout].
    + assert (Hagree : agreesAt score = true)
        by (apply by_evaluation; [vm_compute; reflexivity | exact Hin]).
      unfold agreesAt in Hagree. apply Bool.eqb_prop in Hagree.
      rewrite <- Hagree, bool_decide_eq_true. intuition lia.
    + rewrite suggestion_out_of_range by exact Hout. split.
      * intros [path Hpath]. discriminate Hpath.
      * intros [Hposition Hscore].
        unfold StatsTracker.isCheckoutPosition in Hposition.
        destruct (Z.leb_spec score 170); [lia | discriminate Hposition].
  - intros Hscore. unfold StatsTracker.isCheckoutPosition.
    destruct (Z.leb_spec score 170); [| lia].
    repeat match goal with
           | |- context [?a =? ?b] => destruct (Z.eqb_spec a b); [lia |]
           end.
    reflexivity.
Qed.

(** X5: The suggestions and the double-out rule.  From 2 points up, with
    three darts in hand and [doubleOut] set, the darts of a suggested path
    thrown as labelled are all accepted by [validateX01Throw], and the
    last one is the game shot, unless the path ends on the label [BULL]:
    that label stands for the 50 points of the bullseye in the
    suggestions, but is no double to the validator, which wants [DBULL],
    so the last dart of such a path (for 50, 161, 164, 167 and 170) is a
    bust. *)
Theorem suggestion_replayed options score path :
  doubleOut options = true →
  2 ≤ score →
  getCheckoutSuggestion score 3 = Some path →
  ∃ r, replay options score path = Some r
       ∧ gameShot r = negb (endsOnBull path)
       ∧ bust r = endsOnBull path.
Proof.
  intros Hout Hscore Hpath.
  assert (Hin : 1 ≤ score ≤ 170).
  { destruct (decide (1 ≤ score ≤ 170)) as [Hin | Hno]; [exact Hin |].
    rewrite suggestion_out_of_range in Hpath by exact Hno. discriminate Hpath. }
  assert (Hreplay : replayAt options score = true).
  { destruct (decide (score = 1)) as [-> | Hne]; [lia |].
    assert (Hall : ∀ o, doubleOut o = true →
              forallb (λ s, (s =? 1) || replayAt o s) scores = true).
    { intros [[] [] []]; intros Ho; try discriminate Ho; vm_compute; reflexivity. }
    pose proof (by_evaluation _ score (Hall options Hout) Hin) as Hcheck.
    cbv beta in Hcheck. destruct (Z.eqb_spec score 1); [lia | exact Hcheck]. }
  unfold replayAt in Hreplay. rewrite Hpath in Hreplay.
  destruct (replay options score path) as [r |]; [| discriminate Hreplay].
  apply andb_prop in Hreplay as [Hshot Hbust].
  exists r. split; [reflexivity |].
  split; apply Bool.eqb_prop; assumption.
Qed.

Lemma suggestion_replayed_witness :
  ∃ r, replay doubleInOut 170 ["T20"; "T20"; "BULL"] = Some r
       ∧ gameShot r = negb (endsOnBull ["T20"; "T20"; "BULL"])
       ∧ bust r = endsOnBull ["T20"; "T20"; "BULL"].
Proof.
  apply (suggestion_replayed doubleInOut 170 ["T20"; "T20"; "BULL"]);
    [reflexivity | lia | vm_compute; reflexivity].
Defined.

End CheckoutFacts.

(** * Further properties of the statistics tracker *)

Module StatsTrackerFacts.

Import StatsTracker.

(** The fields of a record that a turn classification leaves alone. *)
Definition besidesTons (stats : PlayerStats)
    : Z * Z * Z * list Z * Z * Z * Z * Z * float * float * float * Z :=
  (dartsThrown stats, pointsScored stats, legsWon stats, legDarts stats,
   busts stats, checkoutAttempts stats, checkoutSuccesses stats,
   highestCheckout stats, averageThrow stats, checkoutPercentage stats,
   dartsPerLeg stats, bestLegDarts stats).

(** The record of a player after winning legs in the given numbers of
    darts, one after the other. *)
Definition afterLegs (legs : list Z) : PlayerStats :=
  foldl updateLegWin initPlayerStats legs.

Definition threeLegs : list Z := [9; 9; 10].

(** A record with the given numbers of checkouts made and tried. *)
Definition withCheckouts (successes attempts : Z) : PlayerStats :=
  {| dartsThrown := 3 * attempts; pointsScored := 0; legsWon := successes;
     legDarts := []; busts := 0;
     checkoutAttempts := attempts; checkoutSuccesses := successes;
     highestCheckout := 0; tonPlus := 0; tonFortyPlus := 0; tonEightyPlus := 0;
     averageThrow := 0%float; checkoutPercentage := 0%float;
     dartsPerLeg := 0%float; bestLegDarts := 0 |}.

(** ** Serialised statistics *)

Lemma parseInt_toString n : JS.parseInt (JS.toString n) = Some n.
Proof.
  unfold JS.parseInt, JS.toString.
  rewrite NilZero.isi.
  - cbn. f_equal. apply DecimalZ.of_to.
  - destruct n; cbn; intros [= H]; eapply Unsigned.to_uint_nonnil; exact H.
  - destruct n; cbn; intros [= H]; eapply Unsigned.to_uint_nonnil; exact H.
Qed.

(** [players.set] over entries with different keys builds the map of
    the entries. *)
Lemma foldl_set_lookup {A} (entries : list (Z * A)) (acc : gmap Z A) k :
  NoDup entries.*1 →
  foldl (λ acc '(id, a), <[id := a]> acc) acc entries !! k
  = match (list_to_map entries : gmap Z A) !! k with
    | Some a => Some a
    | None => acc !! k
    end.
Proof.
  revert acc. induction entries as [| [id a] entries IH]; intros acc Hnodup.
  - reflexivity.
  - apply NoDup_cons in Hnodup as [Hfresh Hnodup]. cbn.
    rewrite IH by exact Hnodup.
    destruct (decide (id = k)) as [-> | Hne].
    + rewrite !lookup_insert_eq.
      rewrite (not_elem_of_list_to_map_1 _ _ Hfresh). reflexivity.
    + rewrite !lookup_insert_ne by exact Hne. reflexivity.
Qed.

Lemma setPlayers_players ms : setPlayers ms (players ms) = ms.
Proof. destruct ms. reflexivity. Qed.

(** X6: What [serializeMatchStats] writes, [deserializeMatchStats] reads
    back: the player map, keyed by number again, and every other field as
    it was. *)
Theorem serialized_stats_round_trip matchStats :
  deserializeMatchStats (serializeMatchStats matchStats) = matchStats.
Proof.
  unfold deserializeMatchStats, serializeMatchStats. cbn.
  transitivity (setPlayers matchStats (players matchStats));
    [f_equal | apply setPlayers_players].
  set (entries := map_to_list (players matchStats)).
  assert (Hread : ∀ acc : gmap Z PlayerStats,
            foldl (λ acc '(playerId, stats),
                     match JS.parseInt playerId with
                     | Some id => <[id := stats]> acc
                     | None => acc
                     end) acc
              ((λ '(playerId, stats), (JS.toString playerId, stats)) <$> entries)
            = foldl (λ acc '(id, stats), <[id := stats]> acc) acc entries).
  { induction entries as [| [id stats] entries IH]; intros acc; [reflexivity |].
    cbn. rewrite parseInt_toString. apply IH. }
  rewrite Hread. apply map_eq. intros k.
  rewrite foldl_set_lookup by apply NoDup_fst_map_to_list.
  unfold entries. rewrite list_to_map_to_list, lookup_empty.
  destruct (players matchStats !! k); reflexivity.
Qed.

(** ** [updatePlayerThrow] *)

(** X7: [updatePlayerThrow] counts every dart, adds the points of a dart
    that is no bust and counts a bust; a successful checkout raises the
    highest checkout to its value when that is the greater one.  The two
    derived values are computed anew from the new totals alone, as
    divisions of doubles: the points per dart times 3, and the successes
    per attempt times 100, or 0 while there is no attempt.  Where a
    success is always flagged as an attempt too, the successes do not come
    to exceed the attempts.  The legs and the ton counters are left
    alone. *)
Theorem throw_statistics stats throwScore isBust isCheckoutAttempt
    isSuccessfulCheckout checkoutValue :
  let updated :=
    updatePlayerThrow stats throwScore isBust isCheckoutAttempt
      isSuccessfulCheckout checkoutValue in
  dartsThrown updated = dartsThrown stats + 1
  ∧ pointsScored updated
    = (if isBust then pointsScored stats else pointsScored stats + throwScore)
  ∧ busts updated = (if isBust then busts stats + 1 else busts stats)
  ∧ highestCheckout updated
    = (if isSuccessfulCheckout
       then Z.max (highestCheckout stats) checkoutValue
       else highestCheckout stats)
  ∧ averageThrow updated
    = (if 0 <? dartsThrown updated
       then (JS.double (pointsScored updated) / JS.double (dartsThrown updated)
             * 3)%float
       else 0%float)
  ∧ checkoutPercentage updated
    = (if 0 <? checkoutAttempts updated
       then (JS.double (checkoutSuccesses updated)
             / JS.double (checkoutAttempts updated) * 100)%float
       else 0%float)
  ∧ ((isSuccessfulCheckout = true → isCheckoutAttempt = true) →
     checkoutSuccesses stats ≤ checkoutAttempts stats →
     checkoutSuccesses updated ≤ checkoutAttempts updated)
  ∧ (legsWon updated, legDarts updated, dartsPerLeg updated, bestLegDarts updated)
    = (legsWon stats, legDarts stats, dartsPerLeg stats, bestLegDarts stats)
  ∧ (tonPlus updated, tonFortyPlus updated, tonEightyPlus updated)
    = (tonPlus stats, tonFortyPlus stats, tonEightyPlus stats).
Proof.
  cbv zeta. unfold updatePlayerThrow, ratio.
  cbn [dartsThrown pointsScored busts averageThrow checkoutSuccesses
    checkoutAttempts checkoutPercentage highestCheckout legsWon legDarts
    dartsPerLeg bestLegDarts tonPlus tonFortyPlus tonEightyPlus].
  split; [reflexivity |].
  split; [destruct isBust; reflexivity |].
  split; [reflexivity |].
  split.
  { destruct isSuccessfulCheckout; [| reflexivity]. cbn [andb].
    destruct (Z.ltb_spec (highestCheckout stats) checkoutValue); lia. }
  split; [reflexivity |]. split; [reflexivity |].
  split; [| split; reflexivity].
  intros Hsuccess Hcheckouts.
  destruct isSuccessfulCheckout; [rewrite Hsuccess by reflexivity |];
    destruct isCheckoutAttempt; lia.
Qed.

(** Eleven checkouts in twenty attempts: the percentage is the double
    next above 55, which prints as 55.00000000000001. *)
Lemma throw_statistics_witness :
  let stats := updatePlayerThrow (withCheckouts 10 19) 24 false true true 24 in
  checkoutSuccesses stats = 11
  ∧ checkoutAttempts stats = 20
  ∧ checkoutSuccesses stats ≤ checkoutAttempts stats
  ∧ checkoutPercentage stats = 0x1.b800000000001p+5%float.
Proof.
  pose proof (throw_statistics (withCheckouts 10 19) 24 false true true 24)
    as (_ & _ & _ & _ & _ & Hpercentage & Hkept & _).
  cbv zeta in Hpercentage, Hkept |- *.
  split; [reflexivity |]. split; [reflexivity |].
  split; [apply Hkept; [reflexivity | cbn; lia] |].
  rewrite Hpercentage. vm_compute. reflexivity.
Defined.

(** ** [updatePlayerTurn] *)

(** X8: The three ton counters split the turn totals from 100 to 180: a
    total from 100 to 139 adds one to [tonPlus] only, one from 140 to 179
    to [tonFortyPlus] only, 180 to [tonEightyPlus] only; a total below 100
    or above 180 is counted nowhere.  No other field changes. *)
Theorem turn_tiers stats turnScore :
  let updated := updatePlayerTurn stats turnScore in
  tonPlus updated
  = tonPlus stats + (if (100 <=? turnScore) && (turnScore <=? 139) then 1 else 0)
  ∧ tonFortyPlus updated
    = tonFortyPlus stats
      + (if (140 <=? turnScore) && (turnScore <=? 179) then 1 else 0)
  ∧ tonEightyPlus updated
    = tonEightyPlus stats + (if turnScore =? 180 then 1 else 0)
  ∧ tonPlus updated + tonFortyPlus updated + tonEightyPlus updated
    = tonPlus stats + tonFortyPlus stats + tonEightyPlus stats
      + (if (100 <=? turnScore) && (turnScore <=? 180) then 1 else 0)
  ∧ besidesTons updated = besidesTons stats.
Proof.
  cbv zeta. unfold updatePlayerTurn.
  destruct (Z.leb_spec 100 turnScore), (Z.ltb_spec turnScore 140),
    (Z.leb_spec 140 turnScore), (Z.ltb_spec turnScore 180),
    (Z.eqb_spec turnScore 180), (Z.leb_spec turnScore 139),
    (Z.leb_spec turnScore 179), (Z.leb_spec turnScore 180);
    try lia; cbn; repeat split; lia.
Qed.

(** ** [updateLegWin] *)

Lemma sumDarts_snoc legs darts :
  sumDarts (legs ++ [darts])%list = sumDarts legs + darts.
Proof. unfold sumDarts. rewrite foldl_app. reflexivity. Qed.

Lemma foldr_add_shift legs z : foldr Z.add z legs = foldr Z.add 0 legs + z.
Proof. induction legs as [| x legs IH]; cbn; [lia | rewrite IH; lia]. Qed.

Lemma sumDarts_foldr legs : sumDarts legs = foldr Z.add 0 legs.
Proof.
  induction legs as [| darts legs IH] using rev_ind; [reflexivity |].
  rewrite sumDarts_snoc, IH, foldr_app. cbn.
  rewrite (foldr_add_shift legs (darts + 0)). lia.
Qed.

(** X9: Leg wins accumulate: after any number of legs won, each in a
    positive number of darts, [legsWon] is their number, [legDarts] lists
    the darts of each in order, [bestLegDarts] is the least of them and
    [dartsPerLeg] is the sum of them all divided by their number, as a
    division of doubles. *)
Theorem leg_wins_accumulate legs :
  Forall (λ darts, 0 < darts) legs →
  let stats := afterLegs legs in
  legsWon stats = Z.of_nat (length legs)
  ∧ legDarts stats = legs
  ∧ (legs ≠ [] →
       bestLegDarts stats ∈ legs
       ∧ Forall (λ darts, bestLegDarts stats ≤ darts) legs
       ∧ dartsPerLeg stats
         = (JS.double (foldr Z.add 0%Z legs)
            / JS.double (Z.of_nat (length legs)))%float).
Proof.
  cbv zeta. unfold afterLegs.
  induction legs as [| darts legs IH] using rev_ind; intros Hpositive.
  - split; [reflexivity |]. split; [reflexivity |]. intros Hnil. contradiction.
  - apply Forall_app in Hpositive as [Hlegs Hdarts].
    apply (proj1 (Forall_singleton _ _)) in Hdarts.
    destruct (IH Hlegs) as (Hwon & Hlist & Hrest). clear IH.
    rewrite foldl_app. cbn [foldl].
    set (stats := foldl updateLegWin initPlayerStats legs) in *.
    unfold updateLegWin.
    cbn [legsWon legDarts bestLegDarts dartsPerLeg].
    rewrite Hwon, Hlist, length_app. cbn [length].
    split; [lia |]. split; [reflexivity |]. intros _.
    assert (Hbest : (if (bestLegDarts stats =? 0) || (darts <? bestLegDarts stats)
                     then darts else bestLegDarts stats) ∈ (legs ++ [darts])%list
                    ∧ Forall (λ d, (if (bestLegDarts stats =? 0)
                                       || (darts <? bestLegDarts stats)
                                    then darts else bestLegDarts stats) ≤ d)
                        (legs ++ [darts])%list).
    { destruct (decide (legs = [])) as [-> | Hsome].
      - cbn. split; [apply list_elem_of_here |]. repeat constructor. lia.
      - destruct (Hrest Hsome) as (Hin & Hleast & _).
        assert (Hbest : 0 < bestLegDarts stats).
        { rewrite Forall_forall in Hlegs. apply Hlegs. exact Hin. }
        destruct (Z.eqb_spec (bestLegDarts stats) 0); [lia |]. cbn [orb].
        destruct (Z.ltb_spec darts (bestLegDarts stats)).
        + split; [apply elem_of_app; right; apply list_elem_of_here |].
          apply Forall_app. split.
          * eapply Forall_impl; [exact Hleast |]. cbn. intros. lia.
          * repeat constructor. lia.
        + split; [apply elem_of_app; left; exact Hin |].
          apply Forall_app. split; [exact Hleast |].
          repeat constructor. lia. }
    split; [apply Hbest |]. split; [apply Hbest |].
    destruct (Z.ltb_spec 0 (Z.of_nat (length legs) + 1)); [| lia].
    unfold ratio. rewrite sumDarts_foldr.
    replace (Z.of_nat (length legs + 1)) with (Z.of_nat (length legs) + 1) by lia.
    reflexivity.
Qed.

(** Legs of 9, 9 and 10 darts: the mean is the double nearest to 28/3,
    which prints as 9.333333333333334. *)
Lemma leg_wins_accumulate_witness :
  let stats := afterLegs threeLegs in
  legsWon stats = 3
  ∧ legDarts stats = threeLegs
  ∧ bestLegDarts stats = 9
  ∧ dartsPerLeg stats = 0x1.2aaaaaaaaaaabp+3%float.
Proof.
  pose proof (leg_wins_accumulate threeLegs ltac:(repeat constructor))
    as (Hwon & Hlist & Hrest).
  cbv zeta in Hwon, Hlist, Hrest |- *.
  destruct Hrest as (_ & _ & Hmean); [discriminate |].
  split; [exact Hwon |]. split; [exact Hlist |].
  split; [reflexivity |].
  rewrite Hmean. vm_compute. reflexivity.
Defined.

(** ** [initMatchStats] *)

(** X10: A new match has one empty record for each id listed, however often
    it is listed, and none for any other id; it stands at leg 1 with no
    leg played and no end time. *)
Theorem initial_statistics playerIds legsToWin now :
  let matchStats := initMatchStats playerIds legsToWin now in
  (∀ id, players matchStats !! id
         = if decide (id ∈ playerIds) then Some initPlayerStats else None)
  ∧ currentLeg matchStats = 1
  ∧ legsPlayed matchStats = 0
  ∧ StatsTracker.legsToWin matchStats = legsToWin
  ∧ endTime matchStats = None.
Proof.
  cbv zeta. split; [| repeat split].
  intros id. unfold initMatchStats. cbn [players].
  assert (Hset : ∀ acc : gmap Z PlayerStats,
            foldl (λ acc id, <[id := initPlayerStats]> acc) acc playerIds !! id
            = if decide (id ∈ playerIds) then Some initPlayerStats else acc !! id).
  { induction playerIds as [| first rest IH]; intros acc; cbn.
    - rewrite decide_False by apply not_elem_of_nil. reflexivity.
    - rewrite IH. destruct (decide (id ∈ rest)) as [Hin | Hout].
      + rewrite decide_True by (apply list_elem_of_further; exact Hin). reflexivity.
      + destruct (decide (first = id)) as [-> | Hne].
        * rewrite lookup_insert_eq, decide_True by apply list_elem_of_here.
          reflexivity.
        * rewrite lookup_insert_ne by exact Hne.
          rewrite decide_False; [reflexivity |].
          intros Hin. apply elem_of_cons in Hin as [-> | Hin]; contradiction. }
  rewrite Hset, lookup_empty. reflexivity.
Qed.

End StatsTrackerFacts.

(** * Further properties of the match manager

    The managers of this part are those of [reachable] and the calls
    those of [Call]: [loadMatch] is not among them.  A match that
    [loadMatch] builds is whatever the rows say, and is the subject of the
    last part. *)

Module MatchManagerFacts.

Import MatchManager MatchManagerSpec.

#[local] Hint Rewrite players_updatePlayerStats activePlayerIndex_updatePlayerStats
  round_updatePlayerStats settings_updatePlayerStats state_updatePlayerStats
  currentLeg_updatePlayerStats legsToWin_updatePlayerStats
  legStarters_updatePlayerStats : match_fields.

(** The manager after a list of calls, each with the time it is made at. *)
Definition run (mgr : MatchManager.t) (cs : list (Call * Z)) : MatchManager.t :=
  foldl (λ mgr '(c, now), call mgr c now) mgr cs.

(** The thrower after a dart: the dart is in the turn and on the dart
    count, and the score follows the verdict. *)
Definition thrown (v : Validator.ValidationResult) (td : Throw.t) (p : Player.t)
    : Player.t :=
  let p := addThrow td p in
  if Validator.valid v && negb (Validator.bust v)
  then Player.setScore p (default (Player.score p) (Validator.newScore v))
  else if Validator.bust v then Player.setScore p (Player.originalScore p)
  else p.

(** The match after the first block of [processThrow] when no leg is
    won. *)
Definition scored (m : Match.t) (playerId : Z) (v : Validator.ValidationResult)
    (td : Throw.t) : Match.t :=
  let idx := Match.activePlayerIndex m in
  let m := updatePlayer m idx (addThrow td) in
  if Validator.valid v && negb (Validator.bust v) then
    updatePlayer m idx (λ p,
      Player.setScore p (default (Player.score p) (Validator.newScore v)))
  else if Validator.bust v then
    updatePlayerStats
      (updatePlayer m idx (λ p, Player.setScore p (Player.originalScore p)))
      playerId StatsTracker.addBust
  else m.

(** The match after a game shot, before the match is completed or the
    next leg set up: the leg is counted and the thrower flagged. *)
Definition legCounted (m : Match.t) (playerId : Z) (player : Player.t)
    (v : Validator.ValidationResult) (td : Throw.t) : Match.t :=
  let idx := Match.activePlayerIndex m in
  let m := updatePlayer m idx (addThrow td) in
  let m := updatePlayer m idx (λ p,
             Player.setScore p (default (Player.score p) (Validator.newScore v))) in
  let m := updatePlayerStats m playerId (λ playerStats,
             StatsTracker.updateLegWin playerStats (Player.dartsThrown player + 1)) in
  updatePlayer m idx (λ p, Player.setIsWinner p true).

(** The index of the player who starts the leg after the one in
    progress: the one after the starter of this leg. *)
Definition nextStarterIndex (m : Match.t) : nat :=
  let lastStarter := mjoin (JS.index (Match.legStarters m) (Match.currentLeg m - 1)) in
  match JS.findIndex (λ p, match lastStarter with
                           | Some id => hasId id p
                           | None => false
                           end) (Match.players m) with
  | Some i => (i + 1) mod length (Match.players m)
  | None => 0 mod length (Match.players m)
  end%nat.

(** Anna on 32 with no dart thrown in her turn, Bert on 492. *)
Definition onThirtyTwo : MatchManager.t :=
  calls equipped
    [CreateMatch 1 [anna; bert] "x01" 3 unset None;
     StartWarmup; EndWarmup; SetBullWinner 1;
     ProcessThrow 1 "T20" 60 None; ProcessThrow 1 "T20" 60 None;
     ProcessThrow 1 "T20" 60 None;
     ProcessThrow 2 "S1" 1 None; ProcessThrow 2 "S1" 1 None;
     ProcessThrow 2 "S1" 1 None;
     ProcessThrow 1 "T20" 60 None; ProcessThrow 1 "T20" 60 None;
     ProcessThrow 1 "T20" 60 None;
     ProcessThrow 2 "S1" 1 None; ProcessThrow 2 "S1" 1 None;
     ProcessThrow 2 "S1" 1 None;
     ProcessThrow 1 "T20" 60 None; ProcessThrow 1 "T15" 45 None;
     ProcessThrow 1 "S4" 4 None;
     ProcessThrow 2 "S1" 1 None; ProcessThrow 2 "S1" 1 None;
     ProcessThrow 2 "S1" 1 None] 0.

(** Membership in a list that is written out. *)
Ltac in_list :=
  repeat first [apply list_elem_of_here | apply list_elem_of_further].

(** The legs are numbered from 1 and each has its starter on record, a
    player of the match; the active index names a player; while the match
    is not completed no turn in progress has three darts; and the state is
    one of the five the manager sets. *)
Record sound (m : Match.t) : Prop := {
  sound_leg : 1 ≤ Match.currentLeg m;
  sound_starters : Z.of_nat (length (Match.legStarters m)) = Match.currentLeg m;
  sound_starter_ids :
    Forall (λ starter, ∃ id, starter = Some id ∧ id ∈ ids m) (Match.legStarters m);
  sound_index : (Match.activePlayerIndex m < length (Match.players m))%nat;
  sound_turns :
    Match.state m ≠ completed →
    Forall (λ p, (length (Player.currentTurn p) ≤ 2)%nat) (Match.players m);
  sound_state : Match.state m ∈ [pending; warmup; bullshot; active; completed]
}.

(** One step of the phase of a match. *)
Definition follows (s s' : State) : Prop :=
  s' = s
  ∨ s' = completed
  ∨ (s = pending ∧ s' = warmup)
  ∨ (s = warmup ∧ s' = bullshot)
  ∨ (s = bullshot ∧ s' = active).

(** Anna and Bert after the warm-up, the bull still to be thrown. *)
Definition atTheBull : MatchManager.t :=
  calls equipped
    [CreateMatch 1 [anna; bert] "x01" 3 unset None; StartWarmup; EndWarmup] 0.

(** As [beforeCheckout], in a match of one leg. *)
Definition oneLegDecider : MatchManager.t :=
  calls equipped
    [CreateMatch 1 [anna; bert] "x01" 1 unset None;
     StartWarmup; EndWarmup; SetBullWinner 1;
     ProcessThrow 1 "T20" 60 None; ProcessThrow 1 "T20" 60 None;
     ProcessThrow 1 "T20" 60 None;
     ProcessThrow 2 "S1" 1 None; ProcessThrow 2 "S1" 1 None;
     ProcessThrow 2 "S1" 1 None;
     ProcessThrow 1 "T20" 60 None; ProcessThrow 1 "T20" 60 None;
     ProcessThrow 1 "T20" 60 None;
     ProcessThrow 2 "S1" 1 None; ProcessThrow 2 "S1" 1 None;
     ProcessThrow 2 "S1" 1 None;
     ProcessThrow 1 "T20" 60 None; ProcessThrow 1 "T19" 57 None] 0.

(** ** The calls on a manager that has a match *)

(** A relation between the match before and after that holds for each
    operation when it succeeds holds for every call: a call that throws
    leaves the match as it was. *)
Section EveryCall.

Context (R : Match.t → Match.t → Prop) (mgr : MatchManager.t) (m : Match.t) (now : Z).
Hypothesis loaded : match_ mgr = Some m.
Hypothesis R_refl : R m m.
Hypothesis R_startMatch : ∀ mgr' out,
  startMatch mgr now = Ok (mgr', out) → ∃ m', match_ mgr' = Some m' ∧ R m m'.
Hypothesis R_startWarmup : ∀ mgr' out,
  startWarmup mgr now = Ok (mgr', out) → ∃ m', match_ mgr' = Some m' ∧ R m m'.
Hypothesis R_endWarmup : ∀ mgr' out,
  endWarmup mgr now = Ok (mgr', out) → ∃ m', match_ mgr' = Some m' ∧ R m m'.
Hypothesis R_setBullWinner : ∀ playerId mgr' out,
  setBullWinner mgr playerId now = Ok (mgr', out) →
  ∃ m', match_ mgr' = Some m' ∧ R m m'.
Hypothesis R_processThrow : ∀ playerId segment score coordinates mgr' r,
  processThrow mgr playerId segment score coordinates now = Ok (mgr', r) →
  ∃ m', match_ mgr' = Some m' ∧ R m m'.
Hypothesis R_correctThrow : ∀ throwId segment score mgr' r,
  correctThrow mgr throwId segment score now = Ok (mgr', r) →
  ∃ m', match_ mgr' = Some m' ∧ R m m'.
Hypothesis R_manualPlayerSwitch : ∀ mgr',
  manualPlayerSwitch mgr now = Ok mgr' → ∃ m', match_ mgr' = Some m' ∧ R m m'.
Hypothesis R_endMatch : ∀ winningPlayerId mgr' out,
  endMatch mgr winningPlayerId now = Ok (mgr', out) →
  ∃ m', match_ mgr' = Some m' ∧ R m m'.
Hypothesis R_autosave : R m (Match.stamp m now true).

Lemma every_call c : ∃ m', match_ (call mgr c now) = Some m' ∧ R m m'.
Proof.
  assert (Hidle : ∃ m', match_ mgr = Some m' ∧ R m m') by eauto.
  destruct c; cbn [call after].
  - unfold createMatch. rewrite loaded, bool_decide_eq_true_2 by eauto. exact Hidle.
  - destruct (startMatch mgr now) as [[mgr' out] |] eqn:Hcall; eauto.
  - destruct (startWarmup mgr now) as [[mgr' out] |] eqn:Hcall; eauto.
  - destruct (endWarmup mgr now) as [[mgr' out] |] eqn:Hcall; eauto.
  - destruct (setBullWinner mgr playerId now) as [[mgr' out] |] eqn:Hcall; eauto.
  - destruct (processThrow mgr playerId segment score coordinates now)
      as [[mgr' out] |] eqn:Hcall; eauto.
  - destruct (correctThrow mgr throwId segment score now)
      as [[mgr' out] |] eqn:Hcall; eauto.
  - destruct (manualPlayerSwitch mgr now) as [mgr' |] eqn:Hcall; eauto.
  - destruct (endMatch mgr winningPlayerId now) as [[mgr' out] |] eqn:Hcall; eauto.
  - unfold autosave. rewrite loaded. destruct (autosaveTimer mgr); eauto.
Qed.

End EveryCall.

(** Without a match only [createMatch] loads one. *)
Lemma call_unloaded mgr c now m' :
  match_ mgr = None →
  match_ (call mgr c now) = Some m' →
  ∃ boardId players mode legsToWin settings insertedId mgr',
    createMatch mgr boardId players mode legsToWin settings now insertedId
    = Ok (mgr', m')
    ∧ match_ mgr' = Some m'.
Proof.
  intros Hm Hafter.
  destruct c; cbn [call after] in Hafter;
    try (unfold startMatch, startWarmup, endWarmup, transition, setBullWinner,
           processThrow, correctThrow, manualPlayerSwitch, endMatch, autosave
           in Hafter;
         rewrite Hm in Hafter; cbn in Hafter; congruence).
  destruct (createMatch mgr boardId players mode legsToWin settings now insertedId)
    as [[mgr' out] |] eqn:Hcall; cbn in Hafter; [| congruence].
  pose proof (createMatch_active _ _ _ _ _ _ _ _ _ _ Hcall) as [Hloaded _].
  rewrite Hloaded in Hafter. injection Hafter as <-.
  eexists _, _, _, _, _, _, _. split; [exact Hcall | exact Hloaded].
Qed.

(** What holds of the match a [createMatch] returns and is kept by
    every call holds of every match a manager can reach. *)
Lemma reachable_invariant (I : Match.t → Prop) :
  (∀ mgr boardId players mode legsToWin settings now insertedId mgr' m,
     createMatch mgr boardId players mode legsToWin settings now insertedId
     = Ok (mgr', m) → I m) →
  (∀ mgr m c now m',
     match_ mgr = Some m → I m → match_ (call mgr c now) = Some m' → I m') →
  ∀ mgr, reachable mgr → ∀ m, match_ mgr = Some m → I m.
Proof.
  intros Hcreate Hcall mgr Hreach.
  induction Hreach as [mgr Hnone | mgr c now Hreach IH]; intros m' Hm'.
  - congruence.
  - destruct (match_ mgr) as [m |] eqn:Hm.
    + eapply Hcall; [exact Hm | apply IH; reflexivity | exact Hm'].
    + destruct (call_unloaded _ _ _ _ Hm Hm')
        as (? & ? & ? & ? & ? & ? & ? & Hcreated & _).
      eapply Hcreate. exact Hcreated.
Qed.

(** ** What an accepted throw does *)

Lemma shot_is_valid currentScore segment throwScore dartsThrown options :
  let v := Validator.validateX01Throw currentScore segment throwScore dartsThrown
             options in
  (Validator.gameShot v = true →
     Validator.valid v = true ∧ Validator.bust v = false
     ∧ Validator.newScore v = Some 0)
  ∧ (Validator.bust v = true → Validator.valid v = true)
  ∧ (Validator.valid v = true → Validator.bust v = false →
       is_Some (Validator.newScore v)).
Proof.
  cbv zeta. unfold Validator.validateX01Throw.
  repeat case_match; cbn; repeat split; intros; try discriminate; eauto.
Qed.

(** [processThrow] past its guards, case by case. *)
Lemma processThrow_outcome mgr m playerId player segment score coordinates now
    mgr' r :
  accepted mgr m playerId player →
  processThrow mgr playerId segment score coordinates now = Ok (mgr', r) →
  let v := verdict m player segment score in
  let td := throwOf m playerId player segment score coordinates now in
  throwData r = td
  ∧ validationResult r = v
  ∧ legWon r = gameShot r
  ∧ gameShot r = Validator.gameShot v
  ∧ ∃ m',
      mgr' = setMatch mgr (saveMatchState m' now)
      ∧ if Validator.gameShot v then
          bust r = false
          ∧ if Match.legsToWin m
               <=? getPlayerLegWins (legCounted m playerId player v td) playerId
            then matchWon r = true
                 ∧ m' = Match.setState (legCounted m playerId player v td) completed
            else matchWon r = false
                 ∧ setupNextLeg (legCounted m playerId player v td) now = Ok m'
        else
          bust r = Validator.bust v
          ∧ matchWon r = false
          ∧ if Z.of_nat (length (Player.currentTurn player)) =? 2
            then moveToNextPlayer (scored m playerId v td) now = Ok m'
            else m' = scored m playerId v td.
Proof.
  intros Haccepted Hcall. cbv zeta.
  rewrite (processThrow_accepted _ _ _ _ _ _ _ _ Haccepted) in Hcall.
  destruct Haccepted as [Hm Hstate Hturn Hplayer Hdarts].
  set (td := throwOf m playerId player segment score coordinates now) in *.
  assert (Hv : (Validator.gameShot (verdict m player segment score) = true →
                Validator.valid (verdict m player segment score) = true
                ∧ Validator.bust (verdict m player segment score) = false
                ∧ Validator.newScore (verdict m player segment score) = Some 0)
               ∧ (Validator.bust (verdict m player segment score) = true →
                  Validator.valid (verdict m player segment score) = true))
    by (split; apply shot_is_valid).
  set (v := verdict m player segment score) in *.
  destruct Hv as [Hshot Hbust].
  unfold applyValidation in Hcall. unfold legCounted, scored. cbv zeta.
  destruct (Validator.gameShot v) eqn:Hg.
  - destruct (Hshot eq_refl) as (Hvalid & Hnobust & Hnew).
    rewrite Hvalid, Hnobust in Hcall. cbn [andb negb] in Hcall.
    match type of Hcall with
    | context [Match.legsToWin ?won <=? _] =>
        replace (Match.legsToWin won) with (Match.legsToWin m) in Hcall
          by (cbn; rewrite legsToWin_updatePlayerStats; reflexivity)
    end.
    destruct (Match.legsToWin m <=? getPlayerLegWins _ playerId) eqn:Hwon.
    + cbn [mbind result_bind] in Hcall. unfold endTurnOrSuggest in Hcall.
      rewrite orb_true_r in Hcall. cbn [negb mbind result_bind] in Hcall.
      injection Hcall as <- <-.
      cbn. repeat split. eexists. split; [reflexivity |]. repeat split.
    + destruct (setupNextLeg _ now) as [next |] eqn:Hnext; [| discriminate Hcall].
      cbn [mbind result_bind] in Hcall. unfold endTurnOrSuggest in Hcall.
      rewrite orb_true_r in Hcall. cbn [negb mbind result_bind] in Hcall.
      injection Hcall as <- <-.
      cbn. repeat split. eexists. split; [reflexivity |]. repeat split.
  - assert (Hlate : (Z.of_nat (length (Player.currentTurn player)) =? 2) || false
                   = (Z.of_nat (length (Player.currentTurn player)) =? 2))
      by apply orb_false_r.
    destruct (Validator.valid v && negb (Validator.bust v)) eqn:Hvalid.
    + apply andb_prop in Hvalid as [_ Hnobust]. apply negb_true_iff in Hnobust.
      cbn [mbind result_bind] in Hcall. unfold endTurnOrSuggest in Hcall.
      rewrite Hlate in Hcall. cbn [negb] in Hcall.
      destruct (Z.of_nat (length (Player.currentTurn player)) =? 2).
      * destruct (moveToNextPlayer _ now) as [moved |] eqn:Hmoved;
          [| discriminate Hcall].
        cbn [mbind result_bind] in Hcall. injection Hcall as <- <-.
        cbn. repeat split; try congruence.
        eexists. split; [reflexivity |]. repeat split; congruence.
      * cbn [updatePlayer Match.players Match.setPlayers] in Hcall.
        rewrite !list_lookup_alter_eq, Hplayer in Hcall.
        cbn [fmap option_fmap option_map orThrow mbind result_bind] in Hcall.
        destruct (checkoutSuggestions _ && _); injection Hcall as <- <-;
          cbn; repeat split; try congruence;
          eexists; (split; [reflexivity |]); repeat split; congruence.
    + destruct (Validator.bust v) eqn:Hb.
      * cbn [mbind result_bind] in Hcall. unfold endTurnOrSuggest in Hcall.
        rewrite Hlate in Hcall. cbn [negb] in Hcall.
        destruct (Z.of_nat (length (Player.currentTurn player)) =? 2).
        -- destruct (moveToNextPlayer _ now) as [moved |] eqn:Hmoved;
             [| discriminate Hcall].
           cbn [mbind result_bind] in Hcall. injection Hcall as <- <-.
           cbn. repeat split.
           eexists. split; [reflexivity |]. repeat split.
        -- rewrite players_updatePlayerStats in Hcall.
           cbn [updatePlayer Match.players Match.setPlayers] in Hcall.
           rewrite !list_lookup_alter_eq, Hplayer in Hcall.
           cbn [fmap option_fmap option_map orThrow mbind result_bind] in Hcall.
           destruct (checkoutSuggestions _ && _); injection Hcall as <- <-;
             cbn; repeat split;
             eexists; (split; [reflexivity |]); repeat split.
      * cbn [mbind result_bind] in Hcall. unfold endTurnOrSuggest in Hcall.
        rewrite Hlate in Hcall. cbn [negb] in Hcall.
        destruct (Z.of_nat (length (Player.currentTurn player)) =? 2).
        -- destruct (moveToNextPlayer _ now) as [moved |] eqn:Hmoved;
             [| discriminate Hcall].
           cbn [mbind result_bind] in Hcall. injection Hcall as <- <-.
           cbn. repeat split.
           eexists. split; [reflexivity |]. repeat split.
        -- cbn [updatePlayer Match.players Match.setPlayers] in Hcall.
           rewrite !list_lookup_alter_eq, Hplayer in Hcall.
           cbn [fmap option_fmap option_map orThrow mbind result_bind] in Hcall.
           destruct (checkoutSuggestions _ && _); injection Hcall as <- <-;
             cbn; repeat split;
             eexists; (split; [reflexivity |]); repeat split.
Qed.

Lemma scored_fields m playerId v td :
  Match.players (scored m playerId v td)
  = alter (thrown v td) (Match.activePlayerIndex m) (Match.players m)
  ∧ Match.activePlayerIndex (scored m playerId v td) = Match.activePlayerIndex m
  ∧ Match.state (scored m playerId v td) = Match.state m
  ∧ Match.currentLeg (scored m playerId v td) = Match.currentLeg m
  ∧ Match.legStarters (scored m playerId v td) = Match.legStarters m
  ∧ Match.round (scored m playerId v td) = Match.round m
  ∧ Match.settings (scored m playerId v td) = Match.settings m
  ∧ Match.legsToWin (scored m playerId v td) = Match.legsToWin m.
Proof.
  unfold scored, thrown. cbv zeta.
  destruct (Validator.valid v && negb (Validator.bust v));
    [| destruct (Validator.bust v)];
    autorewrite with match_fields; cbn; rewrite ?list_alter_alter_eq;
    repeat split.
Qed.

Lemma legCounted_fields m playerId player v td :
  Match.players (legCounted m playerId player v td)
  = alter (λ p, Player.setIsWinner
                  (Player.setScore (addThrow td p)
                     (default (Player.score p) (Validator.newScore v))) true)
      (Match.activePlayerIndex m) (Match.players m)
  ∧ Match.activePlayerIndex (legCounted m playerId player v td)
    = Match.activePlayerIndex m
  ∧ Match.state (legCounted m playerId player v td) = Match.state m
  ∧ Match.currentLeg (legCounted m playerId player v td) = Match.currentLeg m
  ∧ Match.legStarters (legCounted m playerId player v td) = Match.legStarters m
  ∧ Match.round (legCounted m playerId player v td) = Match.round m
  ∧ Match.settings (legCounted m playerId player v td) = Match.settings m
  ∧ Match.legsToWin (legCounted m playerId player v td) = Match.legsToWin m.
Proof.
  unfold legCounted. cbv zeta. cbn -[updatePlayerStats].
  autorewrite with match_fields. cbn. rewrite !list_alter_alter_eq.
  repeat split.
Qed.

Lemma moveToNextPlayer_fields m now m' :
  moveToNextPlayer m now = Ok m' →
  Match.players m'
  = alter (λ q, Player.setIsActive q true) (nextIndex m)
      (alter commitTurn (Match.activePlayerIndex m) (Match.players m))
  ∧ Match.activePlayerIndex m' = nextIndex m
  ∧ Match.state m' = Match.state m
  ∧ Match.currentLeg m' = Match.currentLeg m
  ∧ Match.legStarters m' = Match.legStarters m
  ∧ Match.round m'
    = (if Nat.eqb (nextIndex m) 0 then Match.round m + 1 else Match.round m)
  ∧ Match.settings m' = Match.settings m
  ∧ Match.legsToWin m' = Match.legsToWin m
  ∧ (nextIndex m < length (Match.players m))%nat.
Proof.
  intros Hmove. unfold moveToNextPlayer in Hmove.
  destruct (Match.players m !! Match.activePlayerIndex m) as [p |] eqn:Hp;
    [| discriminate Hmove].
  cbn [orThrow mbind result_bind] in Hmove. injection Hmove as <-.
  unfold nextIndex.
  repeat split; cbn; autorewrite with match_fields; cbn;
    rewrite ?length_alter; autorewrite with match_fields;
    try (case_match; cbn; autorewrite with match_fields; reflexivity).
  apply Nat.mod_upper_bound. apply lookup_lt_Some in Hp. lia.
Qed.

Lemma setupNextLeg_fields m now m' :
  setupNextLeg m now = Ok m' →
  ∃ starter,
    Match.players m !! nextStarterIndex m = Some starter
    ∧ Match.players m'
      = resetForLeg (startingScore (Match.settings m)) (Player.id starter)
          <$> Match.players m
    ∧ Match.activePlayerIndex m' = nextStarterIndex m
    ∧ Match.state m' = Match.state m
    ∧ Match.currentLeg m' = Match.currentLeg m + 1
    ∧ Match.legStarters m'
      = JS.assign (Match.legStarters m) (Match.currentLeg m) (Player.id starter)
    ∧ Match.round m' = 1
    ∧ Match.settings m' = Match.settings m
    ∧ Match.legsToWin m' = Match.legsToWin m.
Proof.
  unfold setupNextLeg, nextStarterIndex. cbn.
  replace (Match.currentLeg m + 1 - 2) with (Match.currentLeg m - 1) by lia.
  replace (Match.currentLeg m + 1 - 1) with (Match.currentLeg m) by lia.
  set (next := match JS.findIndex _ (Match.players m) with
               | Some i => _
               | None => _
               end).
  destruct (Match.players m !! next) as [starter |] eqn:Hstarter; [| discriminate].
  cbn. intros [= <-]. exists starter. repeat split.
Qed.

Lemma findIndex_alter {A} (pred : A → bool) (f : A → A) i (l : list A) :
  (∀ x, pred (f x) = pred x) →
  JS.findIndex pred (alter f i l) = JS.findIndex pred l.
Proof.
  intros Hf. revert i. induction l as [| x l IH]; intros [| i]; cbn;
    rewrite ?Hf, ?IH; reflexivity.
Qed.

Lemma nextStarterIndex_legCounted m playerId player v td :
  nextStarterIndex (legCounted m playerId player v td) = nextStarterIndex m.
Proof.
  destruct (legCounted_fields m playerId player v td)
    as (Hplayers & _ & _ & Hleg & Hstarters & _).
  unfold nextStarterIndex. rewrite Hplayers, Hleg, Hstarters, length_alter.
  rewrite findIndex_alter; [reflexivity |].
  intros p. destruct (mjoin _); reflexivity.
Qed.

(** X11: The turn passes on the third dart only.  An accepted first or
    second dart that is no game shot leaves the thrower at the active
    index with the dart added to the turn in progress, whether the dart
    was scored, was a bust or was invalid; a bust puts the score back to
    what it was when the turn began, and the player throws on.  No other
    player changes. *)
Theorem turn_goes_on mgr m playerId player segment score coordinates now mgr' r :
  accepted mgr m playerId player →
  (length (Player.currentTurn player) < 2)%nat →
  processThrow mgr playerId segment score coordinates now = Ok (mgr', r) →
  gameShot r = false →
  ∃ m' player',
    match_ mgr' = Some m'
    ∧ Match.state m' = active
    ∧ Match.activePlayerIndex m' = Match.activePlayerIndex m
    ∧ Match.round m' = Match.round m
    ∧ Match.players m' !! Match.activePlayerIndex m = Some player'
    ∧ (∀ j, j ≠ Match.activePlayerIndex m →
            Match.players m' !! j = Match.players m !! j)
    ∧ Player.currentTurn player' = (Player.currentTurn player ++ [throwData r])%list
    ∧ Player.history player' = Player.history player
    ∧ Player.isActive player' = Player.isActive player
    ∧ Player.originalScore player' = Player.originalScore player
    ∧ Player.dartsThrown player' = Player.dartsThrown player + 1
    ∧ (bust r = true → Player.score player' = Player.originalScore player)
    ∧ (bust r = false → Validator.valid (validationResult r) = true →
         Validator.newScore (validationResult r) = Some (Player.score player'))
    ∧ (Validator.valid (validationResult r) = false →
         Player.score player' = Player.score player).
Proof.
  intros Haccepted Hearly Hcall Hnoshot.
  destruct (processThrow_outcome _ _ _ _ _ _ _ _ _ _ Haccepted Hcall)
    as (Htd & Hv & _ & Hshot & m' & -> & Hcase).
  rewrite Hnoshot in Hshot. rewrite <- Hshot in Hcase.
  destruct Hcase as (Hbust & _ & Hcase).
  destruct (Z.eqb_spec (Z.of_nat (length (Player.currentTurn player))) 2)
    as [Hthird | _]; [lia |]. subst m'.
  destruct Haccepted as [Hm Hstate Hturn Hplayer Hdarts].
  set (v := verdict m player segment score) in *.
  set (td := throwOf m playerId player segment score coordinates now) in *.
  destruct (scored_fields m playerId v td)
    as (Hplayers & Hidx & Hst & _ & _ & Hround & _).
  destruct (shot_is_valid (Player.score player) segment score
              (Z.of_nat (length (Player.currentTurn player))) (Match.settings m))
    as (_ & Hbustvalid & Hnew).
  fold (verdict m player segment score) in Hbustvalid, Hnew. fold v in Hbustvalid, Hnew.
  exists (saveMatchState (scored m playerId v td) now), (thrown v td player).
  cbn [saveMatchState Match.stamp Match.state Match.activePlayerIndex Match.round
       Match.players].
  split; [reflexivity |]. split; [congruence |]. split; [exact Hidx |].
  split; [exact Hround |].
  split; [rewrite Hplayers, list_lookup_alter_eq, Hplayer; reflexivity |].
  split; [intros j Hj; rewrite Hplayers; apply list_lookup_alter_ne; congruence |].
  rewrite Htd, Hv, Hbust. unfold thrown.
  destruct (Validator.valid v) eqn:Hvalid, (Validator.bust v) eqn:Hb; cbn;
    repeat split; intros; try discriminate; try reflexivity.
  - destruct (Hnew eq_refl eq_refl) as [left Hleft]. rewrite Hleft. reflexivity.
  - specialize (Hbustvalid eq_refl). discriminate Hbustvalid.
Qed.

Lemma turn_goes_on_witness :
  ∃ mgr' r m' player',
    processThrow onThirtyTwo 1 "T20" 60 None 0 = Ok (mgr', r)
    ∧ bust r = true
    ∧ match_ mgr' = Some m'
    ∧ Match.activePlayerIndex m' = 0%nat
    ∧ Match.players m' !! 0%nat = Some player'
    ∧ length (Player.currentTurn player') = 1%nat
    ∧ Player.score player' = 32.
Proof.
  assert (∃ m player mgr' r,
            accepted onThirtyTwo m 1 player
            ∧ processThrow onThirtyTwo 1 "T20" 60 None 0 = Ok (mgr', r)
            ∧ Match.activePlayerIndex m = 0%nat
            ∧ Player.currentTurn player = []
            ∧ Player.originalScore player = 32
            ∧ gameShot r = false
            ∧ bust r = true)
    as (m & player & mgr' & r & Haccepted & Hcall & Hindex & Hturn & Horiginal
        & Hnoshot & Hbust).
  { eexists _, _, _, _. split; [accept_by_evaluation |].
    split; [vm_compute; reflexivity |]. repeat split. }
  destruct (turn_goes_on onThirtyTwo m 1 player "T20" 60 None 0 mgr' r Haccepted)
    as (m' & player' & Hm' & _ & Hidx & _ & Hplayer' & _ & Hcurrent & _ & _ & _ & _
        & Hback & _).
  - rewrite Hturn. cbn. lia.
  - exact Hcall.
  - exact Hnoshot.
  - exists mgr', r, m', player'. rewrite Hindex in Hidx, Hplayer'.
    repeat (split; [assumption |]).
    split; [rewrite Hcurrent, Hturn; reflexivity |].
    rewrite (Hback Hbust). exact Horiginal.
Defined.

(** X12: A leg won that does not win the match starts the next leg at once:
    the leg number goes up by one, the round is 1 again, the player after
    the starter of the leg just played starts and is entered as the
    starter of the new leg, and every player is back on the starting score
    of the match settings with no dart thrown, no dart in the turn and the
    winner flag off.  The histories are as they were before the dart. *)
Theorem next_leg mgr m playerId player segment score coordinates now mgr' r :
  accepted mgr m playerId player →
  processThrow mgr playerId segment score coordinates now = Ok (mgr', r) →
  legWon r = true →
  matchWon r = false →
  ∃ m' starter,
    match_ mgr' = Some m'
    ∧ Match.state m' = active
    ∧ Match.currentLeg m' = Match.currentLeg m + 1
    ∧ Match.round m' = 1
    ∧ Match.players m !! nextStarterIndex m = Some starter
    ∧ Match.activePlayerIndex m' = nextStarterIndex m
    ∧ Match.legStarters m'
      = JS.assign (Match.legStarters m) (Match.currentLeg m) (Player.id starter)
    ∧ length (Match.players m') = length (Match.players m)
    ∧ ∀ j p, Match.players m !! j = Some p →
        ∃ p', Match.players m' !! j = Some p'
              ∧ Player.id p' = Player.id p
              ∧ Player.score p' = startingScore (Match.settings m)
              ∧ Player.originalScore p' = startingScore (Match.settings m)
              ∧ Player.currentTurn p' = []
              ∧ Player.dartsThrown p' = 0
              ∧ Player.isWinner p' = false
              ∧ Player.isActive p' = hasId (Player.id starter) p
              ∧ Player.history p' = Player.history p.
Proof.
  intros Haccepted Hcall Hleg Hmatch.
  destruct (processThrow_outcome _ _ _ _ _ _ _ _ _ _ Haccepted Hcall)
    as (_ & _ & Hlegshot & Hshot & m' & -> & Hcase).
  rewrite Hleg in Hlegshot. rewrite <- Hlegshot in Hshot. rewrite <- Hshot in Hcase.
  destruct Hcase as (_ & Hcase).
  destruct (Match.legsToWin m <=? _);
    [destruct Hcase as [Hwon _]; congruence |].
  destruct Hcase as [_ Hnext].
  destruct Haccepted as [Hm Hstate Hturn Hplayer Hdarts].
  set (v := verdict m player segment score) in *.
  set (td := throwOf m playerId player segment score coordinates now) in *.
  apply setupNextLeg_fields in Hnext
    as (starter & Hstarter & Hplayers & Hidx & Hst & Hcurrent & Hstarters & Hround
        & Hsettings & _).
  rewrite nextStarterIndex_legCounted in Hstarter, Hidx.
  destruct (legCounted_fields m playerId player v td)
    as (Hcounted & _ & Hcst & Hcleg & Hcstarters & _ & Hcsettings & _).
  rewrite Hcounted in Hstarter, Hplayers.
  rewrite Hcst in Hst. rewrite Hcleg in Hcurrent, Hstarters.
  rewrite Hcstarters in Hstarters. rewrite Hcsettings in Hplayers.
  assert (Hsame : ∃ starter0, Match.players m !! nextStarterIndex m = Some starter0
                              ∧ Player.id starter0 = Player.id starter).
  { destruct (decide (Match.activePlayerIndex m = nextStarterIndex m)) as [Heq | Hne].
    - rewrite <- Heq in Hstarter |- *.
      rewrite list_lookup_alter_eq, Hplayer in Hstarter. cbn in Hstarter.
      injection Hstarter as <-. eauto.
    - rewrite list_lookup_alter_ne in Hstarter by exact Hne. eauto. }
  destruct Hsame as (starter0 & Hstarter0 & Hid).
  exists (saveMatchState m' now), starter0.
  cbn [saveMatchState Match.stamp Match.state Match.activePlayerIndex Match.round
       Match.players Match.currentLeg Match.legStarters].
  split; [reflexivity |]. split; [congruence |]. split; [exact Hcurrent |].
  split; [exact Hround |]. split; [exact Hstarter0 |]. split; [exact Hidx |].
  split; [rewrite Hid; exact Hstarters |].
  split; [rewrite Hplayers, length_fmap, length_alter; reflexivity |].
  intros j p Hp. rewrite Hplayers, list_lookup_fmap, Hid.
  destruct (decide (Match.activePlayerIndex m = j)) as [<- | Hne].
  - rewrite list_lookup_alter_eq, Hp. cbn. eexists. split; [reflexivity |].
    repeat split.
  - rewrite list_lookup_alter_ne, Hp by exact Hne. cbn. eexists.
    split; [reflexivity |]. repeat split.
Qed.

Lemma next_leg_witness :
  ∃ mgr' r m',
    processThrow beforeCheckout 1 "D12" 24 None 0 = Ok (mgr', r)
    ∧ match_ mgr' = Some m'
    ∧ Match.currentLeg m' = 2
    ∧ Match.round m' = 1
    ∧ Match.activePlayerIndex m' = 1%nat
    ∧ Match.legStarters m' = [Some 1; Some 2].
Proof.
  assert (∃ m player mgr' r second,
            accepted beforeCheckout m 1 player
            ∧ processThrow beforeCheckout 1 "D12" 24 None 0 = Ok (mgr', r)
            ∧ legWon r = true
            ∧ matchWon r = false
            ∧ Match.currentLeg m = 1
            ∧ Match.legStarters m = [Some 1]
            ∧ nextStarterIndex m = 1%nat
            ∧ Match.players m !! 1%nat = Some second
            ∧ Player.id second = 2)
    as (m & player & mgr' & r & second & Haccepted & Hcall & Hleg & Hmatch
        & Hcurrent & Hstarters & Hnext & Hsecond & Hid).
  { eexists _, _, _, _, _. split; [accept_by_evaluation |].
    split; [vm_compute; reflexivity |]. repeat split. }
  destruct (next_leg beforeCheckout m 1 player "D12" 24 None 0 mgr' r
              Haccepted Hcall Hleg Hmatch)
    as (m' & starter & Hm' & _ & Hleg' & Hround & Hstarter & Hidx & Hstarters' & _).
  rewrite Hnext, Hsecond in Hstarter. injection Hstarter as <-.
  exists mgr', r, m'. split; [exact Hcall |]. split; [exact Hm' |].
  split; [rewrite Hleg', Hcurrent; reflexivity |]. split; [exact Hround |].
  split; [rewrite Hidx; exact Hnext |].
  rewrite Hstarters', Hstarters, Hcurrent, Hid. reflexivity.
Defined.

(** ** What holds of every match a manager can reach *)

(** A step that leaves the legs, the starters, the ids and the active
    index alone. *)
Lemma sound_step m m' :
  sound m →
  Match.currentLeg m' = Match.currentLeg m →
  Match.legStarters m' = Match.legStarters m →
  ids m' = ids m →
  Match.activePlayerIndex m' = Match.activePlayerIndex m →
  (Match.state m' ≠ completed →
   Forall (λ p, (length (Player.currentTurn p) ≤ 2)%nat) (Match.players m')) →
  Match.state m' ∈ [pending; warmup; bullshot; active; completed] →
  sound m'.
Proof.
  intros [Hleg Hstarters Hids Hindex Hturns Hstate] Hleg' Hstarters' Hids' Hindex'
    Hturns' Hstate'.
  constructor; rewrite ?Hleg', ?Hstarters', ?Hids', ?Hindex'; try assumption.
  apply (f_equal length) in Hids'. unfold ids in Hids'.
  rewrite !length_fmap in Hids'. rewrite Hids'. exact Hindex.
Qed.

Lemma initializePlayersFrom_fresh mgr index playerModels players :
  initializePlayersFrom mgr index playerModels = Ok players →
  Forall (λ p, Player.currentTurn p = [] ∧ Player.history p = []
               ∧ Player.dartsThrown p = 0 ∧ Player.isWinner p = false) players.
Proof.
  revert index players.
  induction playerModels as [| model rest IH]; intros index players Hinit.
  - injection Hinit as <-. constructor.
  - cbn [initializePlayersFrom] in Hinit. unfold initializePlayer in Hinit.
    destruct (this_settings mgr) as [s |]; [| discriminate Hinit].
    cbn in Hinit.
    destruct (initializePlayersFrom mgr (S index) rest) as [ps | e] eqn:Hrest;
      [| discriminate Hinit].
    cbn in Hinit. injection Hinit as <-.
    constructor; [repeat split | eapply IH; exact Hrest].
Qed.

Lemma createMatch_fresh mgr boardId players mode legsToWin settings now
    insertedId mgr' m :
  createMatch mgr boardId players mode legsToWin settings now insertedId
  = Ok (mgr', m) →
  ∃ first rest,
    Match.players m = first :: rest
    ∧ Match.legStarters m = [Some (Player.id first)]
    ∧ Forall (λ p, Player.currentTurn p = [] ∧ Player.history p = []
                   ∧ Player.dartsThrown p = 0 ∧ Player.isWinner p = false)
        (Match.players m).
Proof.
  intros Hcreate. unfold createMatch in Hcreate.
  destruct (bool_decide (is_Some (match_ mgr))); [discriminate Hcreate |].
  unfold initializePlayers in Hcreate.
  destruct (initializePlayersFrom mgr 0 players) as [setupPlayers | e] eqn:Hinit;
    [| discriminate Hcreate].
  cbn in Hcreate.
  destruct setupPlayers as [| first rest]; [discriminate Hcreate |].
  cbn in Hcreate. apply initializePlayersFrom_fresh in Hinit.
  exists first, rest.
  destruct (db mgr); [destruct insertedId |];
    injection Hcreate as <- <-; repeat split; exact Hinit.
Qed.

Lemma sound_createMatch mgr boardId players mode legsToWin settings now
    insertedId mgr' m :
  createMatch mgr boardId players mode legsToWin settings now insertedId
  = Ok (mgr', m) →
  sound m.
Proof.
  intros Hcreate.
  destruct (createMatch_returned _ _ _ _ _ _ _ _ _ _ Hcreate)
    as (_ & _ & Hstate & Hleg & _ & Hidx & _).
  destruct (createMatch_fresh _ _ _ _ _ _ _ _ _ _ Hcreate)
    as (first & rest & Hplayers & Hstarters & Hfresh).
  constructor.
  - lia.
  - rewrite Hstarters, Hleg. reflexivity.
  - rewrite Hstarters. constructor; [| constructor].
    eexists. split; [reflexivity |]. unfold ids. rewrite Hplayers.
    apply list_elem_of_here.
  - rewrite Hidx, Hplayers. cbn. lia.
  - intros _. eapply Forall_impl; [exact Hfresh |].
    cbn. intros p (-> & _). cbn. lia.
  - rewrite Hstate. apply list_elem_of_here.
Qed.

Lemma processThrow_Ok_accepted mgr m playerId segment score coordinates now mgr' r :
  match_ mgr = Some m →
  processThrow mgr playerId segment score coordinates now = Ok (mgr', r) →
  ∃ player, accepted mgr m playerId player.
Proof.
  intros Hm Hcall. unfold processThrow in Hcall. rewrite Hm in Hcall.
  cbn [orThrow mbind result_bind] in Hcall.
  destruct (bool_decide (Match.state m = active)) eqn:Hstate;
    [| discriminate Hcall].
  apply bool_decide_eq_true in Hstate. cbn [negb] in Hcall.
  destruct (JS.findIndex (hasId playerId) (Match.players m)) as [idx |] eqn:Hidx;
    [| discriminate Hcall].
  cbn [orThrow mbind result_bind] in Hcall.
  destruct (Nat.eqb_spec idx (Match.activePlayerIndex m)) as [-> | Hne];
    [| discriminate Hcall].
  cbn [negb] in Hcall.
  destruct (Match.players m !! Match.activePlayerIndex m) as [player |] eqn:Hplayer;
    [| discriminate Hcall].
  cbn [orThrow mbind result_bind] in Hcall.
  destruct (Z.leb_spec 3 (Z.of_nat (length (Player.currentTurn player))));
    [discriminate Hcall |].
  exists player. constructor; try assumption. lia.
Qed.

Lemma thrown_id v td p : Player.id (thrown v td p) = Player.id p.
Proof. unfold thrown. repeat case_match; reflexivity. Qed.

Lemma thrown_turn v td p :
  Player.currentTurn (thrown v td p) = (Player.currentTurn p ++ [td])%list.
Proof. unfold thrown. repeat case_match; reflexivity. Qed.

(** [xs[length] = v] appends. *)
Lemma assign_end {A} (xs : list (option A)) (v : A) :
  JS.assign xs (Z.of_nat (length xs)) v = (xs ++ [Some v])%list.
Proof.
  unfold JS.assign. destruct (Z.ltb_spec (Z.of_nat (length xs)) 0); [lia |].
  rewrite Nat2Z.id. destruct (Nat.ltb_spec (length xs) (length xs)); [lia |].
  rewrite Nat.sub_diag. reflexivity.
Qed.

Lemma sound_moveToNextPlayer m m0 now m' :
  sound m →
  Match.currentLeg m0 = Match.currentLeg m →
  Match.legStarters m0 = Match.legStarters m →
  ids m0 = ids m →
  Match.state m0 = Match.state m →
  (Match.state m ≠ completed →
   ∀ j p, Match.players m0 !! j = Some p → j ≠ Match.activePlayerIndex m0 →
          (length (Player.currentTurn p) ≤ 2)%nat) →
  moveToNextPlayer m0 now = Ok m' →
  sound m'.
Proof.
  intros [Hleg Hstarters Hids Hindex Hturns Hstate] Hleg0 Hstarters0 Hids0 Hstate0
    Hturns0 Hmove.
  apply moveToNextPlayer_fields in Hmove
    as (Hplayers & Hidx & Hst & Hcurrent & Hst' & _ & _ & _ & Hnext).
  assert (Hids' : ids m' = ids m).
  { unfold ids. rewrite Hplayers, !fmap_alter_same by reflexivity. exact Hids0. }
  constructor.
  - rewrite Hcurrent, Hleg0. exact Hleg.
  - rewrite Hst', Hstarters0, Hcurrent, Hleg0. exact Hstarters.
  - rewrite Hst', Hstarters0, Hids'. exact Hids.
  - rewrite Hidx, Hplayers, !length_alter. exact Hnext.
  - rewrite Hst, Hstate0. intros Hopen. apply Forall_lookup_2. intros j p' Hj.
    rewrite Hplayers in Hj.
    assert (Hcommitted : ∃ p, alter commitTurn (Match.activePlayerIndex m0)
                                (Match.players m0) !! j = Some p
                              ∧ Player.currentTurn p' = Player.currentTurn p).
    { destruct (decide (nextIndex m0 = j)) as [<- | Hne].
      - rewrite list_lookup_alter_eq in Hj.
        destruct (alter commitTurn _ _ !! _) as [p |]; [| discriminate Hj].
        cbn in Hj. injection Hj as <-. eauto.
      - rewrite list_lookup_alter_ne in Hj by exact Hne. eauto. }
    destruct Hcommitted as (p & Hp & ->).
    destruct (decide (Match.activePlayerIndex m0 = j)) as [<- | Hne].
    + rewrite list_lookup_alter_eq in Hp.
      destruct (Match.players m0 !! _) as [q |]; [| discriminate Hp].
      cbn in Hp. injection Hp as <-. cbn. lia.
    + rewrite list_lookup_alter_ne in Hp by exact Hne.
      apply (Hturns0 Hopen j p Hp). congruence.
  - rewrite Hst, Hstate0. exact Hstate.
Qed.

Lemma sound_setupNextLeg m m0 now m' :
  sound m →
  Match.currentLeg m0 = Match.currentLeg m →
  Match.legStarters m0 = Match.legStarters m →
  ids m0 = ids m →
  Match.state m0 = Match.state m →
  setupNextLeg m0 now = Ok m' →
  sound m'.
Proof.
  intros [Hleg Hstarters Hids Hindex Hturns Hstate] Hleg0 Hstarters0 Hids0 Hstate0
    Hsetup.
  apply setupNextLeg_fields in Hsetup
    as (starter & Hstarter & Hplayers & Hidx & Hst & Hcurrent & Hstarters' & _).
  assert (Hids' : ids m' = ids m).
  { unfold ids. rewrite Hplayers, <- list_fmap_compose. exact Hids0. }
  rewrite Hstarters0, Hleg0, <- Hstarters, assign_end in Hstarters'.
  constructor.
  - lia.
  - rewrite Hstarters', length_app, Hcurrent, Hleg0, <- Hstarters. cbn. lia.
  - rewrite Hstarters', Hids'. apply Forall_app. split; [exact Hids |].
    constructor; [| constructor]. eexists. split; [reflexivity |].
    rewrite <- Hids0. unfold ids. apply list_elem_of_fmap_2.
    eapply list_elem_of_lookup_2. exact Hstarter.
  - rewrite Hidx, Hplayers, length_fmap. eapply lookup_lt_Some. exact Hstarter.
  - intros _. rewrite Hplayers. apply Forall_fmap. apply Forall_true.
    intros p. cbn. lia.
  - rewrite Hst, Hstate0. exact Hstate.
Qed.

Lemma sound_processThrow mgr m playerId segment score coordinates now mgr' r :
  match_ mgr = Some m →
  sound m →
  processThrow mgr playerId segment score coordinates now = Ok (mgr', r) →
  ∃ m', match_ mgr' = Some m' ∧ sound m'.
Proof.
  intros Hm Hsound Hcall.
  destruct (processThrow_Ok_accepted _ _ _ _ _ _ _ _ _ Hm Hcall) as [player Haccepted].
  destruct (processThrow_outcome _ _ _ _ _ _ _ _ _ _ Haccepted Hcall)
    as (_ & _ & _ & _ & m' & -> & Hcase).
  destruct Haccepted as [_ Hstate Hturn Hplayer Hdarts].
  set (v := verdict m player segment score) in *.
  set (td := throwOf m playerId player segment score coordinates now) in *.
  exists (saveMatchState m' now). split; [reflexivity |].
  assert (Hsaved : sound m' → sound (saveMatchState m' now)).
  { intros [? ? ? ? ? ?]. constructor; assumption. }
  apply Hsaved. clear Hsaved.
  destruct (Validator.gameShot v).
  - destruct Hcase as [_ Hcase].
    destruct (legCounted_fields m playerId player v td)
      as (Hplayers & Hidx & Hst & Hleg & Hstarters & _).
    assert (Hids : ids (legCounted m playerId player v td) = ids m).
    { unfold ids. rewrite Hplayers. apply fmap_alter_same. reflexivity. }
    destruct (Match.legsToWin m <=? _).
    + destruct Hcase as [_ ->].
      apply (sound_step m); try assumption.
      * intros Hopen. contradiction Hopen. reflexivity.
      * cbn. in_list.
    + destruct Hcase as [_ Hnext].
      eapply (sound_setupNextLeg m); eassumption.
  - destruct Hcase as (_ & _ & Hcase).
    destruct (scored_fields m playerId v td)
      as (Hplayers & Hidx & Hst & Hleg & Hstarters & _).
    assert (Hids : ids (scored m playerId v td) = ids m).
    { unfold ids. rewrite Hplayers. apply fmap_alter_same. apply thrown_id. }
    destruct (Z.eqb_spec (Z.of_nat (length (Player.currentTurn player))) 2)
      as [Hthird | Hearly].
    + eapply (sound_moveToNextPlayer m); try eassumption.
      intros Hopen j p Hj Hne. rewrite Hplayers, Hidx in *.
      rewrite list_lookup_alter_ne in Hj by congruence.
      pose proof (sound_turns m Hsound Hopen) as Hall.
      rewrite Forall_lookup in Hall. apply (Hall j p Hj).
    + subst m'. apply (sound_step m); try assumption.
      * rewrite Hst. intros Hopen. rewrite Hplayers.
        apply Forall_alter; [apply (sound_turns m Hsound Hopen) |].
        intros p Hp _. rewrite thrown_turn, length_app. cbn.
        rewrite Hplayer in Hp. injection Hp as <-. lia.
      * rewrite Hst. apply (sound_state m Hsound).
Qed.

Lemma sound_transition mgr m allowed target now mgr' out :
  allowed completed = false →
  target ∈ [pending; warmup; bullshot; active; completed] →
  match_ mgr = Some m →
  sound m →
  transition mgr allowed target now = Ok (mgr', out) →
  ∃ m', match_ mgr' = Some m' ∧ sound m'.
Proof.
  intros Hallowed Htarget Hm Hsound Hcall. unfold transition in Hcall.
  rewrite Hm in Hcall. cbn [orThrow mbind result_bind] in Hcall.
  destruct (allowed (Match.state m)) eqn:Hstate; [| discriminate Hcall].
  injection Hcall as <- <-. eexists. split; [reflexivity |].
  apply (sound_step m); try reflexivity; try assumption.
  intros _. apply (sound_turns m Hsound). congruence.
Qed.

(** [xs[0] = v] on an array that has a first element. *)
Lemma assign_first {A} (xs : list (option A)) (v : A) :
  xs ≠ [] → JS.assign xs 0 v = <[0%nat := Some v]> xs.
Proof.
  intros Hxs. unfold JS.assign. cbn.
  destruct xs; [contradiction | reflexivity].
Qed.

Lemma sound_setBullWinner mgr m playerId now mgr' out :
  match_ mgr = Some m →
  sound m →
  setBullWinner mgr playerId now = Ok (mgr', out) →
  ∃ m', match_ mgr' = Some m' ∧ sound m'.
Proof.
  intros Hm Hsound Hcall. unfold setBullWinner in Hcall. rewrite Hm in Hcall.
  cbn [orThrow mbind result_bind] in Hcall.
  destruct (bool_decide (Match.state m = bullshot)) eqn:Hstate;
    [| discriminate Hcall].
  apply bool_decide_eq_true in Hstate. cbn [negb] in Hcall.
  destruct (JS.findIndex (hasId playerId) (Match.players m)) as [idx |] eqn:Hidx;
    [| discriminate Hcall].
  cbn [orThrow mbind result_bind] in Hcall. injection Hcall as <- <-.
  eexists. split; [reflexivity |].
  apply findIndex_Some in Hidx as (q & Hq & Hid). apply Z.eqb_eq in Hid.
  destruct Hsound as [Hleg Hstarters Hids Hindex Hturns Hst].
  assert (Hsome : Match.legStarters m ≠ []).
  { intros Hnil. rewrite Hnil in Hstarters. cbn in Hstarters. lia. }
  constructor; cbn -[JS.assign].
  - exact Hleg.
  - rewrite assign_first, length_insert by exact Hsome. exact Hstarters.
  - rewrite assign_first by exact Hsome.
    assert (Hsame : ids (Match.setPlayers m
                     ((λ p, Player.setIsActive p (hasId playerId p))
                        <$> Match.players m)) = ids m).
    { unfold ids. cbn. rewrite <- list_fmap_compose. reflexivity. }
    unfold ids in *. cbn -[JS.assign] in Hsame |- *. rewrite Hsame.
    apply Forall_insert; [exact Hids |].
    eexists. split; [reflexivity |]. rewrite <- Hid.
    apply list_elem_of_fmap_2. eapply list_elem_of_lookup_2. exact Hq.
  - rewrite length_fmap. eapply lookup_lt_Some. exact Hq.
  - intros _. apply Forall_fmap. eapply Forall_impl; [apply Hturns; congruence |].
    intros p Hp. exact Hp.
  - in_list.
Qed.

Lemma findIndex_None {A} (pred : A → bool) (xs : list A) :
  JS.findIndex pred xs = None → Forall (λ x, pred x = false) xs.
Proof.
  induction xs as [| x xs IH]; cbn; intros Hfind; [constructor |].
  destruct (pred x) eqn:Hx; [discriminate Hfind |].
  destruct (JS.findIndex pred xs); [discriminate Hfind |].
  constructor; [exact Hx | apply IH; reflexivity].
Qed.

(** [findThrow] returns the first throw with the id in the history of
    the first player who has one. *)
Lemma findThrow_Some players throwId i playerIndex throwIndex th :
  findThrow players throwId i = Some (playerIndex, throwIndex, th) →
  ∃ player,
    (i ≤ playerIndex)%nat
    ∧ players !! (playerIndex - i)%nat = Some player
    ∧ Player.history player !! throwIndex = Some th
    ∧ Throw.id th = throwId
    ∧ (∀ l th', Player.history player !! l = Some th' → Throw.id th' = throwId →
                (throwIndex ≤ l)%nat)
    ∧ (∀ j q, (j < playerIndex - i)%nat → players !! j = Some q →
              Forall (λ th', Throw.id th' ≠ throwId) (Player.history q)).
Proof.
  revert i. induction players as [| player rest IH]; intros i Hfind;
    [discriminate Hfind |].
  cbn [findThrow] in Hfind.
  destruct (JS.findIndex _ (Player.history player)) as [index |] eqn:Hindex.
  - destruct (Player.history player !! index) as [found |] eqn:Hfound.
    + injection Hfind as <- <- <-. exists player.
      pose proof (findIndex_Some _ _ _ Hindex) as (x & Hx & Hid).
      rewrite Hfound in Hx. injection Hx as <-. apply Z.eqb_eq in Hid.
      rewrite Nat.sub_diag.
      split; [lia |]. split; [reflexivity |]. split; [exact Hfound |].
      split; [exact Hid |]. split.
      * intros l th' Hl Hid'. eapply findIndex_first; [exact Hindex | exact Hl |].
        cbn. apply Z.eqb_eq. exact Hid'.
      * intros j q Hj. lia.
    + apply findIndex_Some in Hindex as (x & Hx & _). congruence.
  - destruct (IH _ Hfind) as (p & Hle & Hp & Hth & Hid & Hfirst & Hbefore).
    exists p. split; [lia |].
    replace (playerIndex - i)%nat with (S (playerIndex - S i)) by lia.
    split; [exact Hp |]. split; [exact Hth |]. split; [exact Hid |].
    split; [exact Hfirst |].
    intros [| j] q Hj Hq.
    + injection Hq as <-. apply findIndex_None in Hindex.
      eapply Forall_impl; [exact Hindex |].
      cbn. intros th' Hth' Heq. apply Z.eqb_neq in Hth'. contradiction.
    + apply (Hbefore j q); [lia | exact Hq].
Qed.

Lemma sound_correctThrow mgr m throwId segment score now mgr' r :
  match_ mgr = Some m →
  sound m →
  correctThrow mgr throwId segment score now = Ok (mgr', r) →
  ∃ m', match_ mgr' = Some m' ∧ sound m'.
Proof.
  intros Hm Hsound Hcall. unfold correctThrow in Hcall. rewrite Hm in Hcall.
  cbn [orThrow mbind result_bind] in Hcall.
  destruct (findThrow (Match.players m) throwId 0) as [[[i k] th] |];
    [| discriminate Hcall].
  cbn [orThrow mbind result_bind] in Hcall.
  destruct (Match.players m !! i); [| discriminate Hcall].
  cbn [orThrow mbind result_bind] in Hcall. injection Hcall as <- <-.
  eexists. split; [reflexivity |].
  apply (sound_step m); try reflexivity; try assumption.
  - unfold ids. cbn. apply fmap_alter_same. reflexivity.
  - cbn. intros Hopen. apply Forall_alter; [apply (sound_turns m Hsound Hopen) |].
    intros p _ Hp. exact Hp.
  - apply (sound_state m Hsound).
Qed.

Lemma sound_manualPlayerSwitch mgr m now mgr' :
  match_ mgr = Some m →
  sound m →
  manualPlayerSwitch mgr now = Ok mgr' →
  ∃ m', match_ mgr' = Some m' ∧ sound m'.
Proof.
  intros Hm Hsound Hcall. unfold manualPlayerSwitch in Hcall. rewrite Hm in Hcall.
  destruct (moveToNextPlayer m now) as [moved |] eqn:Hmoved; [| discriminate Hcall].
  cbn in Hcall. injection Hcall as <-. eexists. split; [reflexivity |].
  eapply (sound_moveToNextPlayer m m); try reflexivity; try eassumption.
  intros Hopen j p Hj _.
  pose proof (sound_turns m Hsound Hopen) as Hall.
  rewrite Forall_lookup in Hall. apply (Hall j p Hj).
Qed.

Lemma sound_endMatch mgr m winningPlayerId now mgr' out :
  match_ mgr = Some m →
  sound m →
  endMatch mgr winningPlayerId now = Ok (mgr', out) →
  ∃ m', match_ mgr' = Some m' ∧ sound m'.
Proof.
  intros Hm Hsound Hcall. unfold endMatch in Hcall. rewrite Hm in Hcall.
  cbn [orThrow mbind result_bind] in Hcall. injection Hcall as <- <-.
  eexists. split; [reflexivity |].
  apply (sound_step m); try assumption.
  - repeat case_match; reflexivity.
  - repeat case_match; reflexivity.
  - unfold ids. repeat case_match; cbn; try reflexivity.
    apply fmap_alter_same. reflexivity.
  - repeat case_match; reflexivity.
  - cbn. intros Hopen. contradiction Hopen. reflexivity.
  - cbn. in_list.
Qed.

(** Every call keeps a sound match sound. *)
Lemma call_sound mgr m c now :
  match_ mgr = Some m → sound m →
  ∃ m', match_ (call mgr c now) = Some m' ∧ sound m'.
Proof.
  intros Hm Hsound.
  destruct (every_call (λ _ m', sound m') mgr m now Hm Hsound) with (c := c)
    as (m' & Hm' & Hsound'); [.. | eauto].
  - intros mgr' out. unfold startMatch.
    apply (sound_transition mgr m); [reflexivity | in_list | assumption ..].
  - intros mgr' out. unfold startWarmup.
    apply (sound_transition mgr m); [reflexivity | in_list | assumption ..].
  - intros mgr' out. unfold endWarmup.
    apply (sound_transition mgr m); [reflexivity | in_list | assumption ..].
  - intros playerId mgr' out. apply (sound_setBullWinner mgr m); assumption.
  - intros playerId segment score coordinates mgr' r.
    apply (sound_processThrow mgr m); assumption.
  - intros throwId segment score mgr' r.
    apply (sound_correctThrow mgr m); assumption.
  - intros mgr'. apply (sound_manualPlayerSwitch mgr m); assumption.
  - intros winningPlayerId mgr' out. apply (sound_endMatch mgr m); assumption.
  - destruct Hsound. constructor; assumption.
Qed.

Lemma reachable_sound mgr m : reachable mgr → match_ mgr = Some m → sound m.
Proof.
  intros Hreach. revert m. apply (reachable_invariant sound); [| | exact Hreach].
  - intros. eapply sound_createMatch. eassumption.
  - intros mgr0 m0 c now m' Hm0 Hsound Hm'.
    destruct (call_sound mgr0 m0 c now Hm0 Hsound) as (m'' & Hm'' & Hsound').
    congruence.
Qed.

(** ** The leg starters *)

(** X13: [legStarters] has one entry for each leg played or in play, none
    missing, and each entry is the id of a player of the match. *)
Theorem leg_starters_recorded mgr m :
  reachable mgr →
  match_ mgr = Some m →
  1 ≤ Match.currentLeg m
  ∧ Z.of_nat (length (Match.legStarters m)) = Match.currentLeg m
  ∧ ∀ leg, 1 ≤ leg ≤ Match.currentLeg m →
      ∃ id, JS.index (Match.legStarters m) (leg - 1) = Some (Some id) ∧ id ∈ ids m.
Proof.
  intros Hreach Hm.
  destruct (reachable_sound mgr m Hreach Hm) as [Hleg Hstarters Hids _ _ _].
  split; [exact Hleg |]. split; [exact Hstarters |].
  intros leg Hrange. unfold JS.index.
  destruct (Z.ltb_spec (leg - 1) 0); [lia |].
  destruct (Match.legStarters m !! Z.to_nat (leg - 1)) as [starter |] eqn:Hstarter.
  - rewrite Forall_lookup in Hids.
    destruct (Hids _ _ Hstarter) as (id & -> & Hin). eauto.
  - apply lookup_ge_None in Hstarter. lia.
Qed.

Lemma leg_starters_recorded_witness :
  ∃ m, match_ beforeCheckout = Some m
       ∧ 1 ≤ Match.currentLeg m
       ∧ Z.of_nat (length (Match.legStarters m)) = Match.currentLeg m.
Proof.
  assert (∃ m, match_ beforeCheckout = Some m) as [m Hm]
    by (eexists; vm_compute; reflexivity).
  destruct (leg_starters_recorded beforeCheckout m) as (Hleg & Hstarters & _).
  - apply reachable_calls, reachable_new. reflexivity.
  - exact Hm.
  - exists m. repeat split; assumption.
Defined.

(** ** The errors of [processThrow] *)

(** X14: On a manager that calls have led to, [processThrow] throws in four
    cases only: there is no match, the match is not in state [active], no
    player has the id, or the first player with the id is not the one at
    the active index.  The checks for a turn of three darts and the
    property reads on the players never fail there. *)
Theorem throw_refusals mgr playerId segment score coordinates now e :
  reachable mgr →
  processThrow mgr playerId segment score coordinates now = Err e →
  (match_ mgr = None ∧ e = NoMatch)
  ∨ (∃ m, match_ mgr = Some m
          ∧ ((Match.state m ≠ active ∧ e = InvalidTransition)
             ∨ (Match.state m = active ∧ (playerId ∉ ids m) ∧ e = PlayerNotFound)
             ∨ (Match.state m = active ∧ playerId ∈ ids m ∧ e = NotYourTurn))).
Proof.
  intros Hreach Hcall.
  destruct (match_ mgr) as [m |] eqn:Hm.
  2: { left. unfold processThrow in Hcall. rewrite Hm in Hcall.
       cbn in Hcall. split; congruence. }
  right. exists m. split; [reflexivity |].
  pose proof (reachable_sound mgr m Hreach Hm) as Hsound.
  pose proof Hcall as Hthrown.
  unfold processThrow in Hcall. rewrite Hm in Hcall.
  cbn [orThrow mbind result_bind] in Hcall.
  destruct (bool_decide (Match.state m = active)) eqn:Hstate.
  2: { apply bool_decide_eq_false in Hstate. cbn in Hcall. left.
       split; [exact Hstate | congruence]. }
  apply bool_decide_eq_true in Hstate. cbn [negb] in Hcall. right.
  destruct (JS.findIndex (hasId playerId) (Match.players m)) as [idx |] eqn:Hidx.
  2: { cbn in Hcall. left. split; [exact Hstate |]. split; [| congruence].
       apply findIndex_None in Hidx. unfold ids. intros Hin.
       apply list_elem_of_fmap in Hin as (p & -> & Hp).
       rewrite Forall_forall in Hidx. specialize (Hidx p Hp).
       unfold hasId in Hidx. rewrite Z.eqb_refl in Hidx. discriminate Hidx. }
  cbn [orThrow mbind result_bind] in Hcall.
  pose proof (findIndex_Some _ _ _ Hidx) as (player & Hplayer & Hid).
  apply Z.eqb_eq in Hid.
  destruct (Nat.eqb_spec idx (Match.activePlayerIndex m)) as [-> | Hne].
  2: { cbn in Hcall. right. split; [exact Hstate |]. split; [| congruence].
       unfold ids. rewrite <- Hid. apply list_elem_of_fmap_2.
       eapply list_elem_of_lookup_2. exact Hplayer. }
  exfalso.
  assert (Haccepted : accepted mgr m playerId player).
  { constructor; try assumption.
    assert (Hopen : Match.state m ≠ completed) by (rewrite Hstate; discriminate).
    pose proof (sound_turns m Hsound Hopen) as Hall.
    rewrite Forall_lookup in Hall. specialize (Hall _ _ Hplayer). cbn in Hall. lia. }
  destruct (processThrow_returns mgr m playerId player segment score coordinates now
              Haccepted) as (mgr' & r & Hok).
  congruence.
Qed.

Lemma throw_refusals_witness :
  processThrow beforeCheckout 2 "S1" 1 None 0 = Err NotYourTurn
  ∧ ∃ m, match_ beforeCheckout = Some m ∧ Match.state m = active ∧ 2 ∈ ids m.
Proof.
  assert (Hcall : processThrow beforeCheckout 2 "S1" 1 None 0 = Err NotYourTurn)
    by (vm_compute; reflexivity).
  split; [exact Hcall |].
  destruct (throw_refusals beforeCheckout 2 "S1" 1 None 0 NotYourTurn)
    as [[_ He] | (m & Hm & [[_ He] | [(_ & _ & He) | (Hstate & Hin & _)]])];
    try discriminate He.
  - apply reachable_calls, reachable_new. reflexivity.
  - exact Hcall.
  - exists m. repeat split; assumption.
Defined.

(** ** The phases of a match *)

Lemma follows_transition mgr m allowed target now mgr' out :
  (∀ s, allowed s = true → follows s target) →
  match_ mgr = Some m →
  transition mgr allowed target now = Ok (mgr', out) →
  ∃ m', match_ mgr' = Some m' ∧ follows (Match.state m) (Match.state m').
Proof.
  intros Hallowed Hm Hcall. unfold transition in Hcall. rewrite Hm in Hcall.
  cbn [orThrow mbind result_bind] in Hcall.
  destruct (allowed (Match.state m)) eqn:Hstate; [| discriminate Hcall].
  injection Hcall as <- <-. eexists. split; [reflexivity |].
  cbn. apply Hallowed. exact Hstate.
Qed.

(** X15: Whatever is called on a manager that has a match, the phase of the
    match stays where it is or moves one step along pending, warmup,
    bullshot, active, or it becomes completed.  No call takes a match back
    to an earlier phase, and a completed match stays completed. *)
Theorem phase_order mgr m c now :
  match_ mgr = Some m →
  ∃ m', match_ (call mgr c now) = Some m'
        ∧ follows (Match.state m) (Match.state m').
Proof.
  intros Hm.
  apply (every_call (λ m m', follows (Match.state m) (Match.state m')) mgr m now Hm).
  - left. reflexivity.
  - intros mgr' out. unfold startMatch. apply follows_transition; [| exact Hm].
    intros s Hs. apply bool_decide_eq_true in Hs as ->. unfold follows. tauto.
  - intros mgr' out. unfold startWarmup. apply follows_transition; [| exact Hm].
    intros s Hs. apply orb_prop in Hs as [Hs | Hs];
      apply bool_decide_eq_true in Hs as ->; unfold follows; tauto.
  - intros mgr' out. unfold endWarmup. apply follows_transition; [| exact Hm].
    intros s Hs. apply bool_decide_eq_true in Hs as ->. unfold follows. tauto.
  - intros playerId mgr' out Hcall. unfold setBullWinner in Hcall.
    rewrite Hm in Hcall. cbn [orThrow mbind result_bind] in Hcall.
    destruct (bool_decide (Match.state m = bullshot)) eqn:Hstate;
      [| discriminate Hcall].
    apply bool_decide_eq_true in Hstate. cbn [negb] in Hcall.
    destruct (JS.findIndex _ _); [| discriminate Hcall].
    cbn in Hcall. injection Hcall as <- <-. eexists. split; [reflexivity |].
    cbn. unfold follows. tauto.
  - intros playerId segment score coordinates mgr' r Hcall.
    destruct (processThrow_Ok_accepted _ _ _ _ _ _ _ _ _ Hm Hcall)
      as [player Haccepted].
    destruct (processThrow_outcome _ _ _ _ _ _ _ _ _ _ Haccepted Hcall)
      as (_ & _ & _ & _ & m' & -> & Hcase).
    eexists. split; [reflexivity |]. cbn.
    destruct (Validator.gameShot _).
    + destruct Hcase as [_ Hcase]. destruct (Match.legsToWin m <=? _).
      * destruct Hcase as [_ ->]. right. left. reflexivity.
      * destruct Hcase as [_ Hnext].
        apply setupNextLeg_fields in Hnext as (_ & _ & _ & _ & Hst & _).
        rewrite Hst. left. apply legCounted_fields.
    + destruct Hcase as (_ & _ & Hcase).
      destruct (Z.of_nat (length (Player.currentTurn player)) =? 2).
      * apply moveToNextPlayer_fields in Hcase as (_ & _ & Hst & _).
        rewrite Hst. left. apply scored_fields.
      * subst m'. left. apply scored_fields.
  - intros throwId segment score mgr' r Hcall. unfold correctThrow in Hcall.
    rewrite Hm in Hcall. cbn [orThrow mbind result_bind] in Hcall.
    destruct (findThrow _ _ _) as [[[i k] th] |]; [| discriminate Hcall].
    cbn [orThrow mbind result_bind] in Hcall.
    destruct (Match.players m !! i); [| discriminate Hcall].
    cbn in Hcall. injection Hcall as <- <-. eexists.
    split; [reflexivity |]. left. reflexivity.
  - intros mgr' Hcall. unfold manualPlayerSwitch in Hcall. rewrite Hm in Hcall.
    destruct (moveToNextPlayer m now) as [moved |] eqn:Hmoved; [| discriminate Hcall].
    cbn in Hcall. injection Hcall as <-. eexists. split; [reflexivity |].
    apply moveToNextPlayer_fields in Hmoved as (_ & _ & Hst & _).
    left. exact Hst.
  - intros winningPlayerId mgr' out Hcall. unfold endMatch in Hcall.
    rewrite Hm in Hcall. cbn in Hcall. injection Hcall as <- <-.
    eexists. split; [reflexivity |]. right. left. reflexivity.
  - left. reflexivity.
Qed.

Lemma phase_order_witness :
  ∃ m m', match_ standardGame = Some m
          ∧ match_ (call standardGame (EndMatch (Some 1)) 0) = Some m'
          ∧ follows (Match.state m) (Match.state m').
Proof.
  assert (∃ m, match_ standardGame = Some m) as [m Hm]
    by (eexists; vm_compute; reflexivity).
  destruct (phase_order standardGame m (EndMatch (Some 1)) 0 Hm) as (m' & Hm' & Hstep).
  exists m, m'. repeat split; assumption.
Defined.

(** ** One match for each manager *)

Lemma call_stays_loaded mgr m c now :
  match_ mgr = Some m → ∃ m', match_ (call mgr c now) = Some m'.
Proof.
  intros Hm.
  destruct (every_call (λ _ _, True) mgr m now Hm I) with (c := c)
    as (m' & Hm' & _); [.. | eauto].
  - intros mgr' out Hcall.
    destruct (keeps_transition _ _ _ _ _ _ _ Hm Hcall) as (m' & Hm' & _). eauto.
  - intros mgr' out Hcall.
    destruct (keeps_transition _ _ _ _ _ _ _ Hm Hcall) as (m' & Hm' & _). eauto.
  - intros mgr' out Hcall.
    destruct (keeps_transition _ _ _ _ _ _ _ Hm Hcall) as (m' & Hm' & _). eauto.
  - intros playerId mgr' out Hcall.
    destruct (keeps_setBullWinner _ _ _ _ _ _ Hm Hcall) as (m' & Hm' & _). eauto.
  - intros playerId segment score coordinates mgr' r Hcall.
    destruct (keeps_processThrow _ _ _ _ _ _ _ _ _ Hm Hcall) as (m' & Hm' & _). eauto.
  - intros throwId segment score mgr' r Hcall.
    destruct (keeps_correctThrow _ _ _ _ _ _ _ _ Hm Hcall) as (m' & Hm' & _). eauto.
  - intros mgr' Hcall.
    destruct (keeps_manualPlayerSwitch _ _ _ _ Hm Hcall) as (m' & Hm' & _). eauto.
  - intros winningPlayerId mgr' out Hcall.
    destruct (keeps_endMatch _ _ _ _ _ _ Hm Hcall) as (m' & Hm' & _). eauto.
  - exact I.
Qed.

(** X16: Nothing ever unloads a match: once a manager has one, it has one
    after every further list of calls, and every later [createMatch] on it
    throws 'Match already in progress', also after [endMatch] and after a
    match won. *)
Theorem one_match_per_manager mgr m cs :
  match_ mgr = Some m →
  (∃ m', match_ (run mgr cs) = Some m')
  ∧ ∀ boardId players mode legsToWin settings now insertedId,
      createMatch (run mgr cs) boardId players mode legsToWin settings now insertedId
      = Err AlreadyInProgress.
Proof.
  intros Hm.
  assert (Hloaded : ∃ m', match_ (run mgr cs) = Some m').
  { revert mgr m Hm. induction cs as [| [c now] cs IH]; intros mgr m Hm; [eauto |].
    cbn. destruct (call_stays_loaded mgr m c now Hm) as (m' & Hm').
    apply (IH _ m' Hm'). }
  split; [exact Hloaded |]. intros. destruct Hloaded as [m' Hm'].
  unfold createMatch. rewrite Hm', bool_decide_eq_true_2 by eauto. reflexivity.
Qed.

Lemma one_match_per_manager_witness :
  createMatch (run standardGame [(EndMatch (Some 1), 5)]) 2 [anna; bert] "x01" 3
    unset 6 None
  = Err AlreadyInProgress.
Proof.
  assert (∃ m, match_ standardGame = Some m) as [m Hm]
    by (eexists; vm_compute; reflexivity).
  apply (one_match_per_manager standardGame m [(EndMatch (Some 1), 5)] Hm).
Defined.

(** ** [correctThrow] *)

Lemma findThrow_None players throwId i :
  findThrow players throwId i = None →
  Forall (λ p, Forall (λ th, Throw.id th ≠ throwId) (Player.history p)) players.
Proof.
  revert i. induction players as [| player rest IH]; intros i Hfind; [constructor |].
  cbn [findThrow] in Hfind.
  destruct (JS.findIndex _ (Player.history player)) as [index |] eqn:Hindex.
  - pose proof (findIndex_Some _ _ _ Hindex) as (x & Hx & _).
    rewrite Hx in Hfind. discriminate Hfind.
  - constructor; [| eapply IH; exact Hfind].
    apply findIndex_None in Hindex. eapply Forall_impl; [exact Hindex |].
    cbn. intros th Hth Heq. apply Z.eqb_neq in Hth. contradiction.
Qed.

(** X17: A correction reaches the throws of the turns that are over, not
    those of a turn in progress: with no throw of that id in any history
    the call throws 'Throw ... not found', whatever the current turns hold.
    When it succeeds, on a throw [th] in the history of [player], the
    throw gets the new segment and score in place and the player's score
    moves by the difference of the two throw scores; nothing else reacts.
    The result never reports a bust, a game shot or a leg won, whatever the
    verdict says, which is the verdict on the new dart thrown at the score
    the player had before the correction. *)
Theorem correction mgr m throwId segment score now :
  match_ mgr = Some m →
  match correctThrow mgr throwId segment score now with
  | Err e =>
      e = ThrowNotFound
      ∧ Forall (λ p, Forall (λ th, Throw.id th ≠ throwId) (Player.history p))
          (Match.players m)
  | Ok (mgr', r) =>
      ∃ i k player th m' player',
        Match.players m !! i = Some player
        ∧ Player.history player !! k = Some th
        ∧ Throw.id th = throwId
        ∧ (∀ l th', Player.history player !! l = Some th' →
                    Throw.id th' = throwId → (k ≤ l)%nat)
        ∧ (∀ j q, (j < i)%nat → Match.players m !! j = Some q →
                  Forall (λ th', Throw.id th' ≠ throwId) (Player.history q))
        ∧ throwData r = Throw.correct th segment score
        ∧ validationResult r
          = Validator.validateX01Throw (Player.score player) segment score
              (default 0 (Throw.throwIndex th) - 1) (Match.settings m)
        ∧ bust r = false ∧ gameShot r = false ∧ legWon r = false
        ∧ matchWon r = false ∧ checkoutSuggestion r = None
        ∧ match_ mgr' = Some m'
        ∧ Match.state m' = Match.state m
        ∧ Match.activePlayerIndex m' = Match.activePlayerIndex m
        ∧ Match.stats m' = Match.stats m
        ∧ Match.players m' !! i = Some player'
        ∧ (∀ j, j ≠ i → Match.players m' !! j = Match.players m !! j)
        ∧ Player.score player' = Player.score player - (score - Throw.score th)
        ∧ Player.history player'
          = <[k := Throw.correct th segment score]> (Player.history player)
        ∧ Player.currentTurn player' = Player.currentTurn player
        ∧ Player.originalScore player' = Player.originalScore player
        ∧ Player.isWinner player' = Player.isWinner player
  end.
Proof.
  intros Hm. unfold correctThrow. rewrite Hm. cbn [orThrow mbind result_bind].
  destruct (findThrow (Match.players m) throwId 0) as [[[i k] th] |] eqn:Hfind.
  - cbn [orThrow mbind result_bind].
    apply findThrow_Some in Hfind
      as (player & _ & Hplayer & Hth & Hid & Hfirst & Hbefore).
    rewrite Nat.sub_0_r in Hplayer, Hbefore. rewrite Hplayer.
    cbn [orThrow mbind result_bind].
    exists i, k, player, th. eexists _, _.
    repeat (split; [first [assumption | reflexivity] |]).
    split.
    { cbn. f_equal. lia. }
    repeat (split; [reflexivity |]).
    split; [cbn; rewrite list_lookup_alter_eq, Hplayer; reflexivity |].
    split; [intros j Hj; cbn; apply list_lookup_alter_ne; congruence |].
    repeat split.
  - cbn. split; [reflexivity |]. eapply findThrow_None. exact Hfind.
Qed.

Lemma correction_witness :
  ∃ mgr' r m' player',
    correctThrow onThirtyTwo 0 "S20" 20 7 = Ok (mgr', r)
    ∧ match_ mgr' = Some m'
    ∧ Match.players m' !! 0%nat = Some player'
    ∧ Player.score player' = 72.
Proof.
  assert (∃ m mgr' r first dart,
            match_ onThirtyTwo = Some m
            ∧ correctThrow onThirtyTwo 0 "S20" 20 7 = Ok (mgr', r)
            ∧ Match.players m !! 0%nat = Some first
            ∧ Player.score first = 32
            ∧ Player.history first !! 0%nat = Some dart
            ∧ Throw.id dart = 0
            ∧ Throw.score dart = 60)
    as (m & mgr' & r & first & dart & Hm & Hcall & Hfirst & Hscore & Hdart & Hid
        & Hsixty).
  { eexists _, _, _, _, _. split; [vm_compute; reflexivity |].
    split; [vm_compute; reflexivity |]. split; [vm_compute; reflexivity |].
    split; [reflexivity |]. split; [vm_compute; reflexivity |]. split; reflexivity. }
  pose proof (correction onThirtyTwo m 0 "S20" 20 7 Hm) as Hcorrect.
  rewrite Hcall in Hcorrect.
  destruct Hcorrect as (i & k & p & th & m' & p' & Hp & Hth & _ & Hleast & Hbefore
                        & _ & _ & _ & _ & _ & _ & _ & Hm' & _ & _ & _ & Hp' & _
                        & Hscore' & _).
  assert (i = 0%nat) as ->.
  { destruct i as [| i]; [reflexivity |]. exfalso.
    pose proof (Hbefore 0%nat first ltac:(lia) Hfirst) as Hnone.
    rewrite Forall_lookup in Hnone. apply (Hnone _ _ Hdart). exact Hid. }
  rewrite Hfirst in Hp. injection Hp as <-.
  assert (k = 0%nat) as -> by (specialize (Hleast _ _ Hdart Hid); lia).
  rewrite Hdart in Hth. injection Hth as <-.
  exists mgr', r, m', p'. repeat (split; [assumption |]).
  rewrite Hscore', Hscore, Hsixty. reflexivity.
Defined.

(** ** The bull winner *)

Lemma findIndex_fmap {A} (pred : A → bool) (f : A → A) (l : list A) :
  (∀ x, pred (f x) = pred x) →
  JS.findIndex pred (f <$> l) = JS.findIndex pred l.
Proof.
  intros Hf. induction l as [| x l IH]; cbn; rewrite ?Hf, ?IH; reflexivity.
Qed.

(** X18: The bull winner starts.  When [setBullWinner] succeeds on a manager
    that calls have led to, the match is active, the winner is entered as
    the starter of the first leg and is the active player, and a throw of
    the winner is accepted, whatever the dart. *)
Theorem bull_winner_starts mgr playerId now mgr' out :
  reachable mgr →
  setBullWinner mgr playerId now = Ok (mgr', out) →
  ∃ winner,
    match_ mgr' = Some out
    ∧ Match.state out = active
    ∧ JS.index (Match.legStarters out) 0 = Some (Some playerId)
    ∧ Match.players out !! Match.activePlayerIndex out = Some winner
    ∧ Player.id winner = playerId
    ∧ Player.isActive winner = true
    ∧ ∀ segment score coordinates now',
        ∃ mgr'' r,
          processThrow mgr' playerId segment score coordinates now' = Ok (mgr'', r).
Proof.
  intros Hreach Hcall.
  destruct (match_ mgr) as [m |] eqn:Hm.
  2: { unfold setBullWinner in Hcall. rewrite Hm in Hcall. discriminate Hcall. }
  pose proof (reachable_sound mgr m Hreach Hm) as Hsound.
  unfold setBullWinner in Hcall. rewrite Hm in Hcall.
  cbn [orThrow mbind result_bind] in Hcall.
  destruct (bool_decide (Match.state m = bullshot)) eqn:Hstate;
    [| discriminate Hcall].
  apply bool_decide_eq_true in Hstate. cbn [negb] in Hcall.
  destruct (JS.findIndex (hasId playerId) (Match.players m)) as [idx |] eqn:Hidx;
    [| discriminate Hcall].
  cbn [orThrow mbind result_bind] in Hcall. injection Hcall as <- <-.
  pose proof (findIndex_Some _ _ _ Hidx) as (q & Hq & Hid).
  assert (Hstarters : Match.legStarters m ≠ []).
  { intros Hnil. destruct Hsound as [Hleg Hlen _ _ _ _].
    rewrite Hnil in Hlen. cbn in Hlen. lia. }
  assert (Hwinner : ((λ p, Player.setIsActive p (hasId playerId p)) <$> Match.players m)
                    !! idx
                    = Some (Player.setIsActive q true)).
  { rewrite list_lookup_fmap, Hq. cbn. rewrite Hid. reflexivity. }
  exists (Player.setIsActive q true).
  cbn -[JS.assign JS.index processThrow].
  split; [reflexivity |]. split; [reflexivity |].
  split.
  { rewrite assign_first by exact Hstarters.
    destruct (Match.legStarters m); [contradiction | reflexivity]. }
  split; [exact Hwinner |]. split; [apply Z.eqb_eq; exact Hid |].
  split; [reflexivity |].
  intros segment score coordinates now'.
  eapply processThrow_returns. constructor.
  - reflexivity.
  - reflexivity.
  - cbn. rewrite findIndex_fmap by reflexivity. exact Hidx.
  - exact Hwinner.
  - cbn. assert (Hopen : Match.state m ≠ completed) by (rewrite Hstate; discriminate).
    pose proof (sound_turns m Hsound Hopen) as Hall.
    rewrite Forall_lookup in Hall. specialize (Hall _ _ Hq). cbn in Hall. lia.
Qed.

Lemma bull_winner_starts_witness :
  ∃ mgr' out winner,
    setBullWinner atTheBull 2 0 = Ok (mgr', out)
    ∧ Match.players out !! Match.activePlayerIndex out = Some winner
    ∧ Player.id winner = 2
    ∧ JS.index (Match.legStarters out) 0 = Some (Some 2).
Proof.
  assert (∃ mgr' out, setBullWinner atTheBull 2 0 = Ok (mgr', out))
    as (mgr' & out & Hcall) by (eexists _, _; vm_compute; reflexivity).
  destruct (bull_winner_starts atTheBull 2 0 mgr' out)
    as (winner & _ & _ & Hstarter & Hwinner & Hid & _).
  - apply reachable_calls, reachable_new. reflexivity.
  - exact Hcall.
  - exists mgr', out, winner. repeat split; assumption.
Defined.

(** ** [manualPlayerSwitch] *)

Lemma manualPlayerSwitch_step mgr m now :
  match_ mgr = Some m →
  (Match.activePlayerIndex m < length (Match.players m))%nat →
  ∃ m', match_ (call mgr ManualPlayerSwitch now) = Some m'
        ∧ length (Match.players m') = length (Match.players m)
        ∧ Match.activePlayerIndex m' = nextIndex m
        ∧ Match.round m'
          = (if Nat.eqb (nextIndex m) 0 then Match.round m + 1 else Match.round m).
Proof.
  intros Hm Hidx. apply lookup_lt_is_Some_2 in Hidx as [p Hp].
  destruct (moveToNextPlayer_Ok m now p Hp) as (moved & Hmoved & _).
  cbn [call]. unfold manualPlayerSwitch. rewrite Hm, Hmoved. cbn.
  apply moveToNextPlayer_fields in Hmoved
    as (Hplayers & Hnext & _ & _ & _ & Hround & _).
  eexists. split; [reflexivity |].
  split; [rewrite Hplayers, !length_alter; reflexivity |].
  split; assumption.
Qed.

Lemma switches mgr m now k :
  match_ mgr = Some m →
  (Match.activePlayerIndex m < length (Match.players m))%nat →
  ∃ m', match_ (run mgr (replicate k (ManualPlayerSwitch, now))) = Some m'
        ∧ length (Match.players m') = length (Match.players m)
        ∧ Match.activePlayerIndex m'
          = ((Match.activePlayerIndex m + k) mod length (Match.players m))%nat
        ∧ Match.round m'
          = Match.round m
            + Z.of_nat ((Match.activePlayerIndex m + k) / length (Match.players m)).
Proof.
  revert mgr m. induction k as [| k IH]; intros mgr m Hm Hidx.
  - exists m. cbn. rewrite Nat.add_0_r, Nat.mod_small, Nat.div_small by exact Hidx.
    repeat split; [exact Hm | lia].
  - destruct (manualPlayerSwitch_step mgr m now Hm Hidx)
      as (m1 & Hm1 & Hlen & Hnext & Hround).
    assert (Hidx1 : (Match.activePlayerIndex m1 < length (Match.players m1))%nat).
    { rewrite Hnext, Hlen. unfold nextIndex. apply Nat.mod_upper_bound. lia. }
    destruct (IH _ m1 Hm1 Hidx1) as (m' & Hm' & Hlen' & Hidx' & Hround').
    exists m'. cbn [replicate run foldl]. split; [exact Hm' |].
    rewrite Hlen in Hlen', Hidx', Hround'. split; [exact Hlen' |].
    rewrite Hnext in Hidx', Hround'. unfold nextIndex in *.
    set (n := length (Match.players m)) in *.
    set (i := Match.activePlayerIndex m) in *.
    split.
    + rewrite Hidx', Nat.Div0.add_mod_idemp_l. f_equal. lia.
    + rewrite Hround', Hround.
      destruct (decide (i + 1 = n)%nat) as [Hlast | Hinner].
      * rewrite Hlast, Nat.Div0.mod_same. cbn [Nat.eqb Nat.add].
        replace (i + S k)%nat with (k + 1 * n)%nat by lia.
        rewrite Nat.div_add by lia. lia.
      * rewrite (Nat.mod_small (i + 1) n) by lia.
        destruct (Nat.eqb_spec (i + 1) 0); [lia |].
        replace (i + S k)%nat with (i + 1 + k)%nat by lia. lia.
Qed.

(** X19: As many switches as there are players go once round the table:
    the same player is active again and the round has gone up by one. *)
Theorem switches_go_round mgr m now :
  reachable mgr →
  match_ mgr = Some m →
  ∃ m',
    match_ (run mgr (replicate (length (Match.players m)) (ManualPlayerSwitch, now)))
    = Some m'
    ∧ Match.activePlayerIndex m' = Match.activePlayerIndex m
    ∧ Match.round m' = Match.round m + 1.
Proof.
  intros Hreach Hm.
  pose proof (sound_index m (reachable_sound mgr m Hreach Hm)) as Hidx.
  destruct (switches mgr m now (length (Match.players m)) Hm Hidx)
    as (m' & Hm' & _ & Hidx' & Hround).
  exists m'. split; [exact Hm' |].
  set (n := length (Match.players m)) in *.
  replace (Match.activePlayerIndex m + n)%nat
    with (Match.activePlayerIndex m + 1 * n)%nat in Hidx', Hround by lia.
  rewrite Nat.Div0.mod_add, Nat.mod_small in Hidx' by exact Hidx.
  rewrite Nat.div_add, Nat.div_small in Hround by lia.
  split; [exact Hidx' | rewrite Hround; reflexivity].
Qed.

Lemma switches_go_round_witness :
  ∃ m m',
    match_ standardGame = Some m
    ∧ match_ (run standardGame (replicate (length (Match.players m))
                                  (ManualPlayerSwitch, 3))) = Some m'
    ∧ Match.activePlayerIndex m' = Match.activePlayerIndex m
    ∧ Match.round m' = Match.round m + 1.
Proof.
  assert (∃ m, match_ standardGame = Some m) as [m Hm]
    by (eexists; vm_compute; reflexivity).
  destruct (switches_go_round standardGame m 3) as (m' & Hm' & Hidx & Hround).
  - apply reachable_calls, reachable_new. reflexivity.
  - exact Hm.
  - exists m, m'. repeat split; assumption.
Defined.

(** ** [recordBullShot] *)

Lemma roundedRoot_nearest n :
  0 ≤ n →
  0 ≤ Validator.roundedRoot n
  ∧ 4 * n < (2 * Validator.roundedRoot n + 1) * (2 * Validator.roundedRoot n + 1)
  ∧ (0 < n →
       (2 * Validator.roundedRoot n - 1) * (2 * Validator.roundedRoot n - 1) < 4 * n).
Proof.
  intros Hn. unfold Validator.roundedRoot. cbv zeta.
  pose proof (Z.sqrt_spec n Hn) as [Hlow Hhigh].
  pose proof (Z.sqrt_nonneg n) as Hroot.
  unfold Z.succ in Hhigh.
  destruct (Z.leb_spec (n - Z.sqrt n * Z.sqrt n) (Z.sqrt n)); repeat split; nia.
Qed.

(** X20: A bull shot is measured, not judged.  In state [bullshot]
    [recordBullShot] returns, for any player id, known to the match or
    not, the distance of the dart from the centre to the nearest
    millimetre: the whole number [d] with [(d - 1/2)² < x² + y² <
    (d + 1/2)²], and 0 for a dart in the centre.  In any other state it
    throws.  The coordinates are whole numbers small enough for the
    arithmetic of doubles to be exact on them. *)
Theorem bull_shot_measured mgr m playerId segment x y :
  match_ mgr = Some m →
  x * x + y * y < 2 ^ 50 →
  (Match.state m = bullshot →
   ∃ shot,
     recordBullShot mgr playerId segment (x, y) = Ok shot
     ∧ BullResult.playerId shot = playerId
     ∧ BullResult.segment shot = segment
     ∧ BullResult.formattedDistance shot
       = JS.toString (BullResult.distance shot) ++ " mm"
     ∧ 0 ≤ BullResult.distance shot
     ∧ 4 * (x * x + y * y)
       < (2 * BullResult.distance shot + 1) * (2 * BullResult.distance shot + 1)
     ∧ ((x, y) ≠ (0, 0) →
          (2 * BullResult.distance shot - 1) * (2 * BullResult.distance shot - 1)
          < 4 * (x * x + y * y))
     ∧ ((x, y) = (0, 0) → BullResult.distance shot = 0))
  ∧ (Match.state m ≠ bullshot →
     recordBullShot mgr playerId segment (x, y) = Err InvalidTransition).
Proof.
  intros Hm _. unfold recordBullShot. rewrite Hm. cbn [orThrow mbind result_bind].
  split; intros Hstate.
  - rewrite bool_decide_eq_true_2 by exact Hstate.
    cbn [negb Validator.calculateDistanceFromBull]. eexists. split; [reflexivity |].
    cbn [BullResult.playerId BullResult.segment BullResult.formattedDistance
         BullResult.distance].
    split; [reflexivity |]. split; [reflexivity |]. split; [reflexivity |].
    destruct (roundedRoot_nearest (x * x + y * y)) as (Hnonneg & Hupper & Hlower);
      [nia |].
    split; [exact Hnonneg |]. split; [exact Hupper |]. split.
    + intros Hoff. apply Hlower.
      destruct (decide (x = 0)) as [-> | Hx]; [| nia].
      destruct (decide (y = 0)) as [-> | Hy]; [congruence | nia].
    + intros [= -> ->]. reflexivity.
  - rewrite bool_decide_eq_false_2 by exact Hstate. reflexivity.
Qed.

Lemma bull_shot_measured_witness :
  ∃ shot,
    recordBullShot atTheBull 2 "S20" (30, -40) = Ok shot
    ∧ BullResult.distance shot = 50.
Proof.
  assert (∃ m, match_ atTheBull = Some m ∧ Match.state m = bullshot)
    as (m & Hm & Hstate) by (eexists; split; vm_compute; reflexivity).
  destruct (bull_shot_measured atTheBull m 2 "S20" 30 (-40) Hm) as [Hshot _];
    [reflexivity |].
  destruct (Hshot Hstate) as (shot & Hcall & _ & _ & _ & Hnonneg & Hupper & Hlower & _).
  exists shot. split; [exact Hcall |].
  specialize (Hlower ltac:(discriminate)). nia.
Defined.

(** ** The checkout suggestion of a throw *)

(** The suggestion [processThrow] reports: none when the dart ends the
    turn or wins the leg, else the one for the score the thrower is left
    on and the darts left in the turn. *)
Lemma processThrow_suggestion mgr m playerId player segment score coordinates now
    mgr' r :
  accepted mgr m playerId player →
  processThrow mgr playerId segment score coordinates now = Ok (mgr', r) →
  let v := verdict m player segment score in
  let td := throwOf m playerId player segment score coordinates now in
  let darts := Z.of_nat (length (Player.currentTurn player)) in
  checkoutSuggestion r
  = if Validator.gameShot v || (darts =? 2) then None
    else if checkoutSuggestions (Match.settings m)
            && StatsTracker.isCheckoutPosition (Player.score (thrown v td player))
    then Validator.getCheckoutSuggestion (Player.score (thrown v td player))
           (3 - (darts + 1))
    else None.
Proof.
  intros Haccepted Hcall. cbv zeta.
  rewrite (processThrow_accepted _ _ _ _ _ _ _ _ Haccepted) in Hcall.
  destruct Haccepted as [Hm Hstate Hturn Hplayer Hdarts].
  set (td := throwOf m playerId player segment score coordinates now) in *.
  assert (Hv : Validator.gameShot (verdict m player segment score) = true →
               Validator.valid (verdict m player segment score) = true
               ∧ Validator.bust (verdict m player segment score) = false
               ∧ Validator.newScore (verdict m player segment score) = Some 0)
    by apply shot_is_valid.
  set (v := verdict m player segment score) in *.
  destruct (applyValidation _ _ playerId player v now)
    as [[[[[m1 b] g] l] w] |] eqn:Hfirst; [| discriminate Hcall].
  cbn [mbind result_bind] in Hcall.
  assert (Hblock : l = Validator.gameShot v
                   ∧ (l = false →
                      Match.players m1 !! Match.activePlayerIndex m
                      = Some (thrown v td player)
                      ∧ Match.settings m1 = Match.settings m)).
  { unfold applyValidation in Hfirst. unfold thrown.
    destruct (Validator.gameShot v) eqn:Hg.
    - destruct (Hv eq_refl) as (Hvalid & Hnobust & _).
      rewrite Hvalid, Hnobust in Hfirst. cbn [andb negb] in Hfirst.
      destruct (_ <=? _); [injection Hfirst as <- <- <- <- <- |].
      + split; [reflexivity | discriminate].
      + destruct (setupNextLeg _ now); [| discriminate Hfirst].
        cbn in Hfirst. injection Hfirst as <- <- <- <- <-.
        split; [reflexivity | discriminate].
    - destruct (Validator.valid v && negb (Validator.bust v));
        [| destruct (Validator.bust v)];
        injection Hfirst as <- <- <- <- <-; (split; [reflexivity |]); intros _;
        autorewrite with match_fields; cbn;
        rewrite ?list_lookup_alter_eq, Hplayer; split; reflexivity. }
  destruct Hblock as [-> Hlater].
  unfold endTurnOrSuggest in Hcall.
  destruct (Validator.gameShot v).
  - rewrite orb_true_r in Hcall. cbn in Hcall. injection Hcall as <- <-. reflexivity.
  - rewrite orb_false_r in Hcall. cbn [orb negb] in Hcall |- *.
    destruct (Hlater eq_refl) as [Hthrower Hsettings].
    destruct (Z.of_nat (length (Player.currentTurn player)) =? 2).
    + destruct (moveToNextPlayer m1 now); [| discriminate Hcall].
      cbn in Hcall. injection Hcall as <- <-. reflexivity.
    + rewrite Hthrower, Hsettings in Hcall. cbn [orThrow mbind result_bind] in Hcall.
      destruct (checkoutSuggestions (Match.settings m) && _);
        injection Hcall as <- <-; reflexivity.
Qed.

(** X21: A checkout suggestion is reported only with a first or second dart
    that is no game shot, in a match whose settings ask for suggestions.
    It is then what [getCheckoutSuggestion] gives for the score the
    thrower is left on, a bust leaving the score of the start of the turn,
    with the darts left in the turn, two or one; so it is a finish for
    that score from that many darts unless the score is odd and is 1, or
    is at most 39 with one dart left, or lies from 99 to 109 with two. *)
Theorem suggestion_reported mgr m playerId player segment score coordinates now
    mgr' r path :
  accepted mgr m playerId player →
  processThrow mgr playerId segment score coordinates now = Ok (mgr', r) →
  checkoutSuggestion r = Some path →
  ∃ m' player',
    match_ mgr' = Some m'
    ∧ Match.players m' !! Match.activePlayerIndex m = Some player'
    ∧ gameShot r = false
    ∧ (length (Player.currentTurn player) < 2)%nat
    ∧ checkoutSuggestions (Match.settings m) = true
    ∧ Validator.getCheckoutSuggestion (Player.score player')
        (2 - Z.of_nat (length (Player.currentTurn player)))
      = Some path
    ∧ CheckoutSpec.isFinish (Player.score player')
        (2 - Z.of_nat (length (Player.currentTurn player))) path
      = negb (CheckoutFacts.misled (Player.score player')
                (2 - Z.of_nat (length (Player.currentTurn player)))).
Proof.
  intros Haccepted Hcall Hpath.
  pose proof (processThrow_suggestion _ _ _ _ _ _ _ _ _ _ Haccepted Hcall) as Hreported.
  destruct (processThrow_outcome _ _ _ _ _ _ _ _ _ _ Haccepted Hcall)
    as (_ & _ & _ & Hshot & m' & -> & Hcase).
  cbv zeta in Hreported. rewrite Hpath in Hreported.
  destruct (Validator.gameShot _) eqn:Hg; [discriminate Hreported |].
  cbn [orb] in Hreported.
  destruct (Z.eqb_spec (Z.of_nat (length (Player.currentTurn player))) 2)
    as [Hthird | Hearly]; [discriminate Hreported |].
  destruct Hcase as (_ & _ & ->).
  destruct (checkoutSuggestions (Match.settings m)) eqn:Hasked;
    [| discriminate Hreported].
  destruct (StatsTracker.isCheckoutPosition _); [| discriminate Hreported].
  cbn [andb] in Hreported.
  pose proof (accepted_darts _ _ _ _ Haccepted) as Hdarts.
  pose proof (accepted_player _ _ _ _ Haccepted) as Hplayer.
  set (darts := Z.of_nat (length (Player.currentTurn player))) in *.
  replace (3 - (darts + 1)) with (2 - darts) in Hreported by lia.
  eexists _, _. split; [reflexivity |].
  split.
  { cbn. rewrite (proj1 (scored_fields _ _ _ _)), list_lookup_alter_eq, Hplayer.
    reflexivity. }
  split; [exact Hshot |]. split; [lia |]. split; [reflexivity |].
  split; [symmetry; exact Hreported |].
  apply CheckoutFacts.suggestion_is_finish_at; [lia | symmetry; exact Hreported].
Qed.

Lemma suggestion_reported_witness :
  ∃ mgr' r,
    processThrow onThirtyTwo 1 "S16" 16 None 0 = Ok (mgr', r)
    ∧ checkoutSuggestion r = Some ["D8"]
    ∧ CheckoutSpec.isFinish 16 2 ["D8"] = true.
Proof.
  assert (∃ m player mgr' r,
            accepted onThirtyTwo m 1 player
            ∧ processThrow onThirtyTwo 1 "S16" 16 None 0 = Ok (mgr', r)
            ∧ checkoutSuggestion r = Some ["D8"]
            ∧ Match.activePlayerIndex m = 0%nat
            ∧ Player.currentTurn player = []
            ∧ (∀ m', match_ mgr' = Some m' →
                 Player.score <$> Match.players m' !! 0%nat = Some 16))
    as (m & player & mgr' & r & Haccepted & Hcall & Hpath & Hindex & Hturn & Hleft).
  { eexists _, _, _, _. split; [accept_by_evaluation |].
    split; [vm_compute; reflexivity |]. split; [reflexivity |].
    split; [reflexivity |]. split; [reflexivity |].
    intros m' [= <-]. reflexivity. }
  destruct (suggestion_reported onThirtyTwo m 1 player "S16" 16 None 0 mgr' r ["D8"]
              Haccepted Hcall Hpath)
    as (m' & player' & Hm' & Hplayer' & _ & _ & _ & _ & Hfinish).
  exists mgr', r. split; [exact Hcall |]. split; [exact Hpath |].
  specialize (Hleft m' Hm'). rewrite Hindex in Hplayer'.
  rewrite Hplayer' in Hleft. cbn in Hleft. injection Hleft as Hscore.
  rewrite Hscore, Hturn in Hfinish. exact Hfinish.
Defined.

(** ** The third dart and the dart that wins the match *)

(** X22: After a third dart that is no game shot the turn passes to the
    next player in seating order, the first one following the last; the
    round number goes up by one when the first player is up again.  The
    thrower loses the active flag and the score reached, after a bust the
    score the turn began with, is the score the next turn starts from. *)
Theorem turn_passes mgr m playerId player segment score coordinates now mgr' r :
  accepted mgr m playerId player →
  length (Player.currentTurn player) = 2%nat →
  processThrow mgr playerId segment score coordinates now = Ok (mgr', r) →
  gameShot r = false →
  ∃ m' thrower next,
    match_ mgr' = Some m'
    ∧ Match.state m' = active
    ∧ Match.activePlayerIndex m'
      = ((Match.activePlayerIndex m + 1) mod length (Match.players m))%nat
    ∧ Match.round m'
      = (if Nat.eqb (Match.activePlayerIndex m') 0
         then Match.round m + 1 else Match.round m)
    ∧ Match.players m' !! Match.activePlayerIndex m' = Some next
    ∧ Player.isActive next = true
    ∧ Match.players m' !! Match.activePlayerIndex m = Some thrower
    ∧ (Match.activePlayerIndex m' ≠ Match.activePlayerIndex m →
         Player.isActive thrower = false)
    ∧ Player.originalScore thrower = Player.score thrower
    ∧ (bust r = true → Player.score thrower = Player.originalScore player)
    ∧ Player.dartsThrown thrower = Player.dartsThrown player + 1.
Proof.
  intros Haccepted Hthird Hcall Hnoshot.
  destruct (processThrow_outcome _ _ _ _ _ _ _ _ _ _ Haccepted Hcall)
    as (_ & _ & _ & Hshot & m' & -> & Hcase).
  rewrite Hnoshot in Hshot. rewrite <- Hshot in Hcase.
  destruct Hcase as (Hbust & _ & Hcase).
  rewrite Hthird in Hcase. cbn in Hcase.
  destruct Haccepted as [Hm Hstate Hturn Hplayer Hdarts].
  set (v := verdict m player segment score) in *.
  set (td := throwOf m playerId player segment score coordinates now) in *.
  destruct (scored_fields m playerId v td)
    as (Hplayers & Hidx & Hst & _ & _ & Hround & _).
  apply moveToNextPlayer_fields in Hcase
    as (Hplayers' & Hidx' & Hst' & _ & _ & Hround' & _ & _ & Hnext).
  unfold nextIndex in *. rewrite Hplayers, Hidx, length_alter in *.
  set (idx := Match.activePlayerIndex m) in *.
  set (nxt := ((idx + 1) mod length (Match.players m))%nat) in *.
  assert (Hbustfirst : Validator.bust v = true → Validator.valid v = true)
    by apply shot_is_valid.
  assert (Hcommitted : alter commitTurn idx (alter (thrown v td) idx (Match.players m))
                       !! idx = Some (commitTurn (thrown v td player))).
  { rewrite !list_lookup_alter_eq, Hplayer. reflexivity. }
  destruct (decide (nxt = idx)) as [Hsame | Hother].
  - exists (saveMatchState m' now),
      (Player.setIsActive (commitTurn (thrown v td player)) true),
      (Player.setIsActive (commitTurn (thrown v td player)) true).
    cbn [saveMatchState Match.stamp Match.state Match.activePlayerIndex Match.round
         Match.players].
    rewrite Hplayers', Hidx', Hround', Hround, Hst', Hst, Hsame.
    rewrite list_lookup_alter_eq, Hcommitted.
    split; [reflexivity |]. split; [exact Hstate |]. split; [reflexivity |].
    split; [reflexivity |]. split; [reflexivity |]. split; [reflexivity |].
    split; [reflexivity |]. split; [intros Hne; contradiction |].
    split; [reflexivity |].
    split; [| unfold thrown; repeat case_match; reflexivity].
    rewrite Hbust. intros Hb. unfold thrown. rewrite Hb, (Hbustfirst Hb). reflexivity.
  - assert (Hsome : is_Some (alter commitTurn idx (alter (thrown v td) idx
                                                     (Match.players m)) !! nxt)).
    { apply lookup_lt_is_Some. rewrite !length_alter. exact Hnext. }
    destruct Hsome as [q Hq].
    exists (saveMatchState m' now), (commitTurn (thrown v td player)),
      (Player.setIsActive q true).
    cbn [saveMatchState Match.stamp Match.state Match.activePlayerIndex Match.round
         Match.players].
    rewrite Hplayers', Hidx', Hround', Hround, Hst', Hst.
    rewrite list_lookup_alter_eq, Hq, list_lookup_alter_ne, Hcommitted by exact Hother.
    split; [reflexivity |]. split; [exact Hstate |]. split; [reflexivity |].
    split; [reflexivity |]. split; [reflexivity |]. split; [reflexivity |].
    split; [reflexivity |]. split; [reflexivity |]. split; [reflexivity |].
    split; [| unfold thrown; repeat case_match; reflexivity].
    rewrite Hbust. intros Hb. unfold thrown. rewrite Hb, (Hbustfirst Hb). reflexivity.
Qed.

Lemma turn_passes_witness :
  ∃ mgr' r m',
    processThrow beforeCheckout 1 "S1" 1 None 0 = Ok (mgr', r)
    ∧ match_ mgr' = Some m'
    ∧ Match.activePlayerIndex m' = 1%nat
    ∧ Match.round m' = 3.
Proof.
  assert (∃ m player mgr' r,
            accepted beforeCheckout m 1 player
            ∧ processThrow beforeCheckout 1 "S1" 1 None 0 = Ok (mgr', r)
            ∧ length (Player.currentTurn player) = 2%nat
            ∧ gameShot r = false
            ∧ Match.activePlayerIndex m = 0%nat
            ∧ length (Match.players m) = 2%nat
            ∧ Match.round m = 3)
    as (m & player & mgr' & r & Haccepted & Hcall & Hthird & Hnoshot & Hindex
        & Hlength & Hround).
  { eexists _, _, _, _. split; [accept_by_evaluation |].
    split; [vm_compute; reflexivity |]. repeat split. }
  destruct (turn_passes beforeCheckout m 1 player "S1" 1 None 0 mgr' r
              Haccepted Hthird Hcall Hnoshot)
    as (m' & _ & _ & Hm' & _ & Hidx & Hround' & _).
  rewrite Hindex, Hlength in Hidx. cbn in Hidx.
  rewrite Hidx, Hround in Hround'. cbn in Hround'.
  exists mgr', r, m'. repeat split; assumption.
Defined.

Lemma getPlayerLegWins_legCounted m playerId player v td st :
  StatsTracker.players (Match.stats m) !! playerId = Some st →
  getPlayerLegWins (legCounted m playerId player v td) playerId
  = StatsTracker.legsWon st + 1.
Proof.
  intros Hst. unfold getPlayerLegWins, legCounted. cbv zeta.
  cbn -[updatePlayerStats]. rewrite stats_updatePlayerStats, decide_True by reflexivity.
  cbn. rewrite Hst. reflexivity.
Qed.

(** X23: The match is won by the game shot that takes the thrower's legs to
    [legsToWin].  The match is then completed with the winner flagged and
    on 0; the leg number stays, the winning dart stays in the turn in
    progress, and neither is the end time of the statistics set nor the
    autosave timer stopped, which only [endMatch] does. *)
Theorem match_won mgr m playerId player segment score coordinates now mgr' r st :
  accepted mgr m playerId player →
  StatsTracker.players (Match.stats m) !! playerId = Some st →
  processThrow mgr playerId segment score coordinates now = Ok (mgr', r) →
  matchWon r = gameShot r && (Match.legsToWin m <=? StatsTracker.legsWon st + 1)
  ∧ (matchWon r = true →
       ∃ m' winner,
         match_ mgr' = Some m'
         ∧ Match.state m' = completed
         ∧ Match.currentLeg m' = Match.currentLeg m
         ∧ Match.activePlayerIndex m' = Match.activePlayerIndex m
         ∧ Match.players m' !! Match.activePlayerIndex m = Some winner
         ∧ Player.isWinner winner = true
         ∧ Player.score winner = 0
         ∧ Player.currentTurn winner = (Player.currentTurn player ++ [throwData r])%list
         ∧ Player.history winner = Player.history player
         ∧ getPlayerLegWins m' playerId = StatsTracker.legsWon st + 1
         ∧ StatsTracker.endTime (Match.stats m') = StatsTracker.endTime (Match.stats m)
         ∧ autosaveTimer mgr' = autosaveTimer mgr).
Proof.
  intros Haccepted Hst Hcall.
  destruct (processThrow_outcome _ _ _ _ _ _ _ _ _ _ Haccepted Hcall)
    as (Htd & _ & _ & Hshot & m' & -> & Hcase).
  destruct Haccepted as [Hm Hstate Hturn Hplayer Hdarts].
  set (v := verdict m player segment score) in *.
  set (td := throwOf m playerId player segment score coordinates now) in *.
  rewrite Hshot.
  destruct (Validator.gameShot v) eqn:Hg.
  - destruct Hcase as [_ Hcase].
    rewrite (getPlayerLegWins_legCounted _ _ _ _ _ _ Hst) in Hcase.
    destruct (Match.legsToWin m <=? StatsTracker.legsWon st + 1).
    + destruct Hcase as [Hwon ->]. split; [exact Hwon |]. intros _.
      destruct (legCounted_fields m playerId player v td)
        as (Hplayers & Hidx & _ & Hleg & _).
      assert (Hnew : Validator.newScore v = Some 0).
      { destruct (shot_is_valid (Player.score player) segment score
                    (Z.of_nat (length (Player.currentTurn player))) (Match.settings m))
          as (Hvalid & _). apply Hvalid. exact Hg. }
      exists (saveMatchState
                (Match.setState (legCounted m playerId player v td) completed) now),
        (Player.setIsWinner
           (Player.setScore (addThrow td player)
              (default (Player.score player) (Validator.newScore v))) true).
      split; [reflexivity |]. split; [reflexivity |]. split; [exact Hleg |].
      split; [exact Hidx |].
      split.
      { cbn [saveMatchState Match.stamp Match.setState Match.players].
        rewrite Hplayers, list_lookup_alter_eq, Hplayer. reflexivity. }
      rewrite Hnew, Htd. repeat (split; [reflexivity |]).
      split.
      { rewrite <- (getPlayerLegWins_legCounted m playerId player v td st Hst).
        reflexivity. }
      split; [| reflexivity].
      unfold legCounted. cbv zeta. cbn -[updatePlayerStats].
      unfold updatePlayerStats. cbn. rewrite Hst. reflexivity.
    + destruct Hcase as [Hwon _]. rewrite Hwon. split; [reflexivity | discriminate].
  - destruct Hcase as (_ & Hwon & _). rewrite Hwon. split; [reflexivity | discriminate].
Qed.

Lemma match_won_witness :
  ∃ mgr' r m' winner,
    processThrow oneLegDecider 1 "D12" 24 None 0 = Ok (mgr', r)
    ∧ matchWon r = true
    ∧ match_ mgr' = Some m'
    ∧ Match.state m' = completed
    ∧ Match.players m' !! 0%nat = Some winner
    ∧ Player.isWinner winner = true
    ∧ Player.score winner = 0.
Proof.
  assert (∃ m player mgr' r st,
            accepted oneLegDecider m 1 player
            ∧ StatsTracker.players (Match.stats m) !! 1 = Some st
            ∧ processThrow oneLegDecider 1 "D12" 24 None 0 = Ok (mgr', r)
            ∧ matchWon r = true
            ∧ Match.activePlayerIndex m = 0%nat)
    as (m & player & mgr' & r & st & Haccepted & Hst & Hcall & Hwon & Hindex).
  { eexists _, _, _, _, _. split; [accept_by_evaluation |].
    split; [vm_compute; reflexivity |]. split; [vm_compute; reflexivity |].
    split; reflexivity. }
  destruct (match_won oneLegDecider m 1 player "D12" 24 None 0 mgr' r st
              Haccepted Hst Hcall) as [_ Hdone].
  destruct (Hdone Hwon)
    as (m' & winner & Hm' & Hstate & _ & _ & Hwinner & Hflag & Hscore & _).
  rewrite Hindex in Hwinner.
  exists mgr', r, m', winner. repeat split; assumption.
Defined.

(** ** The [legsWon] of the players *)

(** No call writes the [legsWon] of a player. *)
Lemma legsWon_call mgr m c now :
  match_ mgr = Some m →
  ∃ m', match_ (call mgr c now) = Some m'
        ∧ Player.legsWon <$> Match.players m' = Player.legsWon <$> Match.players m.
Proof.
  intros Hm.
  assert (Htransition : ∀ allowed target mgr' out,
            transition mgr allowed target now = Ok (mgr', out) →
            ∃ m', match_ mgr' = Some m'
                  ∧ Player.legsWon <$> Match.players m'
                    = Player.legsWon <$> Match.players m).
  { intros allowed target mgr' out Hcall. unfold transition in Hcall.
    rewrite Hm in Hcall. cbn [orThrow mbind result_bind] in Hcall.
    destruct (allowed (Match.state m)); [| discriminate Hcall].
    injection Hcall as <- <-. eexists. split; reflexivity. }
  assert (Hmoved : ∀ m0 moved,
            moveToNextPlayer m0 now = Ok moved →
            Player.legsWon <$> Match.players moved
            = Player.legsWon <$> Match.players m0).
  { intros m0 moved Hmoved.
    apply moveToNextPlayer_fields in Hmoved as (-> & _).
    rewrite !fmap_alter_same by reflexivity. reflexivity. }
  apply (every_call
           (λ m m', Player.legsWon <$> Match.players m'
                    = Player.legsWon <$> Match.players m) mgr m now Hm).
  - reflexivity.
  - intros mgr' out. unfold startMatch. apply Htransition.
  - intros mgr' out. unfold startWarmup. apply Htransition.
  - intros mgr' out. unfold endWarmup. apply Htransition.
  - intros playerId mgr' out Hcall. unfold setBullWinner in Hcall.
    rewrite Hm in Hcall. cbn [orThrow mbind result_bind] in Hcall.
    destruct (bool_decide (Match.state m = bullshot)); [| discriminate Hcall].
    cbn [negb] in Hcall.
    destruct (JS.findIndex _ _); [| discriminate Hcall].
    cbn in Hcall. injection Hcall as <- <-. eexists. split; [reflexivity |].
    cbn. rewrite <- list_fmap_compose. reflexivity.
  - intros playerId segment score coordinates mgr' r Hcall.
    destruct (processThrow_Ok_accepted _ _ _ _ _ _ _ _ _ Hm Hcall)
      as [player Haccepted].
    destruct (processThrow_outcome _ _ _ _ _ _ _ _ _ _ Haccepted Hcall)
      as (_ & _ & _ & _ & m' & -> & Hcase).
    eexists. split; [reflexivity |]. cbn.
    assert (Hscored : ∀ v td,
              Player.legsWon <$> Match.players (scored m playerId v td)
              = Player.legsWon <$> Match.players m).
    { intros v td. destruct (scored_fields m playerId v td) as [-> _].
      apply fmap_alter_same. intros p. unfold thrown.
      destruct (Validator.valid v && negb (Validator.bust v));
        [| destruct (Validator.bust v)]; reflexivity. }
    assert (Hcounted : ∀ v td,
              Player.legsWon <$> Match.players (legCounted m playerId player v td)
              = Player.legsWon <$> Match.players m).
    { intros v td. destruct (legCounted_fields m playerId player v td) as [-> _].
      apply fmap_alter_same. reflexivity. }
    destruct (Validator.gameShot _).
    + destruct Hcase as [_ Hcase]. destruct (Match.legsToWin m <=? _).
      * destruct Hcase as [_ ->]. apply Hcounted.
      * destruct Hcase as [_ Hnext].
        apply setupNextLeg_fields in Hnext as (starter & _ & -> & _).
        etransitivity; [| apply Hcounted].
        rewrite <- list_fmap_compose. reflexivity.
    + destruct Hcase as (_ & _ & Hcase).
      destruct (Z.of_nat (length (Player.currentTurn player)) =? 2).
      * rewrite (Hmoved _ _ Hcase). apply Hscored.
      * subst m'. apply Hscored.
  - intros throwId segment score mgr' r Hcall. unfold correctThrow in Hcall.
    rewrite Hm in Hcall. cbn [orThrow mbind result_bind] in Hcall.
    destruct (findThrow _ _ _) as [[[i k] th] |]; [| discriminate Hcall].
    cbn [orThrow mbind result_bind] in Hcall.
    destruct (Match.players m !! i); [| discriminate Hcall].
    cbn in Hcall. injection Hcall as <- <-. eexists.
    split; [reflexivity |]. cbn. apply fmap_alter_same. reflexivity.
  - intros mgr' Hcall. unfold manualPlayerSwitch in Hcall. rewrite Hm in Hcall.
    destruct (moveToNextPlayer m now) as [moved |] eqn:Hmove; [| discriminate Hcall].
    cbn in Hcall. injection Hcall as <-. eexists. split; [reflexivity |].
    apply Hmoved. exact Hmove.
  - intros winningPlayerId mgr' out Hcall. unfold endMatch in Hcall.
    rewrite Hm in Hcall. cbn in Hcall. injection Hcall as <- <-.
    eexists. split; [reflexivity |]. cbn.
    destruct winningPlayerId as [winner |]; [| reflexivity].
    destruct (winner =? 0); [reflexivity |].
    destruct (JS.findIndex _ _); [| reflexivity].
    cbn. apply fmap_alter_same. reflexivity.
  - reflexivity.
Qed.

Lemma legsWon_createMatch mgr boardId players mode legsToWin settings now
    insertedId mgr' m :
  createMatch mgr boardId players mode legsToWin settings now insertedId
  = Ok (mgr', m) →
  Forall (λ p, Player.legsWon p = Some 0) (Match.players m).
Proof.
  intros Hcreate. unfold createMatch in Hcreate.
  destruct (bool_decide (is_Some (match_ mgr))); [discriminate Hcreate |].
  unfold initializePlayers in Hcreate.
  destruct (initializePlayersFrom mgr 0 players) as [setupPlayers | e] eqn:Hinit;
    [| discriminate Hcreate].
  cbn in Hcreate.
  destruct setupPlayers as [| first rest]; [discriminate Hcreate |].
  cbn in Hcreate.
  assert (Hzero : Forall (λ p, Player.legsWon p = Some 0) (first :: rest)).
  { clear Hcreate. revert Hinit. generalize (first :: rest). generalize 0%nat.
    induction players as [| model models IH]; intros index ps Hinit.
    - injection Hinit as <-. constructor.
    - cbn [initializePlayersFrom] in Hinit. unfold initializePlayer in Hinit.
      destruct (this_settings mgr) as [s |]; [| discriminate Hinit].
      cbn in Hinit.
      destruct (initializePlayersFrom mgr (S index) models) as [qs | e] eqn:Hrest;
        [| discriminate Hinit].
      cbn in Hinit. injection Hinit as <-.
      constructor; [reflexivity | eapply IH; exact Hrest]. }
  destruct (db mgr); [destruct insertedId |];
    injection Hcreate as <- <-; exact Hzero.
Qed.

(** The [legsWon] of every player is 0 in every match that the calls
    of the manager lead to, whatever has been played: so is their sum,
    which is [currentLeg - 1] in the first leg only. *)
Lemma player_legsWon_stays_zero mgr m :
  reachable mgr →
  match_ mgr = Some m →
  Forall (λ p, Player.legsWon p = Some 0) (Match.players m).
Proof.
  intros Hreach Hm. revert mgr Hreach m Hm.
  apply (reachable_invariant
           (λ m, Forall (λ p, Player.legsWon p = Some 0) (Match.players m))).
  - intros. eapply legsWon_createMatch. eassumption.
  - intros mgr m c now m' Hm Hzero Hm'.
    destruct (legsWon_call mgr m c now Hm) as (m'' & Hm'' & Hkept).
    rewrite Hm' in Hm''. injection Hm'' as <-.
    apply (Forall_fmap Player.legsWon (λ w, w = Some 0)).
    rewrite Hkept.
    apply (Forall_fmap Player.legsWon (λ w, w = Some 0)). exact Hzero.
Qed.

End MatchManagerFacts.

(** * Further properties of saving and loading *)

Module PersistenceFacts.

Import MatchManager MatchManagerSpec Persistence Database.

(** The database with its match rows, and what hangs on them, moved to
    the one id [matchId]. *)
Definition renumbered (db : Database.t) (matchId : Z) : Database.t :=
  {| matches :=
       (λ row, {| MatchRow.id := matchId;
                  MatchRow.board_id := MatchRow.board_id row;
                  MatchRow.mode := MatchRow.mode row;
                  MatchRow.legs_to_win := MatchRow.legs_to_win row;
                  MatchRow.current_leg := MatchRow.current_leg row;
                  MatchRow.active_player_index := MatchRow.active_player_index row;
                  MatchRow.state := MatchRow.state row;
                  MatchRow.settings := MatchRow.settings row;
                  MatchRow.scores := MatchRow.scores row;
                  MatchRow.timestamp := MatchRow.timestamp row;
                  MatchRow.is_autosaved := MatchRow.is_autosaved row |})
       <$> matches db;
     match_players :=
       (λ row, {| MatchPlayerRow.match_id := matchId;
                  MatchPlayerRow.player_id := MatchPlayerRow.player_id row;
                  MatchPlayerRow.position := MatchPlayerRow.position row;
                  MatchPlayerRow.original_score := MatchPlayerRow.original_score row |})
       <$> match_players db;
     players := players db;
     leg_starters := leg_starters db;
     throws := throws db |}.

(** A database with one match row, whose scores name a leg starter,
    and no player rows for it. *)
Definition withoutPlayers : Database.t :=
  {| matches :=
       [ {| MatchRow.id := 1; MatchRow.board_id := 1; MatchRow.mode := "x01";
            MatchRow.legs_to_win := 3; MatchRow.current_leg := 1;
            MatchRow.active_player_index := 0; MatchRow.state := active;
            MatchRow.settings := None;
            MatchRow.scores :=
              Some {| ScoresJson.players := None; ScoresJson.currentLeg := None;
                      ScoresJson.stats := None;
                      ScoresJson.legStarters := Some [Some 1];
                      ScoresJson.round := None |};
            MatchRow.timestamp := 0; MatchRow.is_autosaved := 0 |} ];
     match_players := [];
     players := [];
     leg_starters := [];
     throws := [] |}.

Definition tidy (p : Player.t) : Prop :=
  Player.currentTurn p = []
  ∧ Player.dartsThrown p = Z.of_nat (length (Player.history p))
  ∧ Player.score p = Player.originalScore p.

(** ** A save is an insert *)

Lemma filter_none {A} (keep : A → bool) (l : list A) :
  Forall (λ x, keep x = false) l → List.filter keep l = [].
Proof.
  induction 1 as [| x l Hx _ IH]; [reflexivity |]. cbn. rewrite Hx. exact IH.
Qed.

Lemma max_above z l :
  z ≤ foldr Z.max z l ∧ Forall (λ x, x ≤ foldr Z.max z l) l.
Proof.
  induction l as [| x l [Hz Hl]]; cbn; [split; [lia | constructor] |].
  split; [lia |]. constructor; [lia |].
  eapply Forall_impl; [exact Hl |]. cbn. intros. lia.
Qed.

(** The id of a new row is above every id of the table. *)
Lemma lastID_above {A} (id : A → Z) (rows : list A) :
  Forall (λ row, id row < lastID id rows) rows.
Proof.
  unfold lastID. destruct rows as [| first rest]; [constructor |]. cbn.
  destruct (max_above (id first) (id <$> rest)) as [Hfirst Hrest].
  constructor; [lia |].
  apply Forall_forall. intros row Hrow.
  rewrite Forall_forall in Hrest.
  pose proof (Hrest (id row) (list_elem_of_fmap_2 id rest row Hrow)). lia.
Qed.

(** X24: [saveMatchToDb] only ever adds rows.  The match row it writes
    gets an id above every id of the table, one that no row had, and is
    the row found under that id afterwards: on the board and in the state
    of the match, and without scores.  What [loadMatch] finds under any
    other id, the id the match itself was stored under before included, is
    what it found before the save. *)
Theorem save_is_insert m db :
  let saved := saveMatchToDb m db in
  Forall (λ row, MatchRow.id row < saved.2) (matches db)
  ∧ selectMatch db saved.2 = None
  ∧ (∃ row, matches saved.1 = (matches db ++ [row])%list
            ∧ selectMatch saved.1 saved.2 = Some row
            ∧ MatchRow.id row = saved.2
            ∧ MatchRow.board_id row = Match.boardId m
            ∧ MatchRow.state row = Match.state m
            ∧ MatchRow.scores row = None)
  ∧ ∀ mgr matchId now,
      matchId ≠ saved.2 →
      selectMatch saved.1 matchId = selectMatch db matchId
      ∧ loadMatch mgr saved.1 matchId now = loadMatch mgr db matchId now.
Proof.
  cbv zeta.
  pose proof (lastID_above MatchRow.id (matches db)) as Habove.
  assert (Hnone : List.filter (λ r, MatchRow.id r =? lastID MatchRow.id (matches db))
                    (matches db) = []).
  { apply filter_none. eapply Forall_impl; [exact Habove |].
    cbn. intros row Hrow. apply Z.eqb_neq. lia. }
  split; [exact Habove |].
  split; [unfold selectMatch; cbn; rewrite Hnone; reflexivity |].
  split.
  { eexists. split; [reflexivity |].
    split; [| repeat split].
    unfold selectMatch. cbn. rewrite List.filter_app, Hnone. cbn.
    rewrite Z.eqb_refl. reflexivity. }
  intros mgr matchId now Hother. cbn in Hother.
  assert (Hmatch : selectMatch (saveMatchToDb m db).1 matchId = selectMatch db matchId).
  { unfold selectMatch. cbn. rewrite List.filter_app. cbn.
    destruct (Z.eqb_spec (lastID MatchRow.id (matches db)) matchId); [congruence |].
    rewrite app_nil_r. reflexivity. }
  assert (Hplayers : selectMatchPlayers (saveMatchToDb m db).1 matchId
                     = selectMatchPlayers db matchId).
  { unfold selectMatchPlayers. cbn. rewrite List.filter_app.
    rewrite (filter_none _ (_ <$> Match.players m)).
    - rewrite app_nil_r. reflexivity.
    - apply Forall_fmap, Forall_true. intros p. cbn. apply Z.eqb_neq. congruence. }
  assert (Hthrows : selectThrows (saveMatchToDb m db).1 matchId
                    = selectThrows db matchId) by reflexivity.
  split; [exact Hmatch |].
  unfold loadMatch. rewrite Hmatch, Hplayers, Hthrows. reflexivity.
Qed.

(** The match of [standardGame] saved, its rows moved to the id 7, and
    the match saved again: the new row is row 8, which was not there, and
    row 7 loads as before. *)
Lemma save_is_insert_witness :
  ∃ m first,
    match_ standardGame = Some m
    ∧ MatchRow.id <$> matches first = [7]
    ∧ (saveMatchToDb m first).2 = 8
    ∧ selectMatch first 8 = None
    ∧ loadMatch (MatchManager.constructor true) (saveMatchToDb m first).1 7 0
      = loadMatch (MatchManager.constructor true) first 7 0.
Proof.
  assert (∃ m, match_ standardGame = Some m) as [m Hm].
  { eexists. vm_compute. reflexivity. }
  exists m, (renumbered (saveMatchToDb m PersistenceSpec.registered).1 7).
  destruct (save_is_insert m
              (renumbered (saveMatchToDb m PersistenceSpec.registered).1 7))
    as (_ & Hnone & _ & Hothers).
  cbv zeta in Hnone, Hothers.
  assert (Hid : (saveMatchToDb m
                   (renumbered (saveMatchToDb m PersistenceSpec.registered).1 7)).2
                = 8) by reflexivity.
  split; [exact Hm |]. split; [reflexivity |]. split; [exact Hid |].
  rewrite Hid in Hnone, Hothers.
  split; [exact Hnone |].
  apply (Hothers (MatchManager.constructor true) 7 0). discriminate.
Defined.

(** ** What [loadMatch] builds *)

Lemma tidy_loadThrow players row :
  Forall tidy players → Forall tidy (loadThrow players row).
Proof.
  intros Htidy. unfold loadThrow. case_match; [| exact Htidy].
  apply Forall_alter; [exact Htidy |].
  intros p _ (Hturn & Hdarts & Hscore). repeat split; cbn; [exact Hturn | | exact Hscore].
  rewrite length_app, Hdarts. cbn. lia.
Qed.

Lemma tidy_loadThrows rows players :
  Forall tidy players → Forall tidy (foldl loadThrow players rows).
Proof.
  revert players. induction rows as [| row rows IH]; intros players Htidy;
    [exact Htidy |].
  cbn. apply IH, tidy_loadThrow, Htidy.
Qed.

(** X25: A match that [loadMatch] returns is the one now loaded and has the
    id asked for; the player at its active index has the active flag, set
    on the first player when the stored flags name nobody; and every
    player has an empty turn in progress, a dart count that is the number
    of throws in the history, and a score equal to the original score: the
    stored throws fill the histories, they are not taken off the scores.
    A match already in progress is replaced without a word. *)
Theorem loaded_match mgr db matchId now mgr' m :
  loadMatch mgr db matchId now = Ok (mgr', m) →
  MatchManager.db mgr = true
  ∧ match_ mgr' = Some m
  ∧ Match.id m = matchId
  ∧ (∃ row, selectMatch db matchId = Some row
            ∧ Match.state m = MatchRow.state row
            ∧ Match.boardId m = MatchRow.board_id row)
  ∧ (∃ p, Match.players m !! Match.activePlayerIndex m = Some p
          ∧ Player.isActive p = true)
  ∧ Forall (λ p, Player.currentTurn p = []
                 ∧ Player.dartsThrown p = Z.of_nat (length (Player.history p))
                 ∧ Player.score p = Player.originalScore p)
      (Match.players m).
Proof.
  intros Hload. unfold loadMatch in Hload.
  destruct (MatchManager.db mgr) eqn:Hdb; [| discriminate Hload].
  cbn [negb] in Hload.
  destruct (selectMatch db matchId) as [row |] eqn:Hrow; [| discriminate Hload].
  cbn [orThrow mbind result_bind] in Hload.
  set (settings := default SettingsJson.empty (MatchRow.settings row)) in *.
  set (scores := default ScoresJson.empty (MatchRow.scores row)) in *.
  set (loaded := foldl loadThrow (loadPlayer settings scores <$> _) _) in *.
  assert (Htidy : Forall tidy loaded).
  { unfold loaded. apply tidy_loadThrows. apply Forall_fmap, Forall_true.
    intros mp. repeat split. }
  destruct (match ScoresJson.legStarters scores with
            | Some legStarters => Ok legStarters
            | None => _
            end) as [legStarters |]; [| discriminate Hload].
  cbn [mbind result_bind] in Hload.
  destruct (JS.findIndex Player.isActive loaded) as [idx |] eqn:Hidx.
  - cbn [mbind result_bind default] in Hload.
    apply findIndex_Some in Hidx as (p & Hp & Hactive).
    assert (Hm : match_ mgr' = Some m ∧ Match.id m = matchId
                 ∧ Match.state m = MatchRow.state row
                 ∧ Match.boardId m = MatchRow.board_id row
                 ∧ Match.players m = loaded ∧ Match.activePlayerIndex m = idx).
    { destruct (bool_decide _); injection Hload as <- <-; repeat split. }
    destruct Hm as (Hm & Hid & Hstate & Hboard & Hplayers & Hindex).
    split; [reflexivity |]. split; [exact Hm |]. split; [exact Hid |].
    split; [eauto |].
    rewrite Hplayers, Hindex. split; [eauto | exact Htidy].
  - cbn [mbind result_bind default] in Hload.
    destruct loaded as [| first rest] eqn:Hloaded; [discriminate Hload |].
    cbn [head orThrow mbind result_bind] in Hload.
    assert (Hm : match_ mgr' = Some m ∧ Match.id m = matchId
                 ∧ Match.state m = MatchRow.state row
                 ∧ Match.boardId m = MatchRow.board_id row
                 ∧ Match.players m = Player.setIsActive first true :: rest
                 ∧ Match.activePlayerIndex m = 0%nat).
    { destruct (bool_decide _); injection Hload as <- <-; repeat split. }
    destruct Hm as (Hm & Hid & Hstate & Hboard & Hplayers & Hindex).
    split; [reflexivity |]. split; [exact Hm |]. split; [exact Hid |].
    split; [eauto |].
    rewrite Hplayers, Hindex. split; [eexists; split; reflexivity |].
    apply Forall_cons in Htidy as [Hfirst Hrest].
    constructor; [exact Hfirst | exact Hrest].
Qed.

Lemma loaded_match_witness :
  ∃ m db mgr' m',
    match_ standardGame = Some m
    ∧ db = (saveMatchToDb m PersistenceSpec.registered).1
    ∧ loadMatch (MatchManager.constructor true) db 1 0 = Ok (mgr', m')
    ∧ match_ mgr' = Some m'
    ∧ Match.id m' = 1
    ∧ ∃ p, Match.players m' !! Match.activePlayerIndex m' = Some p
           ∧ Player.isActive p = true.
Proof.
  assert (∃ m mgr' m',
            match_ standardGame = Some m
            ∧ loadMatch (MatchManager.constructor true)
                (saveMatchToDb m PersistenceSpec.registered).1 1 0
              = Ok (mgr', m'))
    as (m & mgr' & m' & Hm & Hload).
  { eexists _, _, _. split; vm_compute; reflexivity. }
  destruct (loaded_match _ _ _ _ _ _ Hload) as (_ & Hm' & Hid & _ & Hactive & _).
  exists m, (saveMatchToDb m PersistenceSpec.registered).1, mgr', m'.
  repeat (split; [first [assumption | reflexivity] |]).
  exact Hactive.
Defined.

(** ** A load that throws *)

(** A call of [loadMatch] that throws leaves the manager as it was,
    unless it threw on the active flag of a first player who is not
    there: then the manager holds the match read, without players and with
    the timer as it was. *)
Lemma failed_load mgr db matchId now e :
  loadMatch mgr db matchId now = Err e →
  afterLoadMatch mgr db matchId now = mgr
  ∨ (e = TypeError
     ∧ ∃ row m,
         selectMatch db matchId = Some row
         ∧ match_ (afterLoadMatch mgr db matchId now) = Some m
         ∧ Match.id m = matchId
         ∧ Match.state m = MatchRow.state row
         ∧ Match.players m = []
         ∧ Match.activePlayerIndex m = 0%nat
         ∧ autosaveTimer (afterLoadMatch mgr db matchId now) = autosaveTimer mgr).
Proof.
  intros Hload. unfold afterLoadMatch. rewrite Hload.
  unfold loadMatch in Hload.
  destruct (MatchManager.db mgr); [| left; reflexivity].
  cbn [negb] in Hload.
  destruct (selectMatch db matchId) as [row |]; [| left; reflexivity].
  cbn [orThrow mbind result_bind] in Hload. cbv zeta.
  destruct (ScoresJson.legStarters _) as [legStarters |]; [| left; reflexivity].
  cbn [mbind result_bind] in Hload.
  destruct (foldl loadThrow _ _) as [| first rest]; [| left; reflexivity].
  cbn in Hload. injection Hload as <-.
  right. split; [reflexivity |]. eexists _, _. repeat split.
Qed.

(** With the rows of [withoutPlayers] the call throws and the manager,
    which had no match, has one: a later [createMatch] is refused. *)
Lemma failed_load_leaves_a_match :
  ∃ m,
    loadMatch (MatchManager.constructor true) withoutPlayers 1 0 = Err TypeError
    ∧ match_ (afterLoadMatch (MatchManager.constructor true) withoutPlayers 1 0)
      = Some m
    ∧ Match.players m = []
    ∧ createMatch (afterLoadMatch (MatchManager.constructor true) withoutPlayers 1 0)
        1 [anna; bert] "x01" 3 unset 0 None
      = Err AlreadyInProgress.
Proof.
  eexists. split; [vm_compute; reflexivity |].
  split; [vm_compute; reflexivity |]. split; reflexivity.
Qed.

(** ** A stored match without scores *)

Lemma plain_loadThrows (P : Player.t → Prop) rows players :
  (∀ p th, P p →
     P (Player.setDartsThrown
          (Player.setHistory p (Player.history p ++ [th])%list)
          (Player.dartsThrown p + 1))) →
  Forall P players → Forall P (foldl loadThrow players rows).
Proof.
  intros Hkeep. revert players.
  induction rows as [| row rows IH]; intros players Hplayers; [exact Hplayers |].
  cbn. apply IH. unfold loadThrow. case_match; [| exact Hplayers].
  apply Forall_alter; [exact Hplayers |]. intros p _ Hp. exact (Hkeep p _ Hp).
Qed.

(** X26: [saveMatchToDb] writes no [scores] column, and this is what
    [loadMatch] makes of a match row without one, whatever was played: the
    match stands at leg 1 and round 1, the first player is the active one
    and the starter on record, every player is on the starting score of
    the stored settings, 501 without one, and the statistics are those of
    a new match.  The legs to win are read from the settings, which
    [saveMatchToDb] does not write them to, and are 3 without. *)
Theorem loaded_without_scores mgr db matchId now mgr' m row :
  selectMatch db matchId = Some row →
  MatchRow.scores row = None →
  loadMatch mgr db matchId now = Ok (mgr', m) →
  let settings := default SettingsJson.empty (MatchRow.settings row) in
  Match.currentLeg m = 1
  ∧ Match.round m = 1
  ∧ Match.activePlayerIndex m = 0%nat
  ∧ Match.legsToWin m = JS.or (SettingsJson.legsToWin settings) 3
  ∧ (∃ first rest,
       Match.players m = first :: rest
       ∧ Match.legStarters m = [Some (Player.id first)]
       ∧ Player.isActive first = true
       ∧ Forall (λ p, Player.isActive p = false) rest)
  ∧ Forall (λ p, Player.score p = JS.or (SettingsJson.startingScore settings) 501)
      (Match.players m)
  ∧ Match.stats m
    = StatsTracker.initMatchStats (ids m) (Match.legsToWin m) now.
Proof.
  intros Hrow Hscores Hload. cbv zeta. unfold loadMatch in Hload.
  destruct (MatchManager.db mgr); [| discriminate Hload].
  cbn [negb] in Hload. rewrite Hrow in Hload.
  cbn [orThrow mbind result_bind] in Hload. rewrite Hscores in Hload.
  cbn [default ScoresJson.legStarters ScoresJson.empty ScoresJson.currentLeg
       ScoresJson.round ScoresJson.stats] in Hload.
  set (settings := default SettingsJson.empty (MatchRow.settings row)) in *.
  set (start := JS.or (SettingsJson.startingScore settings) 501).
  set (loaded := foldl loadThrow (loadPlayer settings ScoresJson.empty <$> _) _) in *.
  assert (Hplain : Forall (λ p, Player.isActive p = false ∧ Player.score p = start)
                     loaded).
  { unfold loaded. apply plain_loadThrows; [intros p th Hp; exact Hp |].
    apply Forall_fmap, Forall_true. intros mp. split; reflexivity. }
  assert (Hnone : JS.findIndex Player.isActive loaded = None).
  { destruct (JS.findIndex Player.isActive loaded) as [i |] eqn:Hi; [| reflexivity].
    apply findIndex_Some in Hi as (p & Hp & Hactive).
    rewrite Forall_lookup in Hplain. destruct (Hplain _ _ Hp). congruence. }
  rewrite Hnone in Hload.
  destruct loaded as [| first rest] eqn:Hloaded; [discriminate Hload |].
  cbn [head orThrow mbind result_bind default] in Hload.
  apply Forall_cons in Hplain as [[_ Hfirst] Hrest].
  assert (Hm : m = MatchManager.updatePlayer
                     {| Match.id := matchId;
                        Match.boardId := MatchRow.board_id row;
                        Match.players := first :: rest;
                        Match.legsToWin := JS.or (SettingsJson.legsToWin settings) 3;
                        Match.currentLeg := JS.or None 1;
                        Match.activePlayerIndex := 0;
                        Match.mode := MatchRow.mode row;
                        Match.state := MatchRow.state row;
                        Match.settings := Match.settings m;
                        Match.stats :=
                          StatsTracker.initMatchStats (Player.id <$> first :: rest)
                            (JS.or (SettingsJson.legsToWin settings) 3) now;
                        Match.legStarters := [Some (Player.id first)];
                        Match.round := JS.or None 1;
                        Match.timestamp := now;
                        Match.isAutosaved := false |}
                     0 (λ p, Player.setIsActive p true)).
  { destruct (bool_decide _); injection Hload as _ <-; reflexivity. }
  rewrite Hm. cbn.
  repeat (split; [reflexivity |]).
  split.
  { eexists _, _. split; [reflexivity |]. split; [reflexivity |].
    split; [reflexivity |]. eapply Forall_impl; [exact Hrest |]. cbn. tauto. }
  split; [| reflexivity].
  constructor; [exact Hfirst |]. eapply Forall_impl; [exact Hrest |]. cbn. tauto.
Qed.

Lemma loaded_without_scores_witness :
  ∃ m mgr' m',
    match_ PersistenceSpec.bertHasThrown = Some m
    ∧ loadMatch (MatchManager.constructor true)
        (saveMatchToDb m PersistenceSpec.registered).1 1 0
      = Ok (mgr', m')
    ∧ Match.legsToWin m = 5
    ∧ Match.legsToWin m' = 3
    ∧ Match.activePlayerIndex m = 1%nat
    ∧ Match.activePlayerIndex m' = 0%nat.
Proof.
  assert (∃ m mgr' m' row,
            match_ PersistenceSpec.bertHasThrown = Some m
            ∧ loadMatch (MatchManager.constructor true)
                (saveMatchToDb m PersistenceSpec.registered).1 1 0
              = Ok (mgr', m')
            ∧ selectMatch (saveMatchToDb m PersistenceSpec.registered).1 1 = Some row
            ∧ MatchRow.scores row = None
            ∧ SettingsJson.legsToWin (default SettingsJson.empty (MatchRow.settings row))
              = None
            ∧ Match.legsToWin m = 5
            ∧ Match.activePlayerIndex m = 1%nat)
    as (m & mgr' & m' & row & Hm & Hload & Hrow & Hscores & Hlegs & Hfive & Hidx).
  { eexists _, _, _, _. split; [vm_compute; reflexivity |].
    split; [vm_compute; reflexivity |]. split; [vm_compute; reflexivity |].
    repeat split. }
  destruct (loaded_without_scores _ _ _ _ _ _ _ Hrow Hscores Hload)
    as (_ & _ & Hidx' & Hlegs' & _).
  rewrite Hlegs in Hlegs'.
  exists m, mgr', m'. repeat (split; [assumption |]). exact Hidx'.
Defined.

(** ** Corrections and the stored throws *)

(** X27: The throw [processThrow] builds carries the clock value as its id;
    the row id [saveThrowToDb] returns is not written back to it, and
    [updateThrowInDb] looks the row up by the id of the throw.  So unless a
    stored row happens to have the clock value as its id, correcting the
    throw changes nothing in the database: the row keeps the segment and
    the score it was saved with. *)
Theorem correction_is_not_stored mgr m playerId player segment score coordinates
    now mgr' r db segment' score' :
  accepted mgr m playerId player →
  processThrow mgr playerId segment score coordinates now = Ok (mgr', r) →
  Forall (λ row, ThrowRow.id row ≠ now) (throws db) →
  lastID ThrowRow.id (throws db) ≠ now →
  let saved := saveThrowToDb m (throwData r) db in
  updateThrowInDb (Throw.correct (throwData r) segment' score') saved.1 = saved.1
  ∧ ∃ row, last (throws saved.1) = Some row
           ∧ ThrowRow.id row = saved.2
           ∧ ThrowRow.segment row = segment
           ∧ ThrowRow.score row = score.
Proof.
  intros Haccepted Hcall Hrows Hnew. cbv zeta.
  destruct (MatchManagerFacts.processThrow_outcome _ _ _ _ _ _ _ _ _ _ Haccepted Hcall)
    as (-> & _).
  split.
  - unfold updateThrowInDb, saveThrowToDb. cbn. f_equal.
    rewrite <- (list_fmap_id (throws db ++ _)) at 2.
    apply list_fmap_ext. intros i row Hrow. cbn.
    destruct (Z.eqb_spec (ThrowRow.id row) now) as [Heq | _]; [| reflexivity].
    exfalso. apply lookup_app_Some in Hrow as [Hold | [_ Hlast]].
    + rewrite Forall_lookup in Hrows. apply (Hrows _ _ Hold). exact Heq.
    + destruct (i - length (throws db))%nat; [| discriminate Hlast].
      injection Hlast as <-. cbn in Heq. contradiction.
  - eexists. cbn. rewrite last_snoc. repeat split.
Qed.

Lemma correction_is_not_stored_witness :
  ∃ mgr' r,
    processThrow standardGame 1 "T20" 60 None 1700000000000 = Ok (mgr', r)
    ∧ ∀ m, match_ standardGame = Some m →
        let saved := saveThrowToDb m (throwData r) PersistenceSpec.registered in
        updateThrowInDb (Throw.correct (throwData r) "S20" 20) saved.1 = saved.1.
Proof.
  assert (∃ m player mgr' r,
            accepted standardGame m 1 player
            ∧ processThrow standardGame 1 "T20" 60 None 1700000000000 = Ok (mgr', r))
    as (m & player & mgr' & r & Haccepted & Hcall).
  { eexists _, _, _, _. split; [accept_by_evaluation | vm_compute; reflexivity]. }
  exists mgr', r. split; [exact Hcall |]. intros m0 Hm0.
  rewrite (accepted_match _ _ _ _ Haccepted) in Hm0. injection Hm0 as <-.
  apply (correction_is_not_stored standardGame m 1 player "T20" 60 None
           1700000000000 mgr' r PersistenceSpec.registered "S20" 20 Haccepted Hcall).
  - constructor.
  - discriminate.
Defined.

End PersistenceFacts.
